(** * shapespresso: the ShExC/ShExJ converter and the schema similarity metrics

    A shallow embedding of [shapespresso/parser/parser.py],
    [shapespresso/metrics/similarity.py], the loop of
    [shapespresso/baselines/shexer_baseline.py] and
    [shapespresso/baselines/rdfshapeinduction/preprocess.py], followed by the
    properties of the comment machinery, the error recovery of the converter,
    the tree and graph builders, the sibling ordering, the evaluator and the
    cardinality data.

    Python values are modelled as follows.
    - [str] is [string]; a character is a code point below 256.
    - [list] is [list]; [dict] keyed by strings is [gmap string _].
    - [None]-or-value is [option]; a raised exception is [Raise e].
    - [int / int] is exact division in [Q]; a [numpy.float64] is a rational,
      [inf] or [nan]. *)

From Stdlib Require Import Ascii QArith.
From stdpp Require Import gmap strings list sorting.
From Equations Require Import Equations.

Local Open Scope stdpp_scope.
Set Warnings "-clear-no-such-hyp".

(** ** Python string primitives *)

Module PyStr.

Definition LF : ascii := "010".
Definition CR : ascii := "013".
Definition SPACE : ascii := " ".
Definition SEMICOLON : ascii := ";".
Definition HASH : ascii := "#".
Definition LT : ascii := "<".
Definition GT : ascii := ">".

(** [str.isspace] on one code point below 256. *)
Definition isspace (c : ascii) : bool :=
  bool_decide (N_of_ascii c ∈ [9; 10; 11; 12; 13; 28; 29; 30; 31; 32; 133; 160]%N).

(** The line boundaries of [str.splitlines] below 256. *)
Definition is_linebreak (c : ascii) : bool :=
  bool_decide (N_of_ascii c ∈ [10; 11; 12; 13; 28; 29; 30; 133]%N).

(** Truth value of a [str]: non-empty. *)
Definition truthy (s : string) : bool :=
  match s with EmptyString => false | String _ _ => true end.

Fixpoint startswith (prefix s : string) : bool :=
  match prefix, s with
  | EmptyString, _ => true
  | String a p, String b s' => if decide (a = b) then startswith p s' else false
  | String _ _, EmptyString => false
  end.

Fixpoint contains_char (c : ascii) (s : string) : bool :=
  match s with
  | EmptyString => false
  | String a s' => if decide (a = c) then true else contains_char c s'
  end.

(** [s[:s.index(c)]], the text before the first [c] (all of [s] when [c]
    does not occur; the callers only ask when it does). *)
Fixpoint before_char (c : ascii) (s : string) : string :=
  match s with
  | EmptyString => EmptyString
  | String a s' => if decide (a = c) then EmptyString else String a (before_char c s')
  end.

(** [s[s.index(c):]], the text from the first [c] on. *)
Fixpoint from_char (c : ascii) (s : string) : string :=
  match s with
  | EmptyString => EmptyString
  | String a s' => if decide (a = c) then s else from_char c s'
  end.

(** [s.lstrip(chars)] for a character class. *)
Fixpoint lstrip_by (p : ascii → bool) (s : string) : string :=
  match s with
  | EmptyString => EmptyString
  | String a s' => if p a then lstrip_by p s' else s
  end.

(** [s.rstrip(chars)] for a character class. *)
Fixpoint rstrip_by (p : ascii → bool) (s : string) : string :=
  match s with
  | EmptyString => EmptyString
  | String a s' =>
      match rstrip_by p s' with
      | EmptyString => if p a then EmptyString else String a EmptyString
      | r => String a r
      end
  end.

Definition lstrip : string → string := lstrip_by isspace.
Definition rstrip : string → string := rstrip_by isspace.
Definition strip (s : string) : string := rstrip (lstrip s).

(** The class of [rstrip(' ;')]. *)
Definition space_or_semicolon (c : ascii) : bool :=
  bool_decide (c = SPACE ∨ c = SEMICOLON).

(** [s.split(sep)] for the one-character separator [sep]; never empty. *)
Fixpoint split (sep : ascii) (s : string) : list string :=
  match s with
  | EmptyString => [EmptyString]
  | String a s' =>
      if decide (a = sep) then EmptyString :: split sep s'
      else match split sep s' with
           | [] => [String a EmptyString]
           | h :: t => String a h :: t
           end
  end.

(** [s.splitlines()]: a final line break opens no further line, and
    carriage return followed by line feed is one boundary. *)
Fixpoint splitlines (s : string) : list string :=
  match s with
  | EmptyString => []
  | String a s' =>
      if is_linebreak a then
        EmptyString ::
          (if decide (a = CR) then
             match s' with
             | String b s'' => if decide (b = LF) then splitlines s'' else splitlines s'
             | EmptyString => []
             end
           else splitlines s')
      else match splitlines s' with
           | [] => [String a EmptyString]
           | h :: t => String a h :: t
           end
  end.

(** [sep.join(parts)] for a one-character [sep]. *)
Fixpoint join (sep : ascii) (parts : list string) : string :=
  match parts with
  | [] => EmptyString
  | [p] => p
  | p :: rest => p +:+ String sep (join sep rest)
  end.

(** [s.split()]: maximal runs of non-space characters. *)
Fixpoint words_go (cur : option string) (s : string) : list string :=
  match s with
  | EmptyString => match cur with Some w => [String.rev w] | None => [] end
  | String a s' =>
      if isspace a then
        match cur with
        | Some w => String.rev w :: words_go None s'
        | None => words_go None s'
        end
      else words_go (Some (String a (default EmptyString cur))) s'
  end.
Definition words : string → list string := words_go None.

(** The capital and the small form of one code point below 256: the
    letters of ASCII and those of Latin-1, which lie 32 apart (215 and 247,
    the multiplication and the division sign, are no letters). Three small
    letters have no capital below 256: 181 (micro sign) and 255 (y with
    diaeresis), whose capitals are the code points 924 and 376, and 223
    (sharp s), whose capital is two letters. [upper] keeps these three, so
    it is the capital of Python on every other code point. *)
Definition upper (c : ascii) : ascii :=
  let n := nat_of_ascii c in
  if ((97 <=? n)%nat && (n <=? 122)%nat)
     || ((224 <=? n)%nat && (n <=? 254)%nat && negb (n =? 247)%nat)
  then ascii_of_nat (n - 32) else c.
Definition lower (c : ascii) : ascii :=
  let n := nat_of_ascii c in
  if ((65 <=? n)%nat && (n <=? 90)%nat)
     || ((192 <=? n)%nat && (n <=? 222)%nat && negb (n =? 215)%nat)
  then ascii_of_nat (n + 32) else c.

Fixpoint map_chars (f : ascii → ascii) (s : string) : string :=
  match s with
  | EmptyString => EmptyString
  | String a s' => String (f a) (map_chars f s')
  end.

(** [s.capitalize()]: the capital of the first character and the small
    forms of the others; it is that of Python when the first character
    satisfies [has_capital]. *)
Definition capitalize (s : string) : string :=
  match s with
  | EmptyString => EmptyString
  | String a s' => String (upper a) (map_chars lower s')
  end.

Fixpoint concat (parts : list string) : string :=
  match parts with
  | [] => EmptyString
  | p :: rest => p +:+ concat rest
  end.

End PyStr.

(** ** parser.py *)

Module Parser.
Import PyStr.

(** The value under ["type"] of a comment record. *)
Inductive comment_type := general | constraint.

(** The value under ["location"]: [locate_comment] returns [str | int]. *)
Inductive location := LocInt (n : Z) | LocStr (s : string).

(** One extracted comment, the dict with the keys ["comment"], ["type"]
    and ["location"]. *)
Record CommentRecord := {
  c_comment : string;
  c_type : comment_type;
  c_location : location
}.

#[global] Instance comment_type_eq_dec : EqDecision comment_type.
Proof. solve_decision. Defined.
#[global] Instance location_eq_dec : EqDecision location.
Proof. solve_decision. Defined.
#[global] Instance CommentRecord_eq_dec : EqDecision CommentRecord.
Proof. solve_decision. Defined.

Fixpoint position_start_line_from (idx : nat) (lines : list string) : nat :=
  match lines with
  | [] => 0
  | line :: rest =>
      if startswith "start" line || startswith "<" line then idx
      else position_start_line_from (S idx) rest
  end.

Definition position_start_line (shexc_text : string) : nat :=
  position_start_line_from 0 (split LF shexc_text).

(** [for line in lines: if line: return line], then [return 0]. *)
Definition first_nonempty (lines : list string) : location :=
  match List.find truthy lines with
  | Some line => LocStr line
  | None => LocInt 0
  end.

(** [locate_comment(shexc_text, case)] where [shexc_text] is the slice
    [line :: following] (the caller passes [shexc_lines[idx:]], which
    starts with the comment's own line). *)
Definition locate_comment (line : string) (following : list string)
    (case : comment_type) : location :=
  match case with
  | general => first_nonempty following
  | constraint =>
      if truthy (strip (before_char HASH line))
      then LocStr (rstrip (before_char HASH line))
      else first_nonempty following
  end.

(** [remove_lines]: lines are numbered from 1. *)
Fixpoint remove_lines_from (i : Z) (lines : list string) (removed_lines : list Z)
    : list string :=
  match lines with
  | [] => []
  | line :: rest =>
      if bool_decide (i ∈ removed_lines)
      then remove_lines_from (i + 1) rest removed_lines
      else line :: remove_lines_from (i + 1) rest removed_lines
  end.

Definition remove_lines (text : string) (removed_lines : list Z) : string :=
  join LF (remove_lines_from 1 (splitlines text) removed_lines).

Definition is_letter (up low : ascii) (c : ascii) : bool :=
  bool_decide (c = up ∨ c = low).

(** The text between the first and the last character, when the first is
    [<] and the last is [>] and something lies between them. *)
Definition angle_bracketed (s : string) : option string :=
  match s with
  | String a body =>
      if decide (a = LT) then
        match String.rev body with
        | String z (String y inner) =>
            if decide (z = GT) then Some (String.rev (String y inner)) else None
        | _ => None
        end
      else None
  | EmptyString => None
  end.

(** [re.match(r'^[Bb][Aa][Ss][Ee]\s+<(.+)>$', line)] and its group 1, for
    a line without line feed (the caller splits the text on it). *)
Definition match_base (line : string) : option string :=
  match line with
  | String b (String a (String s (String e (String w rest)))) =>
      if is_letter "B" "b" b && is_letter "A" "a" a && is_letter "S" "s" s
         && is_letter "E" "e" e && isspace w
      then angle_bracketed (lstrip rest)
      else None
  | _ => None
  end.

Fixpoint first_base (lines : list string) : option string :=
  match lines with
  | [] => None
  | line :: rest =>
      match match_base line with
      | Some uri => Some uri
      | None => first_base rest
      end
  end.

Definition base_uri_parser_helper (shexc_text : string) : option string :=
  first_base (split LF shexc_text).

Definition comment_at (start_line_num idx : nat) (line : string)
    (following : list string) : list CommentRecord :=
  if (idx <? start_line_num)%nat then
    if startswith "#" (strip line)
    then [ {| c_comment := line; c_type := general;
              c_location := locate_comment line following general |} ]
    else []
  else if startswith "#" (strip line)
    then [ {| c_comment := line; c_type := constraint;
              c_location := locate_comment line following constraint |} ]
  else if contains_char HASH line
    then [ {| c_comment := from_char HASH line; c_type := constraint;
              c_location := locate_comment line following constraint |} ]
  else [].

Fixpoint comment_scan (start_line_num idx : nat) (lines : list string)
    : list CommentRecord :=
  match lines with
  | [] => []
  | line :: rest =>
      comment_at start_line_num idx line rest
        ++ comment_scan start_line_num (S idx) rest
  end.

Definition comment_parser_helper (shexc_text : string) : list CommentRecord :=
  comment_scan (position_start_line shexc_text) 0 (split LF shexc_text).

(** [line == comment["location"] or line.rstrip(' ;') == comment["location"]];
    a string never equals an [int]. *)
Definition anchor_matches (loc : location) (line : string) : bool :=
  match loc with
  | LocStr anchor =>
      bool_decide (line = anchor)
      || bool_decide (rstrip_by space_or_semicolon line = anchor)
  | LocInt _ => false
  end.

(** The inner loop of [insert_comments], up to its [break]. *)
Fixpoint insert_at_anchor (c : CommentRecord) (shexc_lines : list string)
    : list string :=
  match shexc_lines with
  | [] => []
  | line :: rest =>
      if anchor_matches (c_location c) line then
        match c_type c with
        | general => c_comment c :: line :: rest
        | constraint =>
            (rstrip line +:+ "  " +:+ lstrip (c_comment c)) :: rest
        end
      else line :: insert_at_anchor c rest
  end.

(** One pass of the outer loop. *)
Definition insert_comment (shexc_lines : list string) (c : CommentRecord)
    : list string :=
  if decide (c_location c = LocInt 0)
  then c_comment c :: shexc_lines
  else insert_at_anchor c shexc_lines.

(** [for comment in comments[::-1]: ...] over the line list. *)
Definition insert_comment_lines (shexc_lines : list string)
    (comments : list CommentRecord) : list string :=
  foldl insert_comment shexc_lines (reverse comments).

Definition insert_comments (shexc_text : string)
    (comments : option (list CommentRecord)) : string :=
  match comments with
  | None | Some [] => shexc_text
  | Some cs => join LF (insert_comment_lines (split LF shexc_text) cs)
  end.

(** The entries of [ShExEvaluator.errors]. *)
Record error := { message : string; line : Z }.

(** The collaborators of the converter: the grammar engine
    ([ShExEvaluator(schema=text)], read through [_schema] and [errors]),
    [as_json], and the prefix scan with the namespace manager it fills. *)
Class Collaborators := {
  Schema : Type;
  NamespaceManager : Type;
  ShExEvaluator : string → option Schema * list error;
  as_json : Schema → string;
  extract_prefix_declarations : string → list (string * string);
  bind_all : list (string * string) → NamespaceManager
}.

(** What the converter does besides returning. *)
Inductive event :=
| Evaluated (text : string)
| LoggedError (msg : string).

Section Converter.
Context `{Collaborators}.

Definition namespaces_parser_helper (inputs : string) : NamespaceManager :=
  bind_all (extract_prefix_declarations inputs).

Definition converted : Type :=
  string * option string * option NamespaceManager * option (list CommentRecord).

(** The value returned after [logger.error]: the empty text and three
    times [None]. *)
Definition unable_to_parse : converted := (EmptyString, None, None, None).

(** The tail of [shexc_to_shexj]; [shexc_text] is the variable as it
    stands when line 118 is reached. *)
Definition load_rest (shexj_text shexc_text : string) : converted :=
  (shexj_text,
   base_uri_parser_helper shexc_text,
   Some (namespaces_parser_helper shexc_text),
   Some (comment_parser_helper shexc_text)).

Definition shexc_to_shexj (shexc_text : string) : converted * list event :=
  let '(schema, errors) := ShExEvaluator shexc_text in
  match schema, errors with
  | None, _ :: _ =>
      let error_lines := remove_dups (line <$> errors) in
      let shexc_text' := remove_lines shexc_text error_lines in
      match fst (ShExEvaluator shexc_text') with
      | Some schema' =>
          (load_rest (as_json schema') shexc_text',
           [Evaluated shexc_text; Evaluated shexc_text'])
      | None =>
          (unable_to_parse,
           [Evaluated shexc_text; Evaluated shexc_text';
            LoggedError "Unable to parse the file!"])
      end
  | Some schema, _ =>
      (load_rest (as_json schema) shexc_text, [Evaluated shexc_text])
  | None, [] =>
      (unable_to_parse,
       [Evaluated shexc_text; LoggedError "Unable to parse the file!"])
  end.
End Converter.

End Parser.

(** ** similarity.py *)

Module Similarity.
Import PyStr.

(** The exceptions the modelled code can raise. *)
Inductive exn :=
| KeyError | IndexError | ValueError | ZeroDivisionError
| FileNotFoundError | JSONDecodeError.

Inductive result (A : Type) :=
| Ok (a : A)
| Raise (e : exn).
Arguments Ok {A} a.
Arguments Raise {A} e.

Definition bind {A B} (r : result A) (k : A → result B) : result B :=
  match r with
  | Ok a => k a
  | Raise e => Raise e
  end.

Notation "x ←! r ; k" := (bind r (λ x, k))
  (at level 100, r at next level, right associativity).

(** [d[k]] on a dict. *)
Definition getitem {V} (d : gmap string V) (k : string) : result V :=
  match d !! k with
  | Some v => Ok v
  | None => Raise KeyError
  end.

(** *** The tree *)

#[local] Unset Elimination Schemes.
Inductive ShapeNode := ShapeNode_ (label : string) (children : list ShapeNode).
#[local] Set Elimination Schemes.

Definition label (node : ShapeNode) : string :=
  match node with ShapeNode_ l _ => l end.
Definition children (node : ShapeNode) : list ShapeNode :=
  match node with ShapeNode_ _ cs => cs end.

(** [ShapeNode(label)]. *)
Definition leaf (l : string) : ShapeNode := ShapeNode_ l [].

(** [ShapeNode.__len__]. *)
Definition len (self : ShapeNode) : nat := length (children self).

(** [add_kid(node)] with [before=False]; returns [self]. *)
Definition add_kid (self node : ShapeNode) : ShapeNode :=
  ShapeNode_ (label self) (children self ++ [node]).

(** The number of nodes of a tree, and of a forest. *)
Fixpoint node_count (t : ShapeNode) : nat :=
  match t with
  | ShapeNode_ _ cs => S (sum_list (node_count <$> cs))
  end.
Definition forest_count (F : list ShapeNode) : nat := sum_list (node_count <$> F).

(** [collect_paths(current_path, paths)]: the two lists the method mutates
    are passed in and handed back. The label is appended, a leaf records a
    copy of the path, any other node sends the lists through its children
    in turn, and the label is popped again. *)
Fixpoint collect_paths (self : ShapeNode) (current_path : list string)
    (paths : list (list string)) : list string * list (list string) :=
  match self with
  | ShapeNode_ l cs =>
      let current_path := current_path ++ [l] in
      let st :=
        match cs with
        | [] => (current_path, paths ++ [current_path])
        | _ =>
            (fix each (cs : list ShapeNode) (st : list string * list (list string)) :=
               match cs with
               | [] => st
               | child :: rest => each rest (collect_paths child st.1 st.2)
               end) cs (current_path, paths)
        end in
      (removelast st.1, st.2)
  end.

(** [sep.join(parts)] for a separator of any length. *)
Fixpoint join_str (sep : string) (parts : list string) : string :=
  match parts with
  | [] => EmptyString
  | [p] => p
  | p :: rest => p +:+ sep +:+ join_str sep rest
  end.

(** [ShapeNode.__str__]. *)
Definition to_str (self : ShapeNode) : string :=
  join LF (join_str " -> " <$> (collect_paths self [] []).2).

(** *** [list.sort(key=...)]

    The keys are computed first, the decorated list is sorted, and the
    sort is stable: an element moves in front of a later one only when
    the later key is strictly smaller. *)
Section Sort.
Context {K A : Type} (ltb : K → K → bool).

Fixpoint insert_keyed (x : K * A) (l : list (K * A)) : list (K * A) :=
  match l with
  | [] => [x]
  | y :: l' => if ltb y.1 x.1 then y :: insert_keyed x l' else x :: y :: l'
  end.

Definition sort_keyed (l : list (K * A)) : list (K * A) :=
  foldr insert_keyed [] l.

Definition list_sort (key : A → K) (l : list A) : list A :=
  (sort_keyed ((λ x, (key x, x)) <$> l)).*2.
End Sort.

(** [sort_children(key)]: the children are sorted by the keys of the
    children as they stand, then every child is sorted in turn. The
    decorated form below pairs each child's key with the child already
    sorted below; [sort_children_unfold] states the order of the source. *)
Fixpoint sort_children {K} (ltb : K → K → bool) (key : ShapeNode → K)
    (self : ShapeNode) : ShapeNode :=
  match self with
  | ShapeNode_ l cs =>
      ShapeNode_ l
        (sort_keyed ltb ((λ c, (key c, sort_children ltb key c)) <$> cs)).*2
  end.

(** The key of [compute_tree_edit_distance]:
    [(node.label not in [c.label for c in other.children], node.label)]. *)
Definition labels_of (nodes : list ShapeNode) : list string := label <$> nodes.

Definition sort_key (other : ShapeNode) (node : ShapeNode) : bool * string :=
  (negb (bool_decide (label node ∈ labels_of (children other))), label node).

(** [<] on [(bool, str)] tuples: the first components that differ decide. *)
Definition key_ltb (k1 k2 : bool * string) : bool :=
  if bool_decide (k1.1 = k2.1) then String.ltb k1.2 k2.2
  else negb k1.1 && k2.1.

(** *** Tree edit distance *)

(** Modelled from the spec: [zss.simple_distance] is a library outside the
    sources; the spec gives unit-cost edit distance over ordered labeled
    trees, insert cost 1, delete cost 1, relabel cost 0 if the labels are
    equal else 1. *)
Definition insert_cost (node : ShapeNode) : nat := 1.

(** Modelled from the spec: delete cost 1. *)
Definition remove_cost (node : ShapeNode) : nat := 1.

(** Modelled from the spec: relabel cost 0 if the labels are equal else 1. *)
Definition update_cost (a b : ShapeNode) : nat :=
  if bool_decide (label a = label b) then 0 else 1.

(** Modelled from the spec: the edit distance between two ordered forests,
    by cases on what happens to the leftmost roots: the left one is
    deleted (its children take its place), the right one is inserted, or
    the one is relabelled into the other. *)
Equations? forest_dist (F G : list ShapeNode) : nat
    by wf (forest_count F + forest_count G) lt :=
  forest_dist [] [] := 0;
  forest_dist (ShapeNode_ l cs :: F') [] :=
    remove_cost (ShapeNode_ l cs) + forest_dist (cs ++ F') [];
  forest_dist [] (ShapeNode_ l cs :: G') :=
    insert_cost (ShapeNode_ l cs) + forest_dist [] (cs ++ G');
  forest_dist (ShapeNode_ l1 c1 :: F') (ShapeNode_ l2 c2 :: G') :=
    (remove_cost (ShapeNode_ l1 c1)
       + forest_dist (c1 ++ F') (ShapeNode_ l2 c2 :: G'))
    `min`
    ((insert_cost (ShapeNode_ l2 c2)
        + forest_dist (ShapeNode_ l1 c1 :: F') (c2 ++ G'))
     `min`
     (update_cost (ShapeNode_ l1 c1) (ShapeNode_ l2 c2)
        + forest_dist c1 c2 + forest_dist F' G')).
Proof.
  all: unfold forest_count; rewrite ?fmap_app, ?sum_list_with_app.
  all: cbn [list_fmap fmap sum_list_with node_count]; unfold fmap, Datatypes.id; lia.
Qed.

(** Modelled from the spec: [simple_distance(A, B)]. *)
Definition simple_distance (A B : ShapeNode) : nat := forest_dist [A] [B].

(** The two trees as the two [sort_children] calls of
    [compute_tree_edit_distance] leave them: the first is sorted against
    the second as it came, the second against the first as sorted. The two
    are distinct objects, as they are in [evaluate_ted]. *)
Definition sorted_pair (tree_1 tree_2 : ShapeNode) : ShapeNode * ShapeNode :=
  let tree_1' := sort_children key_ltb (sort_key tree_2) tree_1 in
  let tree_2' := sort_children key_ltb (sort_key tree_1') tree_2 in
  (tree_1', tree_2').

Definition compute_tree_edit_distance (tree_1 tree_2 : ShapeNode) : nat :=
  simple_distance (sorted_pair tree_1 tree_2).1 (sorted_pair tree_1 tree_2).2.

(** *** The sibling ordering as the specification words it

    Every level is sorted against the children of the corresponding node
    of the other tree. The node corresponding to a child is the first
    child of the other node with the same label; a child without one is
    sorted against no labels. *)
Definition counterpart (other c : ShapeNode) : ShapeNode :=
  default (leaf (label c))
    (List.find (λ d, bool_decide (label d = label c)) (children other)).

Fixpoint spec_paired_sort (self other : ShapeNode) : ShapeNode :=
  match self with
  | ShapeNode_ l cs =>
      ShapeNode_ l
        (sort_keyed key_ltb
           ((λ c, (sort_key other c, spec_paired_sort c (counterpart other c)))
              <$> cs)).*2
  end.

(** A node of a tree: the tree itself or a node of one of its children. *)
Inductive node_of : ShapeNode → ShapeNode → Prop :=
| node_of_root t : node_of t t
| node_of_child n c t : c ∈ children t → node_of n c → node_of n t.

(** The order the key of [compute_tree_edit_distance] stands for: a node
    whose label is among the labels of the children of [other] comes before
    one whose label is not, and the labels decide between two of a kind. *)
Definition shared (other node : ShapeNode) : Prop :=
  label node ∈ labels_of (children other).

Definition before (other x y : ShapeNode) : Prop :=
  (shared other x ∧ ¬ shared other y)
  ∨ ((shared other x ↔ shared other y) ∧ String.le (label x) (label y)).

(** *** The schema as the JSON object of ShExJ

    [TC] is the type of the entries of ["expressions"]. A shape may lack
    ["expression"], and an expression may lack ["expressions"]. *)
Record Expression (TC : Type) := { expressions : option (list TC) }.
Record Shape (TC : Type) := { id : string; expression : option (Expression TC) }.
Record SchemaJ (TC : Type) := { start : option string; shapes : list (Shape TC) }.
Arguments expressions {TC} _.
Arguments id {TC} _.
Arguments expression {TC} _.
Arguments start {TC} _.
Arguments shapes {TC} _.

(** Modelled from the spec: [get_shapes_dict] of [shapespresso.metrics.utils]
    is not among the sources; the schema is a mapping from shape
    identifier to shape definition, built from the ordered sequence under
    ["shapes"], each entry keyed by its ["id"]. *)
Definition get_shapes_dict {TC} (schema : SchemaJ TC) : gmap string (Shape TC) :=
  foldl (λ d shape, <[id shape := shape]> d) ∅ (shapes schema).

(** The label helpers of [shapespresso.metrics.utils], not among the
    sources. A predicate label may be [None] (an entry that is no triple
    constraint); the other two are strings. *)
Class LabelHelpers (TC : Type) := {
  get_predicate_node_label : TC → option string;
  get_node_constraint_node_label : TC → gmap string (Shape TC) → string → string;
  get_cardinality_node_label : TC → string
}.

(** [if "expression" in s: if "expressions" in s["expression"]: ...]. *)
Definition constraints_of {TC} (s : Shape TC) : option (list TC) :=
  match expression s with
  | Some e => expressions e
  | None => None
  end.

(** *** The graph: a [networkx.DiGraph] whose nodes are labels *)

Record DiGraph := {
  nodes : gmap string (option string);
  edges : gmap (string * string) string
}.

Definition empty_graph : DiGraph := {| nodes := ∅; edges := ∅ |}.

(** [add_node(n, label=l)]: a node that exists keeps its place and has its
    attribute updated. *)
Definition add_node (n l : string) (g : DiGraph) : DiGraph :=
  {| nodes := <[n := Some l]> (nodes g); edges := edges g |}.

Definition ensure_node (n : string) (ns : gmap string (option string))
    : gmap string (option string) :=
  match ns !! n with
  | Some _ => ns
  | None => <[n := None]> ns
  end.

(** [add_edge(u, v, label=l)]: end points that are missing are created. *)
Definition add_edge (u v l : string) (g : DiGraph) : DiGraph :=
  {| nodes := ensure_node v (ensure_node u (nodes g));
     edges := <[(u, v) := l]> (edges g) |}.

Definition number_of_nodes (g : DiGraph) : nat := size (nodes g).

Section Builders.
Context {TC : Type} `{LabelHelpers TC}.

(** The body of the loop of [transform_schema_to_graph]; [add_node(None)]
    raises [ValueError]. *)
Definition graph_step (shapes : gmap string (Shape TC)) (start_shape_id : string)
    (g : DiGraph) (triple_constraint : TC) : result DiGraph :=
  match get_predicate_node_label triple_constraint with
  | None => Raise ValueError
  | Some predicate_node =>
      let g := add_node predicate_node predicate_node g in
      let g := add_edge start_shape_id predicate_node
                 (start_shape_id +:+ " " +:+ predicate_node) g in
      let node_constraint_node :=
        get_node_constraint_node_label triple_constraint shapes start_shape_id in
      let g := add_node node_constraint_node node_constraint_node g in
      let g := add_edge predicate_node node_constraint_node
                 (predicate_node +:+ " " +:+ node_constraint_node) g in
      let cardinality_node := get_cardinality_node_label triple_constraint in
      let g := add_node cardinality_node cardinality_node g in
      let g := add_edge node_constraint_node cardinality_node
                 (node_constraint_node +:+ " " +:+ cardinality_node) g in
      Ok g
  end.

Fixpoint graph_loop (shapes : gmap string (Shape TC)) (start_shape_id : string)
    (g : DiGraph) (tcs : list TC) : result DiGraph :=
  match tcs with
  | [] => Ok g
  | tc :: rest =>
      g' ←! graph_step shapes start_shape_id g tc;
      graph_loop shapes start_shape_id g' rest
  end.

Definition transform_schema_to_graph (schema : SchemaJ TC)
    : result (string * DiGraph) :=
  start_shape_id ←! match start schema with
                    | Some s => Ok s
                    | None => Raise KeyError
                    end;
  let schema_graph := add_node start_shape_id start_shape_id empty_graph in
  let shapes := get_shapes_dict schema in
  start_shape ←! getitem shapes start_shape_id;
  match constraints_of start_shape with
  | Some tcs =>
      g ←! graph_loop shapes start_shape_id schema_graph tcs;
      Ok (start_shape_id, g)
  | None => Ok (start_shape_id, schema_graph)
  end.

(** The body of the loop of [transform_schema_to_tree];
    [if not predicate_node: continue] skips [None] and the empty string. *)
Definition tree_step (shapes : gmap string (Shape TC)) (shape_id : string)
    (start_node : ShapeNode) (triple_constraint : TC) : ShapeNode :=
  match get_predicate_node_label triple_constraint with
  | None => start_node
  | Some predicate_node =>
      if truthy predicate_node then
        let node_constraint_node :=
          get_node_constraint_node_label triple_constraint shapes shape_id in
        let cardinality_node := get_cardinality_node_label triple_constraint in
        let constraint_node :=
          add_kid (leaf predicate_node)
            (add_kid (leaf node_constraint_node) (leaf cardinality_node)) in
        add_kid start_node constraint_node
      else start_node
  end.

(** [try: shapes[shape_id] except KeyError: shape_id = schema["shapes"][0]["id"]]. *)
Definition resolve_start (schema : SchemaJ TC) (shape_id : string)
    : result (string * Shape TC) :=
  let shapes_d := get_shapes_dict schema in
  match shapes_d !! shape_id with
  | Some start_shape => Ok (shape_id, start_shape)
  | None =>
      match shapes schema with
      | [] => Raise IndexError
      | first :: _ =>
          start_shape ←! getitem shapes_d (id first);
          Ok (id first, start_shape)
      end
  end.

Definition transform_schema_to_tree (schema : SchemaJ TC) (shape_id : string)
    : result ShapeNode :=
  let shapes := get_shapes_dict schema in
  resolved ←! resolve_start schema shape_id;
  let shape_id := resolved.1 in
  let start_shape := resolved.2 in
  let start_node := leaf shape_id in
  match constraints_of start_shape with
  | Some tcs => Ok (foldl (tree_step shapes shape_id) start_node tcs)
  | None => Ok start_node
  end.
End Builders.

(** An entry whose predicate label is determined: not [None] and not the
    empty string. *)
Definition determinable {TC} `{LabelHelpers TC} (tc : TC) : bool :=
  match get_predicate_node_label tc with
  | Some predicate_node => truthy predicate_node
  | None => false
  end.

(** A predicate node over a node-constraint node over a cardinality leaf. *)
Definition is_chain (c : ShapeNode) : Prop :=
  ∃ p n k, c = ShapeNode_ p [ShapeNode_ n [ShapeNode_ k []]].

(** *** The evaluator *)

(** The files and [json.loads]: a path that cannot be read raises
    [FileNotFoundError], a text that is no JSON raises [JSONDecodeError]. *)
Class Environment (TC : Type) := {
  read_text : string → option string;
  path_exists : string → bool;
  json_loads : string → option (SchemaJ TC)
}.

(** [os.path.join(directory, name)]. *)
Definition os_path_join (directory name : string) : string :=
  if startswith "/" name then name
  else if negb (truthy directory) then name
  else if startswith "/" (String.rev directory) then directory +:+ name
  else directory +:+ "/" +:+ name.

(** [sum(xs)]. *)
Definition py_sum (xs : list Q) : Q := foldl Qplus 0%Q xs.

(** [x / n] for a length [n]. *)
Definition divide (x : Q) (n : nat) : result Q :=
  if decide (n = 0) then Raise ZeroDivisionError
  else Ok (x / inject_Z (Z.of_nat n))%Q.

(** The values of a [numpy.float64], which is what [zss] returns for the
    distance: dividing one by zero gives [inf], or [nan] for zero by zero,
    with a warning and without an exception. *)
Inductive float64 := Finite (q : Q) | Infinity | NotANumber.

(** [ted / (3 * len(true_schema_tree))]. *)
Definition normalized (ted : nat) (true_schema_tree : ShapeNode) : float64 :=
  if decide (3 * len true_schema_tree = 0)
  then if decide (ted = 0) then NotANumber else Infinity
  else Finite (inject_Z (Z.of_nat ted)
               / inject_Z (Z.of_nat (3 * len true_schema_tree)))%Q.

(** [x + y] on the non-negative values. *)
Definition add64 (x y : float64) : float64 :=
  match x, y with
  | NotANumber, _ | _, NotANumber => NotANumber
  | Infinity, _ | _, Infinity => Infinity
  | Finite a, Finite b => Finite (a + b)%Q
  end.

(** [sum(xs) / len(xs)] for a list of [numpy.float64]: the sum of the empty
    list is the integer 0, and dividing it by 0 raises. *)
Definition mean64 (xs : list float64) : result float64 :=
  if decide (length xs = 0) then Raise ZeroDivisionError
  else Ok match foldl add64 (Finite 0%Q) xs with
          | Finite q => Finite (q / inject_Z (Z.of_nat (length xs)))%Q
          | other => other
          end.

(** The schema file of a class in a directory. *)
Definition shex_path (directory class_url : string) : string :=
  let class_id := List.last (split "/" class_url) EmptyString in
  os_path_join directory (class_id +:+ ".shex").

Section Evaluator.
Context {TC : Type} `{LabelHelpers TC} `{Environment TC} `{Parser.Collaborators}.

Definition shape_id_of (dataset class_label : string) : string :=
  if bool_decide (dataset = "wes")
  then concat (capitalize <$> words class_label)
  else class_label.

(** Read a schema file, convert it and build its tree. *)
Definition load_tree (path shape_id : string) : result ShapeNode :=
  shexc_text ←! match read_text path with
                | Some t => Ok t
                | None => Raise FileNotFoundError
                end;
  let shexj_text := (Parser.shexc_to_shexj shexc_text).1.1.1.1 in
  shexj_json ←! match json_loads shexj_text with
                | Some j => Ok j
                | None => Raise JSONDecodeError
                end;
  transform_schema_to_tree shexj_json shape_id.

(** The loop of [evaluate_ted] over [zip(class_urls, class_labels)]. *)
Fixpoint evaluate_loop (dataset ground_truth_dir predicted_dir : string)
    (classes : list (string * string)) (teds : list Q)
    (normalized_teds : list float64) : result (list Q * list float64) :=
  match classes with
  | [] => Ok (teds, normalized_teds)
  | (class_url, class_label) :: rest =>
      let shape_id := shape_id_of dataset class_label in
      true_schema_tree ←! load_tree (shex_path ground_truth_dir class_url) shape_id;
      let pred_shex_path := shex_path predicted_dir class_url in
      if negb (path_exists pred_shex_path)
      then evaluate_loop dataset ground_truth_dir predicted_dir rest
             teds normalized_teds
      else
        pred_schema_tree ←! load_tree pred_shex_path shape_id;
        let ted := compute_tree_edit_distance true_schema_tree pred_schema_tree in
        let normalized_ted :=
          normalized ted (sorted_pair true_schema_tree pred_schema_tree).1 in
        evaluate_loop dataset ground_truth_dir predicted_dir rest
          (teds ++ [inject_Z (Z.of_nat ted)]) (normalized_teds ++ [normalized_ted])
  end.

Definition evaluate_ted (dataset : string) (class_urls class_labels : list string)
    (ground_truth_dir predicted_dir : string) : result Q :=
  lists ←! evaluate_loop dataset ground_truth_dir predicted_dir
             (zip class_urls class_labels) [] [];
  avg_ted ←! divide (py_sum lists.1) (length lists.1);
  avg_normalized_ted ←! mean64 lists.2;
  Ok avg_ted.
End Evaluator.

End Similarity.

(** ** shexer_baseline.py *)

Module Shexer.
Import PyStr.

(** What one round of the loop hands to the [Shaper] and to [shex_graph]:
    the target class, the instantiation property and the name of the
    output file inside the folder [shexer/<dataset>]. *)
Record ShaperCall := {
  target_classes : list string;
  instantiation_property : string;
  output_file_name : string
}.

(** The property is that of [yagos], or that of Wikidata for every other
    dataset. *)
Definition instantiation_property_of (dataset : string) : string :=
  if bool_decide (dataset = "yagos")
  then "http://www.w3.org/1999/02/22-rdf-syntax-ns#type"
  else "http://www.wikidata.org/prop/direct/P31".

(** The rebinding of [target_class] at the head of the loop body. *)
Definition resolve_target_class (dataset target_class : string) : string :=
  if negb (startswith "http" target_class) then
    if bool_decide (dataset = "wes") && startswith "Q" target_class
    then "http://www.wikidata.org/entity/" +:+ target_class
    else target_class
  else target_class.

(** [target_class.split('/')[-1]]. *)
Definition class_name_of (target_class : string) : string :=
  List.last (split "/" target_class) EmptyString.

(** The calls of [shexer_baseline], one per target class, in order. *)
Definition shexer_baseline (target_classes : list string) (dataset : string)
    : list ShaperCall :=
  (λ target_class,
     let target_class := resolve_target_class dataset target_class in
     {| target_classes := [target_class];
        instantiation_property := instantiation_property_of dataset;
        output_file_name := class_name_of target_class +:+ ".shex" |})
  <$> target_classes.

End Shexer.

(** ** rdfshapeinduction/preprocess.py *)

Module Preprocess.
Import PyStr Similarity.

(** The keys [load_cardinalities] reads of an entry of ["expressions"]:
    ["predicate"], which must be there, and ["min"] and ["max"], which
    default to 1. *)
Class CardinalityFields (TC : Type) := {
  predicate_of : TC → option string;
  min_of : TC → option Z;
  max_of : TC → option Z
}.

(** The dict with the keys ["min"] and ["max"]. *)
Record Cardinality := { min : Z; max : Z }.

(** One entry of a property list, with the keys ["predicate"] and
    ["count"]. *)
Record PropertyInfo := { predicate : string; count : Z }.

(** A row of the metadata: class, property, minimum and maximum. *)
Record MetadataRow := {
  row_class : string;
  row_property : string;
  row_min : Z;
  row_max : Z
}.

(** What [preprocess_data] reads from outside: the property lists of the
    dataset file ([None] when the file cannot be read), the property query
    of [shapespresso.pipeline], the rows the endpoint answers to the two
    queries of [extract_raw_cardinality], [int] on a string, and the
    feature vector of [profiling.feature_engineering]. *)
Class Sources (Features : Type) := {
  wes_property_list : option (gmap string (list PropertyInfo));
  query_property_list : string → string → list PropertyInfo;
  non_zero_rows : string → string → string → list (gmap string string);
  zero_rows : string → string → string → list (gmap string string);
  int_of_str : string → option Z;
  feature_engineering : list Z → Features
}.

(** The three lists [preprocess_data] appends to. *)
Record Collected (Features : Type) := {
  inputs : list Features;
  outputs : list (Z * Z);
  metadata : list MetadataRow
}.
Arguments inputs {Features} _.
Arguments outputs {Features} _.
Arguments metadata {Features} _.

Section Preprocess.
Context {TC Features : Type} `{CardinalityFields TC} `{Environment TC}
  `{Parser.Collaborators} `{Sources Features}.

(** The body of the loop of [load_cardinalities]. *)
Definition cardinalities_step (cardinalities : gmap string Cardinality)
    (expression : TC) : result (gmap string Cardinality) :=
  match predicate_of expression with
  | Some p =>
      Ok (<[p := {| min := default 1%Z (min_of expression);
                    max := default 1%Z (max_of expression) |}]> cardinalities)
  | None => Raise KeyError
  end.

Fixpoint cardinalities_loop (cardinalities : gmap string Cardinality)
    (start_shape_expressions : list TC) : result (gmap string Cardinality) :=
  match start_shape_expressions with
  | [] => Ok cardinalities
  | expression :: rest =>
      cardinalities ←! cardinalities_step cardinalities expression;
      cardinalities_loop cardinalities rest
  end.

(** [shex_json["shapes"][0]["expression"]["expressions"]]. *)
Definition start_shape_expressions_of (shex_json : SchemaJ TC) : result (list TC) :=
  match shapes shex_json with
  | [] => Raise IndexError
  | first :: _ =>
      match expression first with
      | None => Raise KeyError
      | Some e =>
          match expressions e with
          | None => Raise KeyError
          | Some l => Ok l
          end
      end
  end.

Definition load_cardinalities (shex_path : string) : result (gmap string Cardinality) :=
  shexc_text ←! match read_text shex_path with
                | Some t => Ok t
                | None => Raise FileNotFoundError
                end;
  let shexj_text := (Parser.shexc_to_shexj shexc_text).1.1.1.1 in
  shex_json ←! match json_loads shexj_text with
               | Some j => Ok j
               | None => Raise JSONDecodeError
               end;
  start_shape_expressions ←! start_shape_expressions_of shex_json;
  cardinalities_loop ∅ start_shape_expressions.

(** [int(item['count'])]. *)
Definition count_of (item : gmap string string) : result Z :=
  text ←! getitem item "count";
  match int_of_str text with
  | Some n => Ok n
  | None => Raise ValueError
  end.

Fixpoint counts_of (items : list (gmap string string)) : result (list Z) :=
  match items with
  | [] => Ok []
  | item :: rest =>
      n ←! count_of item;
      ns ←! counts_of rest;
      Ok (n :: ns)
  end.

(** [extract_raw_cardinality]: the counts of the instances that have the
    property, behind one zero for each instance that has none;
    [[0] * n] is empty for a negative [n]. *)
Definition extract_raw_cardinality (class_uri property_uri instance_of_uri : string)
    : result (list Z) :=
  raw_cardinalities ←! counts_of (non_zero_rows class_uri property_uri instance_of_uri);
  let zero_cardinalities := zero_rows class_uri property_uri instance_of_uri in
  first ←! match zero_cardinalities with
           | [] => Raise IndexError
           | item :: _ => Ok item
           end;
  zero_cardinalities ←! count_of first;
  Ok (replicate (Z.to_nat zero_cardinalities) 0%Z ++ raw_cardinalities).

(** The body of the loop over the properties of one class. *)
Definition property_step (dataset instance_of_uri class_uri : string)
    (ground_truth_cardinalities : gmap string Cardinality)
    (acc : Collected Features) (property_info : PropertyInfo)
    : result (Collected Features) :=
  if bool_decide (dataset = "wes") && bool_decide (count property_info < 5)%Z
  then Ok acc
  else
    let property_uri := predicate property_info in
    let metadata :=
      metadata acc ++
        [ match ground_truth_cardinalities !! property_uri with
          | Some c => {| row_class := class_uri; row_property := property_uri;
                         row_min := min c; row_max := max c |}
          | None => {| row_class := class_uri; row_property := property_uri;
                       row_min := 0; row_max := 0 |}
          end ] in
    raw_cardinalities ←! extract_raw_cardinality class_uri property_uri instance_of_uri;
    let features := feature_engineering raw_cardinalities in
    let inputs := inputs acc ++ [features] in
    let outputs :=
      outputs acc ++
        [ match ground_truth_cardinalities !! property_uri with
          | Some c => (min c, max c)
          | None => (0%Z, 0%Z)
          end ] in
    Ok {| inputs := inputs; outputs := outputs; metadata := metadata |}.

Fixpoint property_loop (dataset instance_of_uri class_uri : string)
    (ground_truth_cardinalities : gmap string Cardinality)
    (acc : Collected Features) (properties : list PropertyInfo)
    : result (Collected Features) :=
  match properties with
  | [] => Ok acc
  | property_info :: rest =>
      acc ←! property_step dataset instance_of_uri class_uri
               ground_truth_cardinalities acc property_info;
      property_loop dataset instance_of_uri class_uri ground_truth_cardinalities acc rest
  end.

(** The body of the loop over the classes. *)
Definition class_step (dataset instance_of_uri : string)
    (property_lists : gmap string (list PropertyInfo))
    (acc : Collected Features) (class_uri : string)
    : result (Collected Features) :=
  let class_id := List.last (split "/" class_uri) EmptyString in
  let true_shex_path := "../../dataset/" +:+ dataset +:+ "/" +:+ class_id +:+ ".shex" in
  ground_truth_cardinalities ←! load_cardinalities true_shex_path;
  properties ←! (if bool_decide (dataset = "wes")
                 then getitem property_lists class_uri
                 else Ok (query_property_list class_uri dataset));
  property_loop dataset instance_of_uri class_uri ground_truth_cardinalities
    acc properties.

Fixpoint class_loop (dataset instance_of_uri : string)
    (property_lists : gmap string (list PropertyInfo))
    (acc : Collected Features) (class_uris : list string)
    : result (Collected Features) :=
  match class_uris with
  | [] => Ok acc
  | class_uri :: rest =>
      acc ←! class_step dataset instance_of_uri property_lists acc class_uri;
      class_loop dataset instance_of_uri property_lists acc rest
  end.

(** [preprocess_data], up to the lists it returns; the two files it
    writes afterwards hold the same lists. The property lists are read
    for [wes] only, and before the first class. *)
Definition preprocess_data (class_uris : list string) (dataset instance_of_uri : string)
    : result (Collected Features) :=
  property_lists ←! (if bool_decide (dataset = "wes")
                     then match wes_property_list with
                          | Some d => Ok d
                          | None => Raise FileNotFoundError
                          end
                     else Ok ∅);
  class_loop dataset instance_of_uri property_lists
    {| inputs := []; outputs := []; metadata := [] |} class_uris.
End Preprocess.

End Preprocess.

(** ** Concrete collaborators for the examples *)

Module Toy.
Import PyStr Parser.

(** A grammar engine that rejects every line holding an exclamation mark,
    reporting its number, and accepts a text without such a line. *)
Fixpoint flagged_from (i : Z) (lines : list string) : list error :=
  match lines with
  | [] => []
  | l :: rest =>
      if contains_char "!" l
      then {| message := "mismatched input"; line := i |} :: flagged_from (i + 1) rest
      else flagged_from (i + 1) rest
  end.

Definition lenient_evaluator (text : string) : option string * list error :=
  match flagged_from 1 (split LF text) with
  | [] => (Some text, [])
  | errs => (None, errs)
  end.

(** A grammar engine that rejects every text at its first line. *)
Definition strict_evaluator (text : string) : option string * list error :=
  (None, [ {| message := "no viable alternative"; line := 1 |} ]).

Definition collaborators (engine : string → option string * list error)
    : Collaborators :=
  {| Schema := string;
     NamespaceManager := list (string * string);
     ShExEvaluator := engine;
     as_json := λ schema, schema;
     extract_prefix_declarations := λ _, [];
     bind_all := λ bindings, bindings |}.

(** Entries of ["expressions"] that carry their three labels, and label
    helpers that read them off. *)
Record labelled := {
  predicate : option string;
  valueExpr : string;
  cardinality : string
}.

Definition label_helpers : Similarity.LabelHelpers labelled :=
  {| Similarity.get_predicate_node_label := predicate;
     Similarity.get_node_constraint_node_label := λ tc _ _, valueExpr tc;
     Similarity.get_cardinality_node_label := cardinality |}.

Definition one_shape (name : string) (tcs : list labelled)
    : Similarity.SchemaJ labelled :=
  {| Similarity.start := Some name;
     Similarity.shapes :=
       [ {| Similarity.id := name;
            Similarity.expression :=
              Some {| Similarity.expressions := Some tcs |} |} ] |}.

(** The ground truth and the prediction of the scenario: one constraint on
    [knows], any number of values against exactly one. *)
Definition person_true : Similarity.SchemaJ labelled :=
  one_shape "Person"
    [ {| predicate := Some "knows"; valueExpr := "IRI"; cardinality := "*" |} ].


(** A ground-truth directory with the schema of one class and a predicted
    directory without it. Every text that parses loads as [person_true]. *)
Definition ground_truth_only : Similarity.Environment labelled :=
  {| Similarity.read_text := λ path,
       if bool_decide (path = "gt/Q5.shex") then Some "<Person> { knows IRI * }"
       else None;
     Similarity.path_exists := λ path, bool_decide (path = "gt/Q5.shex");
     Similarity.json_loads := λ text,
       if truthy text then Some person_true else None |}.

End Toy.

(** * Properties *)

Import PyStr Parser.

Example split_ex : PyStr.split PyStr.LF "a
b
" = ["a"; "b"; EmptyString].
Proof. reflexivity. Qed.

Example splitlines_ex : PyStr.splitlines "a
b
" = ["a"; "b"].
Proof. reflexivity. Qed.

Example rstrip_ex : PyStr.rstrip_by PyStr.space_or_semicolon "ex:p . ; ;" = "ex:p .".
Proof. reflexivity. Qed.

Example words_ex : PyStr.words "  film  award " = ["film"; "award"].
Proof. reflexivity. Qed.

Example splitlines_blank_ex : splitlines "a

b
" = ["a"; EmptyString; "b"].
Proof. reflexivity. Qed.

Example splitlines_cr_ex :
  splitlines (String "a" (String CR (String LF (String "b" (String CR EmptyString)))))
  = ["a"; "b"].
Proof. reflexivity. Qed.

Example split_empty_ex : split LF EmptyString = [EmptyString].
Proof. reflexivity. Qed.

Example capitalize_ex : capitalize "hello wORLD" = "Hello world".
Proof. reflexivity. Qed.

Example match_base_ex : match_base "BASE  <http://a/> <b>" = Some "http://a/> <b".
Proof. reflexivity. Qed.

Example match_base_empty_ex : match_base "base <>" = None.
Proof. reflexivity. Qed.

Example comment_parser_helper_ex :
  comment_parser_helper "# people
PREFIX ex: <http://ex.org/>

<S> {
  # who they know
  ex:knows IRI * ;  # any number
}"
  = [ {| c_comment := "# people"; c_type := general;
         c_location := LocStr "PREFIX ex: <http://ex.org/>" |};
      {| c_comment := "  # who they know"; c_type := constraint;
         c_location := LocStr "  ex:knows IRI * ;  # any number" |};
      {| c_comment := "# any number"; c_type := constraint;
         c_location := LocStr "  ex:knows IRI * ;" |} ].
Proof. reflexivity. Qed.

Example remove_lines_ex : remove_lines "a
b
c
" [2%Z; 2%Z] = "a
c".
Proof. reflexivity. Qed.

(** ** The comment reinserter *)


Lemma insert_at_anchor_miss c lines :
  (∀ x, x ∈ lines → anchor_matches (c_location c) x = false) →
  insert_at_anchor c lines = lines.
Proof.
  induction lines as [|l lines IH]; intros Hno; simpl; [done|].
  rewrite (Hno l) by left. f_equal. apply IH. intros x Hx. apply Hno. by right.
Qed.

Lemma insert_at_anchor_hit c pre l post :
  (∀ x, x ∈ pre → anchor_matches (c_location c) x = false) →
  anchor_matches (c_location c) l = true →
  insert_at_anchor c (pre ++ l :: post)
  = pre ++ match c_type c with
           | general => c_comment c :: l :: post
           | constraint => (rstrip l +:+ "  " +:+ lstrip (c_comment c)) :: post
           end.
Proof.
  intros Hpre Hl. induction pre as [|p pre IH]; simpl.
  - rewrite Hl. by destruct (c_type c).
  - rewrite (Hpre p) by left. f_equal. apply IH. intros x Hx. apply Hpre. by right.
Qed.

Lemma anchor_matches_str anchor x :
  anchor_matches (LocStr anchor) x = true
  ↔ x = anchor ∨ rstrip_by space_or_semicolon x = anchor.
Proof.
  unfold anchor_matches. rewrite orb_true_iff, !bool_decide_eq_true. tauto.
Qed.

Lemma anchor_matches_str_false anchor x :
  anchor_matches (LocStr anchor) x = false
  ↔ x ≠ anchor ∧ rstrip_by space_or_semicolon x ≠ anchor.
Proof.
  unfold anchor_matches. rewrite orb_false_iff, !bool_decide_eq_false. tauto.
Qed.


Definition about_S : CommentRecord :=
  {| c_comment := "# people"; c_type := general; c_location := LocStr "<S> {" |}.
Definition about_p : CommentRecord :=
  {| c_comment := "  # at least one"; c_type := constraint;
     c_location := LocStr "  ex:p ." |}.


(** ** The converter *)

(** [remove_lines] is the comprehension of the source: the lines paired with
    their numbers from [i] on, without the pairs whose number is removed. *)
Lemma remove_lines_from_enumerate i lines removed :
  remove_lines_from i lines removed
  = (filter (λ p, p.1 ∉ removed) (zip (seqZ i (Z.of_nat (length lines))) lines)).*2.
Proof.
  revert i. induction lines as [|l lines IH]; intros i; [done|].
  cbn [remove_lines_from length]. rewrite Nat2Z.inj_succ, seqZ_cons by lia.
  cbn [zip zip_with]. rewrite filter_cons. cbn [fst].
  replace (Z.succ i) with (i + 1)%Z by lia.
  rewrite Z.pred_succ.
  case_bool_decide; rewrite IH.
  - by rewrite decide_False by tauto.
  - by rewrite decide_True by done.
Qed.

(** Only membership in the removed numbers matters, so the order in which
    [list(set(...))] lists them does not. *)
Lemma remove_lines_membership text removed removed' :
  (∀ n, n ∈ removed ↔ n ∈ removed') →
  remove_lines text removed = remove_lines text removed'.
Proof.
  intros Hsame. unfold remove_lines. f_equal.
  generalize 1%Z. induction (splitlines text) as [|l ls IH]; intros i; [done|].
  simpl. rewrite IH.
  destruct (bool_decide_reflect (i ∈ removed)) as [Hi|Hi],
    (bool_decide_reflect (i ∈ removed')) as [Hi'|Hi']; try done; exfalso.
  - by apply Hi', Hsame.
  - by apply Hi, Hsame.
Qed.

Section ConverterProps.
Context `{Collaborators}.

(** C4. When the first engine run gives no schema and some errors, the
    distinct error lines are removed and the engine runs once more, on the
    reduced text and on nothing else. A schema from that run is the one
    converted. Without one the converter logs the failure and returns the
    failure value, which holds no schema text, no base, no namespaces and
    no comments. *)
Theorem shexc_to_shexj_retries_once (shexc_text : string) (e : error)
    (errors : list error) :
  ShExEvaluator shexc_text = (None, e :: errors) →
  let error_lines := remove_dups (line <$> e :: errors) in
  let reduced := remove_lines shexc_text error_lines in
  NoDup error_lines
  ∧ (∀ n, n ∈ error_lines ↔ ∃ er, er ∈ e :: errors ∧ line er = n)
  ∧ reduced
    = join LF (filter (λ p, p.1 ∉ error_lines)
                 (zip (seqZ 1 (Z.of_nat (length (splitlines shexc_text))))
                    (splitlines shexc_text))).*2
  ∧ match (ShExEvaluator reduced).1 with
    | Some schema' =>
        (shexc_to_shexj shexc_text).1.1.1.1 = as_json schema'
        ∧ (shexc_to_shexj shexc_text).2
          = [Evaluated shexc_text; Evaluated reduced]
    | None =>
        shexc_to_shexj shexc_text
        = ((EmptyString, None, None, None),
           [Evaluated shexc_text; Evaluated reduced;
            LoggedError "Unable to parse the file!"])
    end.
Proof.
  intros Hfirst error_lines reduced. repeat split.
  - apply NoDup_remove_dups.
  - intros Hn. apply elem_of_remove_dups, list_elem_of_fmap in Hn as (er & -> & Her).
    by exists er.
  - intros (er & Her & <-). apply elem_of_remove_dups, list_elem_of_fmap. by exists er.
  - unfold reduced, remove_lines. by rewrite remove_lines_from_enumerate.
  - unfold shexc_to_shexj. rewrite Hfirst. cbn zeta.
    fold error_lines. fold reduced. by destruct (ShExEvaluator reduced).1.
Qed.


(** When the first run gives a schema the same three are read from the
    text as it was given. *)
Lemma shexc_to_shexj_first_run (shexc_text : string) (schema : Schema)
    (errors : list error) :
  ShExEvaluator shexc_text = (Some schema, errors) →
  shexc_to_shexj shexc_text
  = ((as_json schema,
      base_uri_parser_helper shexc_text,
      Some (namespaces_parser_helper shexc_text),
      Some (comment_parser_helper shexc_text)),
     [Evaluated shexc_text]).
Proof. intros Hfirst. unfold shexc_to_shexj. by rewrite Hfirst. Qed.

End ConverterProps.

(** A schema whose base declaration and whose one constraint are both
    rejected by the lenient engine. *)
Definition broken_text : string :=
  "BASE <http://ex.org/!>
<S> {
  ex:p !!! ;  # broken
}".


Definition broken_reduced : string :=
  "<S> {
}".

Lemma shexc_to_shexj_retries_once_witness :
  (shexc_to_shexj (H := Toy.collaborators Toy.lenient_evaluator) broken_text).2
  = [Evaluated broken_text; Evaluated broken_reduced]
  ∧ shexc_to_shexj (H := Toy.collaborators Toy.strict_evaluator) broken_text
    = ((EmptyString, None, None, None),
       [Evaluated broken_text;
        Evaluated "<S> {
  ex:p !!! ;  # broken
}";
        LoggedError "Unable to parse the file!"]).
Proof.
  split.
  - assert (ShExEvaluator (Collaborators := Toy.collaborators Toy.lenient_evaluator)
              broken_text
            = (None, {| message := "mismatched input"; line := 1 |}
                       :: [ {| message := "mismatched input"; line := 3 |} ]))
      as Hfirst by (vm_compute; reflexivity).
    pose proof (shexc_to_shexj_retries_once _ _ _ Hfirst) as (_ & _ & _ & Hretry).
    vm_compute in Hretry. vm_compute. exact (proj2 Hretry).
  - assert (ShExEvaluator (Collaborators := Toy.collaborators Toy.strict_evaluator)
              broken_text
            = (None, [ {| message := "no viable alternative"; line := 1 |} ]))
      as Hfirst by (vm_compute; reflexivity).
    pose proof (shexc_to_shexj_retries_once _ _ _ Hfirst) as (_ & _ & _ & Hretry).
    vm_compute in Hretry. vm_compute. exact Hretry.
Defined.



(** ** Trees and the sibling ordering *)

Import Similarity.

Lemma ShapeNode_ind (P : ShapeNode → Prop) :
  (∀ l cs, Forall P cs → P (ShapeNode_ l cs)) → ∀ t, P t.
Proof.
  intros Hnode. fix IH 1. intros [l cs]. apply Hnode.
  revert cs. fix IHcs 1. intros [|c cs]; constructor; [apply IH | apply IHcs].
Qed.

Example os_path_join_ex :
  os_path_join "gt" "Q5.shex" = "gt/Q5.shex"
  ∧ os_path_join "gt/" "Q5.shex" = "gt/Q5.shex"
  ∧ os_path_join EmptyString "Q5.shex" = "Q5.shex".
Proof. repeat split. Qed.

Example shape_id_of_ex :
  shex_path "pred" "http://www.wikidata.org/entity/Q5" = "pred/Q5.shex".
Proof. reflexivity. Qed.

Example key_ltb_ex :
  key_ltb (false, "z") (true, "a") = true ∧ key_ltb (true, "a") (true, "b") = true
  ∧ key_ltb (true, "a") (false, "z") = false ∧ key_ltb (true, "B") (true, "_") = true.
Proof. repeat split. Qed.

Example list_sort_stable_ex :
  list_sort Nat.ltb fst [(2, "a"); (1, "b"); (2, "c"); (1, "d")]
  = [(1, "b"); (1, "d"); (2, "a"); (2, "c")].
Proof. reflexivity. Qed.

Section SortProps.
Context {K A : Type} (ltb : K → K → bool).

Lemma insert_keyed_perm (x : K * A) l : insert_keyed ltb x l ≡ₚ x :: l.
Proof.
  induction l as [|y l IH]; simpl; [done|].
  destruct (ltb y.1 x.1); [|done]. rewrite IH. apply Permutation_swap.
Qed.

Lemma sort_keyed_cons (x : K * A) l :
  sort_keyed ltb (x :: l) = insert_keyed ltb x (sort_keyed ltb l).
Proof. reflexivity. Qed.

Lemma sort_keyed_perm (l : list (K * A)) : sort_keyed ltb l ≡ₚ l.
Proof.
  induction l as [|x l IH]; [done|].
  by rewrite sort_keyed_cons, insert_keyed_perm, IH.
Qed.

Lemma list_sort_perm (key : A → K) l : list_sort ltb key l ≡ₚ l.
Proof.
  unfold list_sort. rewrite sort_keyed_perm, <- list_fmap_compose.
  by rewrite list_fmap_id.
Qed.

(** Sorting looks at the keys only: what they are paired with may be
    mapped before or after. *)
Lemma insert_keyed_map {B} (g : A → B) (x : K * A) l :
  (λ p : K * A, (p.1, g p.2)) <$> insert_keyed ltb x l
  = insert_keyed ltb (x.1, g x.2) ((λ p : K * A, (p.1, g p.2)) <$> l).
Proof.
  induction l as [|y l IH]; [done|].
  rewrite fmap_cons. cbn [insert_keyed fst].
  destruct (ltb y.1 x.1); [by rewrite fmap_cons, IH|done].
Qed.

Lemma sort_keyed_map {B} (g : A → B) (l : list (K * A)) :
  (λ p : K * A, (p.1, g p.2)) <$> sort_keyed ltb l
  = sort_keyed ltb ((λ p : K * A, (p.1, g p.2)) <$> l).
Proof.
  induction l as [|x l IH]; [done|].
  by rewrite fmap_cons, !sort_keyed_cons, insert_keyed_map, IH.
Qed.

Lemma sort_decorated {B} (key : A → K) (g : A → B) (l : list A) :
  (sort_keyed ltb ((λ c, (key c, g c)) <$> l)).*2
  = g <$> list_sort ltb key l.
Proof.
  unfold list_sort.
  replace ((λ c, (key c, g c)) <$> l)
    with ((λ p : K * A, (p.1, g p.2)) <$> ((λ x, (key x, x)) <$> l)).
  - rewrite <- sort_keyed_map. rewrite <- !list_fmap_compose.
    by apply list_fmap_ext.
  - rewrite <- list_fmap_compose. by apply list_fmap_ext.
Qed.

(** Two keys that agree on the elements sort alike. *)
Lemma list_sort_ext (key key' : A → K) l :
  (∀ x, x ∈ l → key x = key' x) → list_sort ltb key l = list_sort ltb key' l.
Proof.
  intros Hext. unfold list_sort. do 2 f_equal.
  apply list_fmap_ext. intros i x Hx.
  f_equal. apply Hext. by eapply list_elem_of_lookup_2.
Qed.

(** With a strict order on the keys that is asymmetric, and whose
    complement is transitive, the sorted list ascends. *)
Context (asym : ∀ a b, ltb a b = true → ltb b a = false).
Context (trans : ∀ a b c, ltb b a = false → ltb c b = false → ltb c a = false).

Definition keys_le (x y : K * A) : Prop := ltb y.1 x.1 = false.

Lemma insert_keyed_sorted (x : K * A) l :
  StronglySorted keys_le l → StronglySorted keys_le (insert_keyed ltb x l).
Proof.
  induction 1 as [|y l Hl IH Hy]; simpl; [repeat constructor|].
  destruct (ltb y.1 x.1) eqn:E.
  - constructor; [done|]. rewrite insert_keyed_perm. constructor; [|done].
    unfold keys_le. by apply asym.
  - constructor; [by constructor|]. constructor; [done|].
    eapply Forall_impl; [exact Hy|]. intros z Hz. unfold keys_le in *. eauto.
Qed.

Lemma sort_keyed_sorted (l : list (K * A)) : StronglySorted keys_le (sort_keyed ltb l).
Proof.
  induction l as [|x l IH]; [constructor|].
  rewrite sort_keyed_cons. by apply insert_keyed_sorted.
Qed.

Lemma sort_keyed_keys (key : A → K) (l : list A) :
  Forall (λ p, p.1 = key p.2) (sort_keyed ltb ((λ x, (key x, x)) <$> l)).
Proof.
  rewrite sort_keyed_perm. apply Forall_fmap.
  by apply Forall_forall.
Qed.

Lemma list_sort_sorted (key : A → K) (l : list A) :
  StronglySorted (λ x y, ltb (key y) (key x) = false) (list_sort ltb key l).
Proof.
  unfold list_sort.
  pose proof (sort_keyed_sorted ((λ x, (key x, x)) <$> l)) as Hs.
  pose proof (sort_keyed_keys key l) as Hk.
  induction Hs as [|p ps Hps IH Hp]; simpl; [constructor|].
  apply Forall_cons in Hk as [Hkp Hk]. constructor; [by apply IH|].
  apply Forall_fmap.
  rewrite Forall_forall in Hp, Hk. apply Forall_forall. intros q Hq. simpl.
  specialize (Hp q Hq). unfold keys_le in Hp. by rewrite <- Hkp, <- (Hk q Hq).
Qed.

End SortProps.

Lemma string_ltb_le a b : String.ltb a b = false ↔ String.le b a.
Proof.
  unfold String.le, String.ltb, String.leb. rewrite (String.compare_antisym a b).
  destruct (String.compare b a); simpl; split; done.
Qed.

(** What the tuple comparison decides. *)
Lemma key_ltb_false (k1 k2 : bool * string) :
  key_ltb k2 k1 = false
  ↔ (k1.1 = false ∧ k2.1 = true) ∨ (k1.1 = k2.1 ∧ String.le k1.2 k2.2).
Proof.
  unfold key_ltb. destruct k1 as [b1 s1], k2 as [b2 s2]; simpl.
  case_bool_decide as Hb.
  - subst. rewrite string_ltb_le. split; [by right|].
    intros [[-> [=]]|[_ ?]]; done.
  - destruct b1, b2; simpl; try done; split; try done; try (by left).
    all: intros [[? ?]|[? _]]; done.
Qed.

Lemma key_ltb_asym a b : key_ltb a b = true → key_ltb b a = false.
Proof.
  intros Hab. apply key_ltb_false.
  assert (¬ ((b.1 = false ∧ a.1 = true) ∨ (b.1 = a.1 ∧ String.le b.2 a.2))) as Hn.
  { rewrite <- key_ltb_false. congruence. }
  destruct a as [[] s1], b as [[] s2]; simpl in *.
  - right. split; [done|]. destruct (total String.le s1 s2); [done|]. tauto.
  - tauto.
  - by left.
  - right. split; [done|]. destruct (total String.le s1 s2); [done|]. tauto.
Qed.

Lemma key_ltb_trans a b c :
  key_ltb b a = false → key_ltb c b = false → key_ltb c a = false.
Proof.
  rewrite !key_ltb_false.
  intros [[Ha Hb]|[Hab Hsab]] [[Hb' Hc]|[Hbc Hsbc]].
  - congruence.
  - left. split; congruence.
  - left. split; congruence.
  - right. split; [congruence|]. by etrans.
Qed.

Lemma sort_key_before other x y :
  key_ltb (sort_key other y) (sort_key other x) = false ↔ before other x y.
Proof.
  rewrite key_ltb_false. unfold sort_key, before, shared. simpl.
  destruct (bool_decide_reflect (label x ∈ labels_of (children other))),
    (bool_decide_reflect (label y ∈ labels_of (children other))); simpl;
    intuition (try done; try congruence).
Qed.

(** [sort_children] in the order of the source: sort the children, then
    sort below each of them with the same key. *)
Lemma sort_children_unfold {K} (ltb : K → K → bool) key l cs :
  sort_children ltb key (ShapeNode_ l cs)
  = ShapeNode_ l (sort_children ltb key <$> list_sort ltb key cs).
Proof.
  cbn [sort_children]. f_equal. apply sort_decorated.
Qed.

Lemma label_sort_children {K} (ltb : K → K → bool) key t :
  label (sort_children ltb key t) = label t.
Proof. by destruct t. Qed.

Lemma len_sort_children {K} (ltb : K → K → bool) key t :
  len (sort_children ltb key t) = len t.
Proof.
  destruct t as [l cs]. rewrite sort_children_unfold. unfold len. simpl.
  by rewrite length_fmap, list_sort_perm.
Qed.

Lemma labels_sort_children {K} (ltb : K → K → bool) key t :
  labels_of (children (sort_children ltb key t)) ≡ₚ labels_of (children t).
Proof.
  destruct t as [l cs]. rewrite sort_children_unfold. unfold labels_of. simpl.
  rewrite <- list_fmap_compose.
  rewrite (list_fmap_ext _ label) by (intros; apply label_sort_children).
  by rewrite list_sort_perm.
Qed.

Lemma sort_children_ext {K} (ltb : K → K → bool) key key' t :
  (∀ x, key x = key' x) → sort_children ltb key t = sort_children ltb key' t.
Proof.
  intros Hext. induction t as [l cs IH] using ShapeNode_ind.
  rewrite !sort_children_unfold. f_equal.
  rewrite (list_sort_ext ltb key key') by done.
  apply list_fmap_ext. intros i c Hc.
  rewrite Forall_forall in IH. apply IH.
  rewrite <- (list_sort_perm ltb key' cs). by eapply list_elem_of_lookup_2.
Qed.

(** A tree sorted against [t] and one sorted against [t] with its children
    reordered are the same. *)
Lemma sort_key_sorted {K} (ltb : K → K → bool) key t x :
  sort_key (sort_children ltb key t) x = sort_key t x.
Proof.
  unfold sort_key. f_equal. f_equal. apply bool_decide_ext.
  by rewrite labels_sort_children.
Qed.

Lemma sorted_pair_eq tree_1 tree_2 :
  sorted_pair tree_1 tree_2
  = (sort_children key_ltb (sort_key tree_2) tree_1,
     sort_children key_ltb (sort_key tree_1) tree_2).
Proof.
  unfold sorted_pair. f_equal. apply sort_children_ext. apply sort_key_sorted.
Qed.

Lemma sort_children_levels other t n :
  node_of n (sort_children key_ltb (sort_key other) t) →
  StronglySorted (before other) (children n).
Proof.
  revert n. induction t as [l cs IH] using ShapeNode_ind. intros n.
  rewrite sort_children_unfold. inversion 1 as [|? c ? Hc Hn]; subst; simpl in *.
  - eapply StronglySorted_fmap;
      [|apply (list_sort_sorted key_ltb key_ltb_asym key_ltb_trans)].
    intros x y Hxy. simpl in Hxy. apply sort_key_before in Hxy.
    unfold before, shared in *. by rewrite !label_sort_children.
  - apply list_elem_of_fmap in Hc as (c0 & -> & Hc0).
    rewrite list_sort_perm in Hc0. rewrite Forall_forall in IH. by apply (IH c0).
Qed.

(** On a tree as the builder makes it, chains under the root, the sort
    reorders the children of the root and nothing else. *)
Lemma sort_children_chains {K} (ltb : K → K → bool) key l cs :
  Forall is_chain cs →
  sort_children ltb key (ShapeNode_ l cs) = ShapeNode_ l (list_sort ltb key cs).
Proof.
  intros Hchains. rewrite sort_children_unfold. f_equal.
  rewrite <- (list_fmap_id (list_sort ltb key cs)) at 2.
  apply list_fmap_ext. intros i c Hc.
  assert (is_chain c) as (p & n & k & ->); [|done].
  rewrite Forall_forall in Hchains. apply Hchains.
  rewrite <- (list_sort_perm ltb key cs). by eapply list_elem_of_lookup_2.
Qed.

(** C2, as the code has it. After the two sorts the children of every
    node, at every depth, ascend in one and the same order: labels found
    among the children of the root of the other tree first, then by label. *)
Theorem sort_children_same_key_at_every_level (tree_1 tree_2 : ShapeNode) :
  (∀ n, node_of n (sorted_pair tree_1 tree_2).1 →
        StronglySorted (before tree_2) (children n))
  ∧ (∀ n, node_of n (sorted_pair tree_1 tree_2).2 →
          StronglySorted (before tree_1) (children n))
  ∧ (∀ l cs,
       tree_1 = ShapeNode_ l cs →
       (sorted_pair tree_1 tree_2).1
       = ShapeNode_ l
           (sort_children key_ltb (sort_key tree_2)
              <$> list_sort key_ltb (sort_key tree_2) cs)).
Proof.
  rewrite sorted_pair_eq. simpl. repeat split.
  - apply sort_children_levels.
  - apply sort_children_levels.
  - intros l cs ->. apply sort_children_unfold.
Qed.

Definition paired_left : ShapeNode :=
  ShapeNode_ "S" [ShapeNode_ "ex:p" [leaf "x"; leaf "y"]].
Definition paired_right : ShapeNode :=
  ShapeNode_ "S" [ShapeNode_ "ex:p" [leaf "y"]].

Lemma sort_children_same_key_at_every_level_witness :
  StronglySorted (before paired_right) [leaf "x"; leaf "y"].
Proof.
  pose proof (sort_children_same_key_at_every_level paired_left paired_right)
    as (Hleft & _ & _).
  apply (Hleft (ShapeNode_ "ex:p" [leaf "x"; leaf "y"])).
  apply (node_of_child _ (ShapeNode_ "ex:p" [leaf "x"; leaf "y"])).
  - vm_compute. left.
  - apply node_of_root.
Defined.

(** C2 as stated fails: below the root the code orders [x] before [y]
    although only [y] is a label of the corresponding node of the other
    tree, where the pairing of the specification puts [y] first. *)
Lemma sort_children_pairing_counterexample :
  (sorted_pair paired_left paired_right).1
  = ShapeNode_ "S" [ShapeNode_ "ex:p" [leaf "x"; leaf "y"]]
  ∧ spec_paired_sort paired_left paired_right
    = ShapeNode_ "S" [ShapeNode_ "ex:p" [leaf "y"; leaf "x"]]
  ∧ (sorted_pair paired_left paired_right).1
    ≠ spec_paired_sort paired_left paired_right.
Proof.
  split; [|split]; [by vm_compute..|]. vm_compute. discriminate.
Qed.

(** ** Tree edit distance *)

Lemma update_cost_sym a b : update_cost a b = update_cost b a.
Proof.
  unfold update_cost. apply (f_equal (λ c : bool, if c then 0 else 1)).
  apply bool_decide_ext. split; congruence.
Qed.

Lemma forest_dist_sym F G : forest_dist F G = forest_dist G F.
Proof.
  funelim (forest_dist F G); simp forest_dist.
  - reflexivity.
  - unfold insert_cost, remove_cost.
    match goal with IH : forest_dist _ _ = forest_dist _ _ |- _ => by rewrite IH end.
  - unfold insert_cost, remove_cost.
    match goal with IH : forest_dist _ _ = forest_dist _ _ |- _ => by rewrite IH end.
  - unfold insert_cost, remove_cost.
    rewrite (update_cost_sym (ShapeNode_ l2 c2)).
    repeat match goal with
           | IH : forest_dist _ _ = forest_dist _ _ |- _ => rewrite IH; clear IH
           end.
    lia.
Qed.

(** C8. The edit distance between two trees does not depend on which of
    them comes first, for trees in any sibling order and so for the sorted
    ones, and the same holds with the sorting included. *)
Theorem tree_edit_distance_symmetric (A B : ShapeNode) :
  simple_distance A B = simple_distance B A
  ∧ compute_tree_edit_distance A B = compute_tree_edit_distance B A.
Proof.
  split; [apply forest_dist_sym|].
  unfold compute_tree_edit_distance. rewrite !sorted_pair_eq. simpl.
  apply forest_dist_sym.
Qed.

(** ** The tree builder *)

Section BuilderProps.
Context {TC : Type} `{LabelHelpers TC}.

Lemma get_shapes_dict_lookup (schema : SchemaJ TC) (k : string) :
  is_Some (get_shapes_dict schema !! k) ↔ ∃ shape, shape ∈ shapes schema ∧ id shape = k.
Proof.
  unfold get_shapes_dict.
  assert (∀ l (d : gmap string (Shape TC)),
            is_Some (foldl (λ d shape, <[id shape := shape]> d) d l !! k)
            ↔ is_Some (d !! k) ∨ ∃ shape, shape ∈ l ∧ id shape = k) as Hfold.
  { induction l as [|s l IH]; intros d; simpl.
    - split; [by left|]. intros [?|(? & []%not_elem_of_nil & _)]; done.
    - rewrite IH. destruct (decide (id s = k)) as [<-|Hne].
      + rewrite lookup_insert_eq. split; [|by left].
        intros _. right. exists s. split; [left|done].
      + rewrite lookup_insert_ne by done. split.
        * intros [?|(s' & Hs' & Hk)]; [by left|]. right. exists s'. split; [by right|done].
        * intros [?|(s' & Hs' & Hk)]; [by left|]. right. exists s'. split; [|done].
          apply elem_of_cons in Hs' as [->|?]; done. }
  rewrite Hfold, lookup_empty. split.
  - intros [[? [=]]|?]; done.
  - by right.
Qed.

(** The chain a constraint contributes, if it contributes one. *)
Definition chain_of (shapes : gmap string (Shape TC)) (shape_id : string) (tc : TC)
    : option ShapeNode :=
  if determinable tc then
    Some (ShapeNode_ (default EmptyString (get_predicate_node_label tc))
            [ShapeNode_ (get_node_constraint_node_label tc shapes shape_id)
               [ShapeNode_ (get_cardinality_node_label tc) []]])
  else None.

Lemma tree_step_chain shapes shape_id node tc :
  tree_step shapes shape_id node tc
  = ShapeNode_ (label node)
      (children node ++ option_list (chain_of shapes shape_id tc)).
Proof.
  unfold tree_step, chain_of, determinable.
  destruct (get_predicate_node_label tc) as [p|]; simpl.
  - destruct (truthy p); simpl; [done|]. destruct node. simpl. by rewrite app_nil_r.
  - destruct node. simpl. by rewrite app_nil_r.
Qed.

Lemma foldl_tree_step shapes shape_id node tcs :
  foldl (tree_step shapes shape_id) node tcs
  = ShapeNode_ (label node) (children node ++ omap (chain_of shapes shape_id) tcs).
Proof.
  revert node. induction tcs as [|tc tcs IH]; intros node; simpl.
  - destruct node. simpl. by rewrite app_nil_r.
  - rewrite IH, tree_step_chain. simpl. f_equal. rewrite <- app_assoc. f_equal.
    by destruct (chain_of shapes shape_id tc).
Qed.

Lemma omap_chain_length shapes shape_id tcs :
  length (omap (chain_of shapes shape_id) tcs) = length (filter (λ tc, determinable tc) tcs).
Proof.
  induction tcs as [|tc tcs IH]; [done|].
  rewrite filter_cons. cbn [omap list_omap]. unfold chain_of at 1.
  destruct (determinable tc).
  - rewrite decide_True by done. cbn [length]. by rewrite IH.
  - rewrite decide_False by (by intros []). done.
Qed.

Lemma omap_chain_shape shapes shape_id tcs :
  Forall is_chain (omap (chain_of shapes shape_id) tcs).
Proof.
  induction tcs as [|tc tcs IH]; [constructor|].
  cbn [omap list_omap]. unfold chain_of at 1. destruct (determinable tc); [|done].
  constructor; [|done]. by eexists _, _, _.
Qed.

Lemma transform_schema_to_tree_resolved schema shape_id resolved_id start_shape :
  resolve_start schema shape_id = Ok (resolved_id, start_shape) →
  transform_schema_to_tree schema shape_id
  = Ok (ShapeNode_ resolved_id
          (omap (chain_of (get_shapes_dict schema) resolved_id)
             (default [] (constraints_of start_shape)))).
Proof.
  intros Hres. unfold transform_schema_to_tree. rewrite Hres. simpl.
  destruct (constraints_of start_shape) as [tcs|]; [|done].
  by rewrite foldl_tree_step.
Qed.

(** The entry of the shape mapping under a key is the last declared shape
    with that id. *)
Lemma shapes_fold_lookup (l : list (Shape TC)) (d : gmap string (Shape TC)) k s :
  foldl (λ d shape, <[id shape := shape]> d) d l !! k = Some s →
  (d !! k = Some s ∧ Forall (λ x, id x ≠ k) l)
  ∨ ∃ l1 l2, l = l1 ++ s :: l2 ∧ id s = k ∧ Forall (λ x, id x ≠ k) l2.
Proof.
  revert d. induction l as [|x l IH]; intros d; cbn [foldl].
  - intros Hd. left. by split.
  - intros [[Hd Hl]|(l1 & l2 & -> & Hs & Hl2)]%IH.
    + destruct (decide (id x = k)) as [Hx|Hx].
      * rewrite Hx, lookup_insert_eq in Hd. injection Hd as ->.
        right. by exists [], l.
      * rewrite lookup_insert_ne in Hd by done. left. split; [done|]. by constructor.
    + right. by exists (x :: l1), l2.
Qed.

Lemma get_shapes_dict_last (schema : SchemaJ TC) k s :
  get_shapes_dict schema !! k = Some s →
  ∃ l1 l2, shapes schema = l1 ++ s :: l2 ∧ id s = k ∧ Forall (λ x, id x ≠ k) l2.
Proof.
  unfold get_shapes_dict. intros [[Hd _]|?]%shapes_fold_lookup; [|done].
  by rewrite lookup_empty in Hd.
Qed.

(** C6, as the code has it. When the requested id is no key of the shape
    mapping and the schema declares a first shape, the builder takes the id
    of that shape and the entry of the mapping under it, which is the first
    shape itself unless a later shape repeats its id: it returns the tree
    with that id at the root and one chain for each entry of that shape
    that has a predicate label, which is the tree built on request of that
    id. *)
Theorem transform_schema_to_tree_falls_back (schema : SchemaJ TC)
    (shape_id : string) (first : Shape TC) (rest : list (Shape TC)) :
  shapes schema = first :: rest →
  get_shapes_dict schema !! shape_id = None →
  ∃ start_shape,
    get_shapes_dict schema !! id first = Some start_shape
    ∧ start_shape ∈ shapes schema ∧ id start_shape = id first
    ∧ (Forall (λ s, id s ≠ id first) rest → start_shape = first)
    ∧ transform_schema_to_tree schema shape_id
      = Ok (ShapeNode_ (id first)
              (omap (chain_of (get_shapes_dict schema) (id first))
                 (default [] (constraints_of start_shape))))
    ∧ transform_schema_to_tree schema (id first)
      = transform_schema_to_tree schema shape_id.
Proof.
  intros Hshapes Habsent.
  assert (is_Some (get_shapes_dict schema !! id first)) as [start_shape Hfirst].
  { apply get_shapes_dict_lookup. exists first. split; [|done]. rewrite Hshapes. left. }
  assert (resolve_start schema shape_id = Ok (id first, start_shape)) as Hres.
  { unfold resolve_start. rewrite Habsent, Hshapes. unfold getitem. by rewrite Hfirst. }
  assert (resolve_start schema (id first) = Ok (id first, start_shape)) as Hres'.
  { unfold resolve_start. by rewrite Hfirst. }
  destruct (get_shapes_dict_last _ _ _ Hfirst) as (l1 & l2 & Hsplit & Hid & Hlast).
  exists start_shape. split; [done|]. split.
  { rewrite Hsplit. apply elem_of_app. right. left. }
  split; [done|]. split.
  { intros Hrest. rewrite Hshapes in Hsplit. destruct l1 as [|x l1].
    - by injection Hsplit as ->.
    - injection Hsplit as _ ->. apply Forall_app in Hrest as [_ Hrest].
      apply Forall_cons in Hrest as [Hne _]. done. }
  split; [by apply transform_schema_to_tree_resolved|].
  by rewrite (transform_schema_to_tree_resolved _ _ _ _ Hres),
       (transform_schema_to_tree_resolved _ _ _ _ Hres').
Qed.

(** Without any shape there is nothing to fall back to. *)
Lemma transform_schema_to_tree_no_shape (schema : SchemaJ TC) (shape_id : string) :
  shapes schema = [] → transform_schema_to_tree schema shape_id = Raise IndexError.
Proof.
  intros Hnone. unfold transform_schema_to_tree, resolve_start, get_shapes_dict.
  by rewrite Hnone.
Qed.

Lemma resolve_start_total (schema : SchemaJ TC) (shape_id : string) :
  shapes schema ≠ [] → ∃ r, resolve_start schema shape_id = Ok r.
Proof.
  intros Hsome. unfold resolve_start.
  destruct (get_shapes_dict schema !! shape_id) as [s|] eqn:E; [by eexists|].
  destruct (shapes schema) as [|first rest] eqn:Hshapes; [done|].
  assert (is_Some (get_shapes_dict schema !! id first)) as [start_shape Hfirst].
  { apply get_shapes_dict_lookup. exists first. split; [|done]. rewrite Hshapes. left. }
  unfold getitem. rewrite Hfirst. by eexists.
Qed.

(** C9. Every child of the root of a tree the builder returns is a chain
    of three nodes, one child each and a leaf at the end, and the root has
    as many children as the start shape has entries with a determined
    predicate label. *)
Theorem transform_schema_to_tree_shape (schema : SchemaJ TC) (shape_id : string)
    (t : ShapeNode) :
  transform_schema_to_tree schema shape_id = Ok t →
  Forall is_chain (children t)
  ∧ ∃ resolved_id start_shape,
      resolve_start schema shape_id = Ok (resolved_id, start_shape)
      ∧ len t
        = length (filter (λ tc, determinable tc)
                    (default [] (constraints_of start_shape))).
Proof.
  intros Ht.
  destruct (resolve_start schema shape_id) as [[resolved_id start_shape]|e] eqn:Hres.
  - rewrite (transform_schema_to_tree_resolved _ _ _ _ Hres) in Ht.
    injection Ht as <-. split; [apply omap_chain_shape|].
    exists resolved_id, start_shape. split; [done|]. apply omap_chain_length.
  - unfold transform_schema_to_tree in Ht. by rewrite Hres in Ht.
Qed.

(** The builder returns a tree for every schema that declares a shape. *)
Lemma transform_schema_to_tree_total (schema : SchemaJ TC) (shape_id : string) :
  shapes schema ≠ [] → ∃ t, transform_schema_to_tree schema shape_id = Ok t.
Proof.
  intros Hsome. destruct (resolve_start_total schema shape_id Hsome) as [[r s] Hres].
  eexists. by apply transform_schema_to_tree_resolved.
Qed.

End BuilderProps.

Definition person_shape : Shape Toy.labelled :=
  {| id := "Person";
     expression :=
       Some {| expressions :=
                 Some [ {| Toy.predicate := Some "knows"; Toy.valueExpr := "IRI";
                           Toy.cardinality := "*" |} ] |} |}.

Lemma transform_schema_to_tree_falls_back_witness :
  ∃ start_shape,
    get_shapes_dict Toy.person_true !! id person_shape = Some start_shape
    ∧ start_shape ∈ shapes Toy.person_true ∧ id start_shape = id person_shape
    ∧ (Forall (λ s : Shape Toy.labelled, id s ≠ id person_shape) []
       → start_shape = person_shape)
    ∧ transform_schema_to_tree (H := Toy.label_helpers) Toy.person_true "Human"
      = Ok (ShapeNode_ (id person_shape)
              (omap (chain_of (H := Toy.label_helpers)
                       (get_shapes_dict Toy.person_true) (id person_shape))
                 (default [] (constraints_of start_shape))))
    ∧ transform_schema_to_tree (H := Toy.label_helpers) Toy.person_true
        (id person_shape)
      = transform_schema_to_tree (H := Toy.label_helpers) Toy.person_true "Human".
Proof.
  apply (transform_schema_to_tree_falls_back (H := Toy.label_helpers)
           Toy.person_true "Human" person_shape []).
  - reflexivity.
  - vm_compute. reflexivity.
Defined.

(** C6 as stated fails: a schema that declares no shape has no first shape
    to fall back to, and the builder raises [IndexError] for an id that is
    absent from its empty shape mapping. *)
Lemma transform_schema_to_tree_falls_back_counterexample :
  let schema : SchemaJ Toy.labelled := {| start := Some "Person"; shapes := [] |} in
  get_shapes_dict schema !! "Person" = None
  ∧ transform_schema_to_tree (H := Toy.label_helpers) schema "Person"
    = Raise IndexError.
Proof. cbv zeta. split; vm_compute; reflexivity. Qed.

Lemma transform_schema_to_tree_shape_witness :
  Forall is_chain
    (children (ShapeNode_ "Person" [ShapeNode_ "knows" [ShapeNode_ "IRI" [leaf "*"]]]))
  ∧ ∃ resolved_id start_shape,
      resolve_start Toy.person_true "Person" = Ok (resolved_id, start_shape)
      ∧ len (ShapeNode_ "Person" [ShapeNode_ "knows" [ShapeNode_ "IRI" [leaf "*"]]])
        = length (filter (λ tc, determinable (H := Toy.label_helpers) tc)
                    (default [] (constraints_of start_shape))).
Proof.
  apply (transform_schema_to_tree_shape (H := Toy.label_helpers)
           Toy.person_true "Person").
  vm_compute. reflexivity.
Defined.

(** ** The normalized distance *)

Lemma update_cost_same a b : label a = label b → update_cost a b = 0.
Proof. intros Heq. unfold update_cost. by rewrite bool_decide_true. Qed.





(** A forest is at distance zero from itself. *)
Lemma forest_dist_refl F : forest_dist F F = 0.
Proof.
  assert (∀ n F, forest_count F ≤ n → forest_dist F F = 0) as Hall; [|by eapply Hall].
  clear F. induction n as [|n IH]; intros [|[l cs] F'] Hn; simp forest_dist; try done.
  - unfold forest_count in Hn. cbn [fmap list_fmap sum_list_with node_count] in Hn.
    unfold Datatypes.id in Hn. lia.
  - assert (forest_count cs + forest_count F' ≤ n) as Hle.
    { unfold forest_count in *. cbn [fmap list_fmap sum_list_with node_count] in Hn.
      unfold fmap, Datatypes.id in *. lia. }
    rewrite update_cost_same by done.
    rewrite (IH cs), (IH F') by lia. lia.
Qed.



Section NormalizedProps.
Context {TC : Type} `{LabelHelpers TC}.


End NormalizedProps.



(** ** The graph builder against the tree builder *)








Section GraphProps.
Context {TC : Type} `{LabelHelpers TC}.







End GraphProps.



(** ** The evaluator *)

Section EvaluatorProps.
Context {TC : Type} `{LabelHelpers TC} `{Environment TC} `{Parser.Collaborators}.

(** A class whose two schema files load and whose predicted file exists
    is one that yields a distance or fails in the normalization. *)
Definition compared (dataset ground_truth_dir predicted_dir : string)
    (class : string * string) : Prop :=
  path_exists (shex_path predicted_dir class.1) = true
  ∧ ∃ T P,
      load_tree (shex_path ground_truth_dir class.1) (shape_id_of dataset class.2) = Ok T
      ∧ load_tree (shex_path predicted_dir class.1) (shape_id_of dataset class.2) = Ok P.

Lemma evaluate_loop_skips dataset gd pd classes teds nteds :
  (∀ c, c ∈ classes → path_exists (shex_path pd c.1) = false) →
  (∀ c, c ∈ classes →
        ∃ t, load_tree (shex_path gd c.1) (shape_id_of dataset c.2) = Ok t) →
  evaluate_loop dataset gd pd classes teds nteds = Ok (teds, nteds).
Proof.
  induction classes as [|[url lab] classes IH]; intros Hmiss Hload; [done|].
  cbn [evaluate_loop].
  destruct (Hload (url, lab)) as [t Ht]; [left|]. cbn [fst snd] in Ht.
  rewrite Ht. cbn [bind].
  assert (path_exists (shex_path pd url) = false) as -> by (apply (Hmiss (url, lab)); left).
  cbn [negb].
  apply IH; intros c Hc; [apply Hmiss|apply Hload]; by right.
Qed.

Lemma evaluate_loop_grows dataset gd pd classes teds nteds ts ns :
  evaluate_loop dataset gd pd classes teds nteds = Ok (ts, ns) →
  ts = teds ∨ ∃ c, c ∈ classes ∧ compared dataset gd pd c.
Proof.
  revert teds nteds. induction classes as [|[url lab] classes IH]; intros teds nteds.
  - intros [= <- <-]. by left.
  - cbn [evaluate_loop].
    destruct (load_tree (shex_path gd url) (shape_id_of dataset lab)) as [T|e] eqn:HT;
      [|done]. cbn [bind].
    destruct (path_exists (shex_path pd url)) eqn:Hex; cbn [negb].
    + destruct (load_tree (shex_path pd url) (shape_id_of dataset lab)) as [P|e] eqn:HP;
        [|done]. intros _. right. exists (url, lab). split; [left|].
      split; [done|]. by exists T, P.
    + intros Hloop. destruct (IH _ _ Hloop) as [->|(c & Hc & Hcmp)]; [by left|].
      right. exists c. split; [by right|done].
Qed.

(** C10. When the predicted file of every class is missing, the evaluator
    reports no mean, and it raises the division error of the final
    aggregation whenever the ground truth of every class loads; the empty
    batch is the case without classes. A mean is reported only when some
    class has its predicted file and both of its trees. *)
Theorem evaluate_ted_needs_a_comparison (dataset : string)
    (class_urls class_labels : list string) (ground_truth_dir predicted_dir : string) :
  ((∀ c, c ∈ zip class_urls class_labels →
         path_exists (shex_path predicted_dir c.1) = false) →
   (∀ v, evaluate_ted dataset class_urls class_labels ground_truth_dir predicted_dir
         ≠ Ok v)
   ∧ ((∀ c, c ∈ zip class_urls class_labels →
            ∃ t, load_tree (shex_path ground_truth_dir c.1)
                   (shape_id_of dataset c.2) = Ok t) →
      evaluate_ted dataset class_urls class_labels ground_truth_dir predicted_dir
      = Raise ZeroDivisionError))
  ∧ (∀ v, evaluate_ted dataset class_urls class_labels ground_truth_dir predicted_dir
          = Ok v →
          ∃ c, c ∈ zip class_urls class_labels
               ∧ compared dataset ground_truth_dir predicted_dir c).
Proof.
  assert (∀ v, evaluate_ted dataset class_urls class_labels ground_truth_dir
                 predicted_dir = Ok v →
               ∃ c, c ∈ zip class_urls class_labels
                    ∧ compared dataset ground_truth_dir predicted_dir c) as Hmean.
  { intros v. unfold evaluate_ted.
    destruct (evaluate_loop dataset ground_truth_dir predicted_dir
                (zip class_urls class_labels) [] []) as [[ts ns]|e] eqn:Hloop; [|done].
    cbn [bind fst snd]. apply evaluate_loop_grows in Hloop as [->|Hc]; [|done].
    by unfold divide. }
  split; [|exact Hmean]. intros Hmiss. split.
  - intros v Hv. destruct (Hmean v Hv) as (c & Hc & Hex & _).
    rewrite (Hmiss c Hc) in Hex. done.
  - intros Hload. unfold evaluate_ted.
    by rewrite (evaluate_loop_skips _ _ _ _ [] [] Hmiss Hload).
Qed.

End EvaluatorProps.

Lemma evaluate_ted_needs_a_comparison_witness :
  evaluate_ted (H := Toy.label_helpers) (H0 := Toy.ground_truth_only)
    (H1 := Toy.collaborators Toy.lenient_evaluator)
    "wes" ["http://www.wikidata.org/entity/Q5"] ["person"] "gt" "pred"
  = Raise ZeroDivisionError.
Proof.
  pose proof (evaluate_ted_needs_a_comparison (H := Toy.label_helpers)
                (H0 := Toy.ground_truth_only)
                (H1 := Toy.collaborators Toy.lenient_evaluator)
                "wes" ["http://www.wikidata.org/entity/Q5"] ["person"] "gt" "pred")
    as [Hmiss _].
  apply Hmiss.
  - intros c Hc. apply list_elem_of_singleton in Hc as ->. vm_compute. reflexivity.
  - intros c Hc. apply list_elem_of_singleton in Hc as ->. eexists.
    vm_compute. reflexivity.
Defined.

(** * Further properties of the code *)

(** ** Strings *)

Lemma append_cons a s t : String a s +:+ t = String a (s +:+ t).
Proof. reflexivity. Qed.

Lemma split_nonempty sep s : split sep s ≠ [].
Proof. destruct s as [|a s]; simpl; [done|]. destruct (decide (a = sep)); [done|]. by destruct (split sep s). Qed.

Lemma join_cons_char sep a h t :
  join sep (String a h :: t) = String a (join sep (h :: t)).
Proof. by destruct t. Qed.

(** Splitting on a character and joining with it gives the text back. *)
Lemma join_split sep s : join sep (split sep s) = s.
Proof.
  induction s as [|a s IH]; [done|]. cbn [split].
  destruct (decide (a = sep)) as [->|Hne].
  - pose proof (split_nonempty sep s) as Hs.
    destruct (split sep s) as [|h t] eqn:E; [done|].
    change (String sep (join sep (h :: t)) = String sep s). by rewrite IH.
  - destruct (split sep s) as [|h t] eqn:E; [by destruct (split_nonempty sep s)|].
    by rewrite join_cons_char, IH.
Qed.

Lemma rstrip_by_keeps_head p s c r :
  rstrip_by p s = String c r → ∃ s', s = String c s'.
Proof.
  destruct s as [|a s]; [done|]. cbn [rstrip_by].
  destruct (rstrip_by p s); [destruct (p a)|]; intros [=]; subst; by eexists.
Qed.

Lemma rstrip_by_empty_lstrip p s :
  rstrip_by p s = EmptyString → lstrip_by p s = EmptyString.
Proof.
  induction s as [|a s IH]; [done|]. cbn [rstrip_by lstrip_by].
  destruct (rstrip_by p s) eqn:E; [|done]. destruct (p a); [auto|done].
Qed.

Lemma startswith_hash_cons s : startswith "#" s = true → ∃ s', s = String HASH s'.
Proof.
  destruct s as [|a s]; [done|]. cbn [startswith].
  destruct (decide _) as [<-|]; [|done]. by eexists.
Qed.

Lemma startswith_strip_lstrip s :
  startswith "#" (strip s) = true → startswith "#" (lstrip s) = true.
Proof.
  unfold strip, rstrip. intros [r Hr]%startswith_hash_cons.
  apply rstrip_by_keeps_head in Hr as [s' ->]. reflexivity.
Qed.

Lemma lstrip_by_suffix p s : ∃ pre, s = pre +:+ lstrip_by p s.
Proof.
  induction s as [|a s [pre IH]]; [by exists EmptyString|]. cbn [lstrip_by].
  destruct (p a); [|by exists EmptyString].
  exists (String a pre). rewrite append_cons. by f_equal.
Qed.

Lemma contains_char_split c s :
  contains_char c s = true →
  s = before_char c s +:+ from_char c s ∧ ∃ rest, from_char c s = String c rest.
Proof.
  induction s as [|a s IH]; [done|]. cbn [contains_char before_char from_char].
  destruct (decide (a = c)) as [->|Hne]; [intros _; split; [done|by eexists]|].
  intros [Hs Hrest]%IH. split; [|done]. rewrite append_cons. by f_equal.
Qed.

Lemma contains_char_app c s t :
  contains_char c (s +:+ t) = contains_char c s || contains_char c t.
Proof.
  induction s as [|a s IH]; [done|]. rewrite append_cons. cbn [contains_char].
  by destruct (decide (a = c)).
Qed.

Lemma contains_char_split_line c sep s l :
  l ∈ split sep s → contains_char c l = true → contains_char c s = true.
Proof.
  revert l. induction s as [|a s IH]; intros l.
  - intros ->%list_elem_of_singleton. done.
  - cbn [split contains_char]. destruct (decide (a = sep)) as [->|Hne].
    + intros [->|Hl]%elem_of_cons Hc; [done|].
      destruct (decide (sep = c)); [done|]. by eapply IH.
    + destruct (split sep s) as [|h t] eqn:E.
      * intros ->%list_elem_of_singleton. simpl.
        destruct (decide (a = c)); done.
      * intros [->|Hl]%elem_of_cons Hc; destruct (decide (a = c)) as [|Hac]; try done.
        -- simpl in Hc. rewrite decide_False in Hc by done. apply (IH h); [left|done].
        -- apply (IH l); [by right|done].
Qed.

(** ** The start line *)

(** A line that opens the schema: it starts with [start] or with [<]. *)
Definition opens_schema (line : string) : bool :=
  startswith "start" line || startswith "<" line.

Lemma position_start_line_from_spec k lines :
  (position_start_line_from k lines = 0
   ∧ Forall (λ l, opens_schema l = false) lines)
  ∨ ∃ i l, position_start_line_from k lines = k + i
           ∧ lines !! i = Some l ∧ opens_schema l = true
           ∧ Forall (λ l', opens_schema l' = false) (take i lines).
Proof.
  revert k. induction lines as [|line lines IH]; intros k; [by left|].
  cbn [position_start_line_from]. fold (opens_schema line).
  destruct (opens_schema line) eqn:E.
  - right. exists 0, line. rewrite Nat.add_0_r. by repeat split.
  - destruct (IH (S k)) as [[-> Hall]|(i & l & -> & Hl & Hopen & Hbefore)].
    + left. split; [done|]. by constructor.
    + right. exists (S i), l. repeat split; [lia|done..|]. cbn [take]. by constructor.
Qed.

(** X1. [position_start_line] returns the index of the first line that
    starts with [start] or [<]: the line at the index returned does, and no
    earlier line does. When no line of the text does, it returns 0, so 0
    stands both for a first line that opens the schema and for a text
    without such a line. *)
Theorem position_start_line_first_opening (shexc_text : string) :
  let lines := split LF shexc_text in
  let idx := position_start_line shexc_text in
  idx < length lines
  ∧ Forall (λ l, opens_schema l = false) (take idx lines)
  ∧ ((∃ l, lines !! idx = Some l ∧ opens_schema l = true)
     ∨ (idx = 0 ∧ Forall (λ l, opens_schema l = false) lines))
  ∧ (idx ≠ 0 → ∃ l, lines !! idx = Some l ∧ opens_schema l = true)
  ∧ (Forall (λ l, opens_schema l = false) lines → idx = 0).
Proof.
  cbv zeta. unfold position_start_line.
  pose proof (split_nonempty LF shexc_text) as Hne.
  destruct (position_start_line_from_spec 0 (split LF shexc_text))
    as [[-> Hall]|(i & l & -> & Hl & Hopen & Hbefore)].
  - split; [destruct (split LF shexc_text); [done|simpl; lia]|].
    split; [done|]. split; [by right|]. by split.
  - cbn [Nat.add]. split; [by eapply lookup_lt_Some|]. split; [done|].
    split; [left; by exists l|].
    split; [by exists l|]. intros Hall.
    rewrite Forall_forall in Hall. apply list_elem_of_lookup_2 in Hl.
    rewrite (Hall l Hl) in Hopen. done.
Qed.

Example position_start_line_ex :
  position_start_line "a
b
<S> {}" = 2
  ∧ position_start_line "<S> {}" = 0 ∧ position_start_line "a
b" = 0.
Proof. by vm_compute. Qed.

(** ** The comment extractor *)

Lemma first_nonempty_spec lines :
  first_nonempty lines = LocInt 0
  ∨ ∃ a, first_nonempty lines = LocStr a ∧ a ∈ lines ∧ a ≠ EmptyString.
Proof.
  unfold first_nonempty. destruct (List.find truthy lines) as [a|] eqn:E; [|by left].
  right. exists a. apply List.find_some in E as [Hin Ht].
  split; [done|]. split; [by apply list_elem_of_In|]. by destruct a.
Qed.

(** What one line contributes: at most one record, whose text is a tail of
    the line that begins, after leading blanks, with the hash sign. *)
Lemma comment_at_spec start_line_num idx line following r :
  r ∈ comment_at start_line_num idx line following →
  comment_at start_line_num idx line following = [r]
  ∧ (∃ pre, line = pre +:+ c_comment r)
  ∧ startswith "#" (lstrip (c_comment r)) = true
  ∧ (c_type r = general ↔ idx < start_line_num)
  ∧ (c_location r = LocInt 0
     ∨ ∃ a, c_location r = LocStr a ∧ a ≠ EmptyString
            ∧ (a ∈ following ∨ a = rstrip (before_char HASH line))).
Proof.
  assert (∀ case,
            locate_comment line following case = LocInt 0
            ∨ ∃ a, locate_comment line following case = LocStr a ∧ a ≠ EmptyString
                   ∧ (a ∈ following ∨ a = rstrip (before_char HASH line))) as Hloc.
  { intros [|]; unfold locate_comment.
    - destruct (first_nonempty_spec following) as [->|(a & -> & ? & ?)]; [by left|].
      right. exists a. auto.
    - destruct (truthy (strip (before_char HASH line))) eqn:E.
      + right. eexists. split; [done|]. split; [|by right].
        intros Hr. unfold rstrip in Hr. apply rstrip_by_empty_lstrip in Hr.
        unfold strip, lstrip in E. by rewrite Hr in E.
      + destruct (first_nonempty_spec following) as [->|(a & -> & ? & ?)]; [by left|].
        right. exists a. auto. }
  unfold comment_at. destruct (idx <? start_line_num)%nat eqn:Hidx.
  - apply Nat.ltb_lt in Hidx.
    destruct (startswith "#" (strip line)) eqn:Hs; [|by intros ?%not_elem_of_nil].
    intros ->%list_elem_of_singleton. cbn [c_comment c_type c_location].
    split; [done|]. split; [by exists EmptyString|].
    split; [by apply startswith_strip_lstrip|]. split; [done|]. apply Hloc.
  - apply Nat.ltb_ge in Hidx.
    destruct (startswith "#" (strip line)) eqn:Hs.
    + intros ->%list_elem_of_singleton. cbn [c_comment c_type c_location].
      split; [done|]. split; [by exists EmptyString|].
      split; [by apply startswith_strip_lstrip|]. split; [|apply Hloc].
      split; [done|lia].
    + destruct (contains_char HASH line) eqn:Hc; [|by intros ?%not_elem_of_nil].
      intros ->%list_elem_of_singleton. cbn [c_comment c_type c_location].
      apply contains_char_split in Hc as [Hline [rest Hrest]].
      split; [done|]. split; [by eexists|]. split; [by rewrite Hrest|].
      split; [|apply Hloc]. split; [done|lia].
Qed.

Lemma comment_scan_spec start_line_num idx lines r :
  r ∈ comment_scan start_line_num idx lines →
  ∃ ahead line following,
    lines = ahead ++ line :: following
    ∧ r ∈ comment_at start_line_num (idx + length ahead) line following.
Proof.
  revert idx. induction lines as [|line lines IH]; intros idx; [by intros ?%not_elem_of_nil|].
  cbn [comment_scan]. intros [Hr|Hr]%elem_of_app.
  - exists [], line, lines. by rewrite Nat.add_0_r.
  - destruct (IH _ Hr) as (ahead & l & following & -> & Hat).
    exists (line :: ahead), l, following. split; [done|].
    cbn [length]. by replace (idx + S (length ahead)) with (S idx + length ahead) by lia.
Qed.

(** X2. Every record of the extractor holds a tail of one line of the text,
    and that tail begins, after leading blanks, with the hash sign. Its type
    is general exactly when its line lies before the start line. *)
Theorem comment_parser_helper_records (shexc_text : string) (r : CommentRecord) :
  r ∈ comment_parser_helper shexc_text →
  ∃ ahead line following pre,
    split LF shexc_text = ahead ++ line :: following
    ∧ line = pre +:+ c_comment r
    ∧ startswith "#" (lstrip (c_comment r)) = true
    ∧ (c_type r = general ↔ length ahead < position_start_line shexc_text).
Proof.
  unfold comment_parser_helper.
  intros (ahead & line & following & Hsplit & Hat)%comment_scan_spec.
  apply comment_at_spec in Hat as (_ & [pre Hpre] & Hhash & Htype & _).
  exists ahead, line, following, pre. by repeat split; try apply Htype.
Qed.

(** The lines that yield a record, each with its index: a line that
    begins with the hash sign after leading blanks, or, from the start line
    on, a line that holds one. *)
Definition carries_comment (start_line_num : nat) (numbered : nat * string) : bool :=
  startswith "#" (strip numbered.2)
  || (negb (numbered.1 <? start_line_num)%nat && contains_char HASH numbered.2).

Definition commented_lines (shexc_text : string) : list (nat * string) :=
  filter (λ numbered, carries_comment (position_start_line shexc_text) numbered)
    (zip (seq 0 (length (split LF shexc_text))) (split LF shexc_text)).

(** The location that points behind a line: the first of the following
    lines that is not empty, or 0 when there is none. *)
Definition anchored_after (following : list string) (loc : location) : Prop :=
  (Forall (λ l, l = EmptyString) following ∧ loc = LocInt 0)
  ∨ ∃ blank a rest,
      following = blank ++ a :: rest
      ∧ Forall (λ l, l = EmptyString) blank ∧ a ≠ EmptyString ∧ loc = LocStr a.

Lemma first_nonempty_anchored lines : anchored_after lines (first_nonempty lines).
Proof.
  unfold first_nonempty, anchored_after. induction lines as [|l lines IH]; [by left|].
  cbn [List.find]. destruct l as [|c l]; cbn [truthy].
  - destruct (List.find truthy lines) as [a|].
    + destruct IH as [[_ [=]]|(blank & a' & rest & -> & Hblank & Ha & [= ->])].
      right. exists (EmptyString :: blank), a', rest. split; [done|]. split; [|done].
      by constructor.
    + destruct IH as [[Hall _]|(? & ? & ? & _ & _ & _ & [=])]. left. split; [|done].
      by constructor.
  - right. by exists [], (String c l), lines.
Qed.

(** The records of a scan, line by line. *)
Lemma comment_scan_positions start_line_num ahead lines :
  Forall2
    (λ numbered r,
       c_comment r = (if startswith "#" (strip numbered.2) then numbered.2
                      else from_char HASH numbered.2)
       ∧ c_type r = (if (numbered.1 <? start_line_num)%nat then general else constraint)
       ∧ c_location r
         = locate_comment numbered.2 (drop (S numbered.1) (ahead ++ lines)) (c_type r))
    (filter (λ numbered, carries_comment start_line_num numbered)
       (zip (seq (length ahead) (length lines)) lines))
    (comment_scan start_line_num (length ahead) lines).
Proof.
  revert ahead. induction lines as [|line rest IH]; intros ahead; [constructor|].
  cbn [length seq zip zip_with comment_scan]. rewrite filter_cons.
  specialize (IH (ahead ++ [line])).
  rewrite length_app, <- app_assoc in IH. cbn [length app] in IH.
  rewrite Nat.add_1_r in IH.
  assert (drop (S (length ahead)) (ahead ++ line :: rest) = rest) as Hdrop.
  { rewrite (cons_middle line ahead rest), app_assoc.
    replace (S (length ahead)) with (length (ahead ++ [line]))
      by (rewrite length_app; simpl; lia).
    by rewrite drop_app_length. }
  destruct (decide _) as [Hcarries|Hcarries];
    [apply Is_true_true in Hcarries|apply Is_true_false in Hcarries];
    unfold carries_comment in Hcarries; cbn [fst snd] in Hcarries;
    unfold comment_at;
    destruct (length ahead <? start_line_num)%nat eqn:Hlt;
    destruct (startswith "#" (strip line)) eqn:Hown;
    cbn [negb andb orb] in Hcarries; try done; rewrite ?Hcarries; cbn [app];
    try done;
    (constructor; [|done]); cbn [c_comment c_type c_location fst snd];
    by rewrite Hown, Hlt, Hdrop.
Qed.

Lemma zip_seq_lookup {A} (j : nat) (l : list A) (i : nat) (x : A) :
  (i, x) ∈ zip (seq j (length l)) l → j ≤ i ∧ l !! (i - j) = Some x.
Proof.
  revert j. induction l as [|y l IH]; intros j; [by intros ?%not_elem_of_nil|].
  cbn [length seq zip zip_with]. intros [[= -> ->]|Hin]%elem_of_cons.
  - split; [done|]. by rewrite Nat.sub_diag.
  - apply IH in Hin as [Hle Hl]. split; [lia|].
    replace (i - j) with (S (i - S j)) by lia. done.
Qed.

Lemma filter_zip_seq_sorted {A} (P : nat * A → Prop) `{∀ x, Decision (P x)}
    (j : nat) (l : list A) :
  StronglySorted lt (filter P (zip (seq j (length l)) l)).*1
  ∧ Forall (λ i, j ≤ i) (filter P (zip (seq j (length l)) l)).*1.
Proof.
  revert j. induction l as [|y l IH]; intros j; [by split; constructor|].
  cbn [length seq zip zip_with]. rewrite filter_cons.
  destruct (IH (S j)) as [Hsorted Hbound].
  assert (Forall (λ i, j ≤ i) (filter P (zip (seq (S j) (length l)) l)).*1) as Hweak
    by (eapply Forall_impl; [exact Hbound|]; intros; simpl in *; lia).
  destruct (decide (P (j, y))); [|done].
  rewrite fmap_cons. cbn [fst]. split.
  - constructor; [done|]. eapply Forall_impl; [exact Hbound|]. intros; simpl in *; lia.
  - by constructor.
Qed.

(** X3. The record at a position of the result belongs to the line at the
    same position among the lines that carry a comment. A constraint
    record whose line holds text in front of the hash sign is located at
    that text without its trailing blanks, which is not empty. Every other
    record is located at the first line behind its own line that is not
    empty, or at the integer 0 when no such line follows. *)
Theorem comment_parser_helper_locations (shexc_text : string) (k : nat)
    (r : CommentRecord) :
  comment_parser_helper shexc_text !! k = Some r →
  ∃ i line,
    commented_lines shexc_text !! k = Some (i, line)
    ∧ split LF shexc_text !! i = Some line
    ∧ ((c_type r = constraint
        ∧ strip (before_char HASH line) ≠ EmptyString
        ∧ c_location r = LocStr (rstrip (before_char HASH line))
        ∧ rstrip (before_char HASH line) ≠ EmptyString)
       ∨ ((c_type r = general ∨ strip (before_char HASH line) = EmptyString)
          ∧ anchored_after (drop (S i) (split LF shexc_text)) (c_location r))).
Proof.
  intros Hr. unfold comment_parser_helper in Hr.
  pose proof (comment_scan_positions (position_start_line shexc_text) []
                (split LF shexc_text)) as Hscan.
  cbn [length app] in Hscan.
  destruct (Forall2_lookup_r _ _ _ _ _ Hscan Hr) as ([i line] & Hk & _ & _ & Hloc).
  cbn [fst snd] in Hloc. exists i, line. split; [exact Hk|].
  assert ((i, line) ∈ zip (seq 0 (length (split LF shexc_text))) (split LF shexc_text))
    as Hin.
  { apply list_elem_of_lookup_2 in Hk. by apply list_elem_of_filter in Hk as [_ ?]. }
  apply zip_seq_lookup in Hin as [_ Hline]. rewrite Nat.sub_0_r in Hline.
  split; [done|]. rewrite Hloc. unfold locate_comment.
  destruct (c_type r).
  - right. split; [by left|]. apply first_nonempty_anchored.
  - destruct (strip (before_char HASH line)) as [|c rest] eqn:Hstrip; cbn [truthy].
    + right. split; [by right|]. apply first_nonempty_anchored.
    + left. split; [done|]. split; [done|]. split; [done|].
      intros Hempty. unfold rstrip in Hempty. apply rstrip_by_empty_lstrip in Hempty.
      unfold strip, lstrip in Hstrip. by rewrite Hempty in Hstrip.
Qed.

Lemma comment_scan_kinds start_line_num idx lines :
  ∃ gs cs,
    comment_scan start_line_num idx lines = gs ++ cs
    ∧ Forall (λ r, c_type r = general) gs
    ∧ Forall (λ r, c_type r = constraint) cs
    ∧ length gs ≤ start_line_num - idx
    ∧ length (gs ++ cs) ≤ length lines.
Proof.
  revert idx. induction lines as [|line lines IH]; intros idx.
  { exists [], []. split; [done|]. split; [constructor|]. split; [constructor|].
    split; simpl; lia. }
  cbn [comment_scan]. destruct (IH (S idx)) as (gs & cs & -> & Hgs & Hcs & Hlen & Hall).
  destruct (comment_at start_line_num idx line lines) as [|r rs] eqn:Hat.
  { exists gs, cs. repeat split; try done; cbn [length]; lia. }
  assert (r ∈ comment_at start_line_num idx line lines) as Hr by (rewrite Hat; left).
  apply comment_at_spec in Hr as (Hone & _ & _ & Htype & _).
  rewrite Hat in Hone. injection Hone as ->.
  destruct (decide (idx < start_line_num)) as [Hlt|Hge].
  - exists (r :: gs), cs. repeat split; try done.
    + constructor; [by apply Htype|done].
    + cbn [length]. lia.
    + cbn [app length] in *. lia.
  - assert (gs = []) as -> by (destruct gs; [done|cbn [length] in Hlen; lia]).
    exists [], (r :: cs). repeat split; try done.
    + constructor; [|done]. destruct (c_type r); [|done]. exfalso. by apply Hge, Htype.
    + lia.
    + cbn [app length] in *. lia.
Qed.

(** X4. The records come in document order, one for each line that carries
    a comment: the record at a position holds the comment of the line at
    that position among those lines, which are listed by rising index, the
    whole line when it begins with the hash sign after leading blanks and
    the line from its first hash sign on otherwise, and it is general when
    the line lies before the start line and a constraint record otherwise.
    So all general records are ahead of all constraint records, there are no
    more general records than lines before the start line and no more
    records than lines. When no line opens the schema, or the first one
    does, every record is a constraint record, the comments of the header
    included. *)
Theorem comment_parser_helper_kinds (shexc_text : string) :
  Forall2
    (λ numbered r,
       c_comment r = (if startswith "#" (strip numbered.2) then numbered.2
                      else from_char HASH numbered.2)
       ∧ c_type r = (if (numbered.1 <? position_start_line shexc_text)%nat
                     then general else constraint))
    (commented_lines shexc_text) (comment_parser_helper shexc_text)
  ∧ StronglySorted lt (commented_lines shexc_text).*1
  ∧ Forall (λ numbered, split LF shexc_text !! numbered.1 = Some numbered.2)
      (commented_lines shexc_text)
  ∧ ∃ gs cs,
      comment_parser_helper shexc_text = gs ++ cs
      ∧ Forall (λ r, c_type r = general) gs
      ∧ Forall (λ r, c_type r = constraint) cs
      ∧ length gs ≤ position_start_line shexc_text
      ∧ length (comment_parser_helper shexc_text) ≤ length (split LF shexc_text)
      ∧ (position_start_line shexc_text = 0 → gs = []).
Proof.
  split.
  { pose proof (comment_scan_positions (position_start_line shexc_text) []
                  (split LF shexc_text)) as Hscan.
    cbn [length app] in Hscan. unfold comment_parser_helper, commented_lines.
    eapply Forall2_impl; [exact Hscan|]. by intros numbered r (? & ? & _). }
  split; [apply filter_zip_seq_sorted|].
  split.
  { apply Forall_forall. intros [i line] Hin.
    apply list_elem_of_filter in Hin as [_ Hin].
    apply zip_seq_lookup in Hin as [_ Hline]. by rewrite Nat.sub_0_r in Hline. }
  unfold comment_parser_helper.
  destruct (comment_scan_kinds (position_start_line shexc_text) 0 (split LF shexc_text))
    as (gs & cs & Hscan & Hgs & Hcs & Hlen & Hall).
  exists gs, cs. rewrite Hscan.
  split; [done|]. split; [done|]. split; [done|]. split; [lia|]. split; [done|].
  intros Hzero. rewrite Hzero in Hlen. destruct gs; [done|]. cbn [length] in Hlen. lia.
Qed.

(** X5. A text without a hash sign has no comment records. *)
Theorem comment_parser_helper_without_hash (shexc_text : string) :
  contains_char HASH shexc_text = false → comment_parser_helper shexc_text = [].
Proof.
  intros Hno. destruct (comment_parser_helper shexc_text) as [|r rs] eqn:E; [done|].
  assert (r ∈ comment_parser_helper shexc_text) as Hr by (rewrite E; left).
  unfold comment_parser_helper in Hr.
  apply comment_scan_spec in Hr as (ahead & line & following & Hsplit & Hat).
  apply comment_at_spec in Hat as (_ & [pre Hline] & Hhash & _).
  assert (contains_char HASH shexc_text = true); [|congruence].
  apply (contains_char_split_line HASH LF shexc_text line).
  - rewrite Hsplit. apply elem_of_app. right. left.
  - rewrite Hline, contains_char_app.
    destruct (lstrip_by_suffix isspace (c_comment r)) as [blanks Hb].
    apply startswith_hash_cons in Hhash as [rest Hrest]. unfold lstrip in Hrest.
    rewrite Hb, Hrest, contains_char_app. cbn [contains_char].
    rewrite decide_True by done. by rewrite !orb_true_r.
Qed.

Definition commented_text : string :=
  "# people
PREFIX ex: <http://ex.org/>

<S> {
  # who they know
  ex:knows IRI * ;  # any number
}".

Definition inline_record : CommentRecord :=
  {| c_comment := "# any number"; c_type := constraint;
     c_location := LocStr "  ex:knows IRI * ;" |}.

Lemma inline_record_extracted : inline_record ∈ comment_parser_helper commented_text.
Proof. apply list_elem_of_In. vm_compute. right. right. by left. Defined.

Lemma comment_parser_helper_records_witness :
  ∃ ahead line following pre,
    split LF commented_text = ahead ++ line :: following
    ∧ line = pre +:+ c_comment inline_record
    ∧ startswith "#" (lstrip (c_comment inline_record)) = true
    ∧ (c_type inline_record = general
       ↔ length ahead < position_start_line commented_text).
Proof.
  exact (comment_parser_helper_records commented_text inline_record
           inline_record_extracted).
Defined.

Lemma comment_parser_helper_locations_witness :
  ∃ i line,
    commented_lines commented_text !! 2 = Some (i, line)
    ∧ split LF commented_text !! i = Some line
    ∧ ((c_type inline_record = constraint
        ∧ strip (before_char HASH line) ≠ EmptyString
        ∧ c_location inline_record = LocStr (rstrip (before_char HASH line))
        ∧ rstrip (before_char HASH line) ≠ EmptyString)
       ∨ ((c_type inline_record = general ∨ strip (before_char HASH line) = EmptyString)
          ∧ anchored_after (drop (S i) (split LF commented_text))
              (c_location inline_record))).
Proof.
  apply (comment_parser_helper_locations commented_text 2 inline_record).
  vm_compute. reflexivity.
Defined.

Lemma comment_parser_helper_without_hash_witness :
  comment_parser_helper "PREFIX ex: <http://ex.org/>
<S> { ex:knows IRI * }" = [].
Proof.
  apply comment_parser_helper_without_hash. vm_compute. reflexivity.
Defined.

(** ** Removing lines *)

Lemma remove_lines_from_sublist i lines removed :
  remove_lines_from i lines removed `sublist_of` lines.
Proof.
  revert i. induction lines as [|l lines IH]; intros i; [done|].
  cbn [remove_lines_from]. case_bool_decide.
  - by apply sublist_cons.
  - by apply sublist_skip.
Qed.

Lemma remove_lines_from_in_range i lines removed removed' :
  (∀ n, (i ≤ n < i + Z.of_nat (length lines))%Z → n ∈ removed ↔ n ∈ removed') →
  remove_lines_from i lines removed = remove_lines_from i lines removed'.
Proof.
  revert i. induction lines as [|l lines IH]; intros i Hsame; [done|].
  cbn [remove_lines_from]. cbn [length] in Hsame.
  rewrite (IH (i + 1)%Z) by (intros n Hn; apply Hsame; lia).
  assert (i ∈ removed ↔ i ∈ removed') as Hi by (apply Hsame; lia).
  destruct (bool_decide_reflect (i ∈ removed)), (bool_decide_reflect (i ∈ removed'));
    tauto.
Qed.

Lemma remove_lines_from_length i lines removed :
  length (remove_lines_from i lines removed)
  = length (filter (λ n, n ∉ removed) (seqZ i (Z.of_nat (length lines)))).
Proof.
  revert i. induction lines as [|l lines IH]; intros i; [done|].
  cbn [remove_lines_from length]. rewrite Nat2Z.inj_succ, seqZ_cons by lia.
  rewrite Z.pred_succ, filter_cons. replace (Z.succ i) with (i + 1)%Z by lia.
  case_bool_decide.
  - rewrite decide_False by tauto. apply IH.
  - rewrite decide_True by done. cbn [length]. by rewrite IH.
Qed.

(** X6. [remove_lines] keeps, in their order, exactly the lines of
    [text.splitlines()] whose number from 1 is not listed, and joins them
    with line feeds. Numbers outside the text, repeats and the order of the
    list make no difference. *)
Theorem remove_lines_keeps_the_rest (text : string) (removed removed' : list Z) :
  ∃ kept,
    remove_lines text removed = join LF kept
    ∧ kept
      = (filter (λ numbered, numbered.1 ∉ removed)
           (zip (seqZ 1 (Z.of_nat (length (splitlines text)))) (splitlines text))).*2
    ∧ kept `sublist_of` splitlines text
    ∧ length kept
      = length (filter (λ n, n ∉ removed)
                  (seqZ 1 (Z.of_nat (length (splitlines text)))))
    ∧ ((∀ n, (1 ≤ n ≤ Z.of_nat (length (splitlines text)))%Z →
             n ∈ removed ↔ n ∈ removed') →
       remove_lines text removed = remove_lines text removed').
Proof.
  exists (remove_lines_from 1 (splitlines text) removed).
  split; [done|]. split; [apply remove_lines_from_enumerate|].
  split; [apply remove_lines_from_sublist|].
  split; [apply remove_lines_from_length|].
  intros Hsame. unfold remove_lines. f_equal.
  apply remove_lines_from_in_range. intros n Hn. apply Hsame. lia.
Qed.

(** A text whose only line breaks are line feeds, none of them the last
    character. *)
Fixpoint plain_lines (s : string) : bool :=
  match s with
  | EmptyString => true
  | String a s' =>
      if is_linebreak a
      then bool_decide (a = LF) && truthy s' && plain_lines s'
      else plain_lines s'
  end.

Lemma splitlines_nonempty s : s ≠ EmptyString → splitlines s ≠ [].
Proof.
  destruct s as [|a s]; [done|]. intros _. cbn [splitlines].
  destruct (is_linebreak a); [done|]. by destruct (splitlines s).
Qed.

Lemma join_splitlines s : plain_lines s = true → join LF (splitlines s) = s.
Proof.
  induction s as [|a s IH]; [done|]. cbn [plain_lines splitlines].
  destruct (is_linebreak a) eqn:Hbreak.
  - intros [[->%bool_decide_eq_true Hs]%andb_true_iff Hplain]%andb_true_iff.
    rewrite decide_False by done.
    assert (s ≠ EmptyString) as Hne by (by destruct s).
    pose proof (splitlines_nonempty s Hne) as Hlines.
    destruct (splitlines s) as [|h t] eqn:E; [done|].
    change (String LF (join LF (h :: t)) = String LF s). by rewrite IH.
  - intros Hplain. destruct (splitlines s) as [|h t] eqn:E.
    + destruct s as [|b s]; [done|]. by destruct (splitlines_nonempty (String b s)).
    + by rewrite join_cons_char, IH.
Qed.

(** X7. On a text whose only line breaks are line feeds, with no line feed
    at its end, removing no line of the text gives the text back. *)
Theorem remove_lines_nothing_removed (text : string) (removed : list Z) :
  plain_lines text = true →
  (∀ n, n ∈ removed → (n < 1 ∨ Z.of_nat (length (splitlines text)) < n)%Z) →
  remove_lines text removed = text.
Proof.
  intros Hplain Hout.
  assert (remove_lines text removed = remove_lines text []) as ->.
  { unfold remove_lines. f_equal. apply remove_lines_from_in_range.
    intros n Hn. split; [|by intros ?%not_elem_of_nil].
    intros Hin. destruct (Hout n Hin); lia. }
  unfold remove_lines.
  assert (∀ i lines, remove_lines_from i lines [] = lines) as Hall.
  { intros i lines. revert i. induction lines as [|l lines IH]; intros i; [done|].
    cbn [remove_lines_from]. rewrite bool_decide_false by apply not_elem_of_nil.
    by rewrite IH. }
  rewrite Hall. by apply join_splitlines.
Qed.

Lemma remove_lines_nothing_removed_witness :
  remove_lines "<S> {
  ex:p .
}" [0%Z; 7%Z] = "<S> {
  ex:p .
}".
Proof.
  apply remove_lines_nothing_removed; [vm_compute; reflexivity|].
  intros n Hn. apply list_elem_of_In in Hn. simpl in Hn.
  destruct Hn as [<-|[<-|[]]]; vm_compute; [left|right]; reflexivity.
Defined.

(** The line feed at the end of a text is lost even when no line is
    removed. *)
Example remove_lines_final_newline : remove_lines "<S> {}
" [] = "<S> {}".
Proof. reflexivity. Qed.

(** ** More on the comment reinserter *)

Lemma insert_comment_lines_unmatched lines cs :
  (∀ c, c ∈ cs → insert_comment lines c = lines) →
  insert_comment_lines lines cs = lines.
Proof.
  unfold insert_comment_lines. intros Hno.
  assert (∀ c, c ∈ reverse cs → insert_comment lines c = lines) as Hrev
    by (intros c Hc; apply Hno; by apply elem_of_reverse).
  clear Hno. induction (reverse cs) as [|c l IH]; [done|].
  cbn [foldl]. rewrite Hrev by left. apply IH. intros c' Hc'. apply Hrev. by right.
Qed.

(** X8. When no record is located at 0 and no line of the text equals the
    anchor of a record, as it stands or without trailing spaces and
    semicolons, [insert_comments] returns the text unchanged: every comment
    is dropped. *)
Theorem insert_comments_all_dropped (shexc_text : string) (cs : list CommentRecord) :
  (∀ c, c ∈ cs →
        c_location c ≠ LocInt 0
        ∧ ∀ a line, c_location c = LocStr a → line ∈ split LF shexc_text →
                    line ≠ a ∧ rstrip_by space_or_semicolon line ≠ a) →
  insert_comments shexc_text (Some cs) = shexc_text.
Proof.
  intros Hno. unfold insert_comments. destruct cs as [|c0 cs0] eqn:E; [done|].
  rewrite <- E in *. rewrite insert_comment_lines_unmatched; [apply join_split|].
  intros c Hc. destruct (Hno c Hc) as [Hzero Hmiss].
  unfold insert_comment. rewrite decide_False by done.
  apply insert_at_anchor_miss. intros line Hline.
  destruct (c_location c) as [n|a] eqn:Hloc; [done|].
  apply anchor_matches_str_false. by apply Hmiss.
Qed.

Lemma insert_comments_all_dropped_witness :
  insert_comments "<T> {
}" (Some [about_p; about_S]) = "<T> {
}".
Proof.
  apply insert_comments_all_dropped. intros c Hc.
  apply list_elem_of_In in Hc. simpl in Hc. destruct Hc as [<-|[<-|[]]].
  - split; [discriminate|]. intros a line [= <-] Hline.
    apply list_elem_of_In in Hline. vm_compute in Hline.
    destruct Hline as [<-|[<-|[]]]; by vm_compute.
  - split; [discriminate|]. intros a line [= <-] Hline.
    apply list_elem_of_In in Hline. vm_compute in Hline.
    destruct Hline as [<-|[<-|[]]]; by vm_compute.
Defined.

(** A record that makes a line of its own: it is located at 0 or it is a
    general record. *)
Definition own_line (c : CommentRecord) : bool :=
  bool_decide (c_location c = LocInt 0) || bool_decide (c_type c = general).

Lemma insert_at_anchor_length c lines :
  length lines ≤ length (insert_at_anchor c lines)
  ∧ length (insert_at_anchor c lines)
    ≤ length lines + (if bool_decide (c_type c = general) then 1 else 0).
Proof.
  induction lines as [|l lines [IH1 IH2]]; [simpl; lia|].
  cbn [insert_at_anchor]. destruct (anchor_matches (c_location c) l).
  - destruct (c_type c); cbn [length bool_decide decide_rel]; simpl; lia.
  - cbn [length]. lia.
Qed.

Lemma insert_comment_length lines c :
  length lines ≤ length (insert_comment lines c)
  ∧ length (insert_comment lines c) ≤ length lines + (if own_line c then 1 else 0).
Proof.
  unfold insert_comment, own_line. destruct (decide (c_location c = LocInt 0)) as [E|E].
  - rewrite bool_decide_true by done. simpl. lia.
  - rewrite bool_decide_false by done. cbn [orb]. apply insert_at_anchor_length.
Qed.

(** ** The base declaration *)











(** A line with the word and the brackets but nothing between them is no
    base declaration, and the last [>] of the line closes the base. *)
Example base_uri_parser_helper_edges :
  base_uri_parser_helper "BASE <>" = None
  ∧ base_uri_parser_helper "BASE <http://a/> # <b>" = Some "http://a/> # <b"
  ∧ base_uri_parser_helper " BASE <http://a/>" = None.
Proof. repeat split. Qed.

(** ** More on the converter *)

Definition is_evaluation (e : event) : bool :=
  match e with Evaluated _ => true | LoggedError _ => false end.

Section ConverterOutcomes.
Context `{Collaborators}.

(** X11. The converter runs the engine first on the text as given and at
    most twice in all. It does not run it again when the first run gave a
    schema, whatever errors came with it, nor when the first run gave
    neither schema nor errors. Either it logs the failure and returns the
    empty text without base, namespaces and comments, or it logs nothing
    and returns both namespaces and comments. *)
Theorem shexc_to_shexj_outcomes (shexc_text : string) :
  let r := shexc_to_shexj shexc_text in
  (∃ rest, r.2 = Evaluated shexc_text :: rest)
  ∧ length (filter (λ e, is_evaluation e) r.2) ≤ 2
  ∧ (∀ schema, (ShExEvaluator shexc_text).1 = Some schema →
               r.2 = [Evaluated shexc_text] ∧ r.1.1.1.1 = as_json schema)
  ∧ ((ShExEvaluator shexc_text).2 = [] →
     filter (λ e, is_evaluation e) r.2 = [Evaluated shexc_text])
  ∧ ((r.1 = (EmptyString, None, None, None)
      ∧ LoggedError "Unable to parse the file!" ∈ r.2)
     ∨ (r.1.1.2 ≠ None ∧ r.1.2 ≠ None ∧ Forall (λ e, is_evaluation e) r.2)).
Proof.
  cbv zeta. unfold shexc_to_shexj.
  destruct (ShExEvaluator shexc_text) as [[schema|] [|e errors]] eqn:Hfirst;
    cbn [fst snd].
  - split; [by eexists|]. split; [simpl; lia|]. split; [by intros ? [= <-]|].
    split; [done|]. right. by repeat constructor.
  - split; [by eexists|]. split; [simpl; lia|]. split; [by intros ? [= <-]|].
    split; [done|]. right. by repeat constructor.
  - split; [by eexists|]. split; [simpl; lia|]. split; [done|]. split; [done|].
    left. split; [done|]. by right; left.
  - destruct (ShExEvaluator _).1 as [schema'|];
      (split; [by eexists|]); (split; [simpl; lia|]); (split; [done|]);
      (split; [done|]).
    + right. by repeat constructor.
    + left. split; [done|]. by right; right; left.
Qed.

End ConverterOutcomes.

(** ** Printing a tree *)

(** The label sequences from a node down to each of its leaves, from left
    to right. *)
Fixpoint root_paths (t : ShapeNode) : list (list string) :=
  match t with
  | ShapeNode_ l cs =>
      match cs with
      | [] => [[l]]
      | _ => (l ::.) <$> mjoin (root_paths <$> cs)
      end
  end.

Lemma removelast_snoc {A} (l : list A) x : removelast (l ++ [x]) = l.
Proof. induction l as [|y l IH]; [done|]. simpl. rewrite IH. by destruct l. Qed.

Lemma collect_paths_spec t current_path paths :
  collect_paths t current_path paths
  = (current_path, paths ++ ((current_path ++.) <$> root_paths t)).
Proof.
  revert current_path paths. induction t as [l cs IH] using ShapeNode_ind.
  intros cp paths. cbn [collect_paths root_paths].
  destruct cs as [|c cs]; [cbn [fst snd]; by rewrite removelast_snoc|].
  set (each := fix each (cs : list ShapeNode) (st : list string * list (list string)) :=
         match cs with
         | [] => st
         | child :: rest => each rest (collect_paths child st.1 st.2)
         end).
  assert (∀ cs' ps, Forall (λ c, ∀ cp ps, collect_paths c cp ps
                                = (cp, ps ++ ((cp ++.) <$> root_paths c))) cs' →
            each cs' (cp ++ [l], ps)
            = (cp ++ [l], ps ++ (((cp ++ [l]) ++.) <$> mjoin (root_paths <$> cs'))))
    as Heach.
  { induction cs' as [|c' cs' IHcs]; intros ps Hall.
    - simpl. by rewrite app_nil_r.
    - apply Forall_cons in Hall as [Hc Hall]. cbn [each fst snd].
      rewrite Hc, IHcs by done. f_equal.
      rewrite fmap_cons. cbn [mjoin list_join]. by rewrite fmap_app, app_assoc. }
  apply Forall_cons in IH as [Hc Hcs].
  rewrite Hc. cbn [fst snd]. rewrite (Heach cs _ Hcs). cbn [fst snd].
  rewrite removelast_snoc. f_equal.
  rewrite fmap_cons. cbn [mjoin list_join]. rewrite <- app_assoc. f_equal.
  rewrite <- fmap_app, <- !list_fmap_compose. apply list_fmap_ext.
  intros i p _. simpl. by rewrite <- app_assoc.
Qed.

Lemma root_paths_heads t : Forall (λ p, head p = Some (label t)) (root_paths t).
Proof.
  destruct t as [l [|c cs]]; cbn [root_paths label]; [by repeat constructor|].
  apply Forall_fmap. by apply Forall_forall.
Qed.

Lemma root_paths_nonempty t : root_paths t ≠ [].
Proof.
  induction t as [l cs IH] using ShapeNode_ind. cbn [root_paths].
  destruct cs as [|c cs]; [done|]. apply Forall_cons in IH as [Hc _].
  rewrite fmap_cons. cbn [mjoin list_join]. destruct (root_paths c); [done|]. done.
Qed.

(** X12. [collect_paths] hands [current_path] back as it received it and
    appends to [paths], from left to right, one entry for each leaf: the
    received path followed by the labels from the node to that leaf. So
    [__str__] prints at least one line, and every line starts with the root
    label. *)
Theorem collect_paths_backtracks (t : ShapeNode) (current_path : list string)
    (paths : list (list string)) :
  collect_paths t current_path paths
  = (current_path, paths ++ ((current_path ++.) <$> root_paths t))
  ∧ to_str t = join LF (join_str " -> " <$> root_paths t)
  ∧ root_paths t ≠ []
  ∧ Forall (λ p, head p = Some (label t)) (root_paths t).
Proof.
  split; [apply collect_paths_spec|]. split.
  - unfold to_str. rewrite collect_paths_spec. cbn [snd app]. do 2 f_equal.
    rewrite <- (list_fmap_id (root_paths t)) at 2. by apply list_fmap_ext.
  - split; [apply root_paths_nonempty|apply root_paths_heads].
Qed.

Example to_str_ex :
  to_str (ShapeNode_ "Person"
            [ShapeNode_ "knows" [ShapeNode_ "IRI" [leaf "*"]];
             ShapeNode_ "name" [ShapeNode_ "LITERAL" [leaf "{1,1}"]]])
  = "Person -> knows -> IRI -> *
Person -> name -> LITERAL -> {1,1}".
Proof. reflexivity. Qed.

(** ** More on the sibling ordering *)

Lemma node_count_sort_children {K} (ltb : K → K → bool) key t :
  node_count (sort_children ltb key t) = node_count t.
Proof.
  induction t as [l cs IH] using ShapeNode_ind.
  rewrite sort_children_unfold. cbn [node_count]. f_equal.
  rewrite <- list_fmap_compose.
  rewrite <- (list_sort_perm ltb key cs) in IH.
  rewrite <- (list_sort_perm ltb key cs) at 2.
  f_equal. apply list_fmap_ext. intros i c Hc. simpl.
  rewrite Forall_forall in IH. apply IH. by eapply list_elem_of_lookup_2.
Qed.

(** X13. Sorting moves nodes and nothing else: for every key the sorted
    tree has the label, the number of children and the number of nodes of
    the tree it came from, and the labels of the children of the root are
    the same up to their order. *)
Theorem sort_children_keeps_the_nodes {K} (ltb : K → K → bool)
    (key : ShapeNode → K) (t : ShapeNode) :
  label (sort_children ltb key t) = label t
  ∧ len (sort_children ltb key t) = len t
  ∧ node_count (sort_children ltb key t) = node_count t
  ∧ labels_of (children (sort_children ltb key t)) ≡ₚ labels_of (children t).
Proof.
  split; [apply label_sort_children|]. split; [apply len_sort_children|].
  split; [apply node_count_sort_children|apply labels_sort_children].
Qed.

Lemma sort_keyed_of_sorted {K A} (ltb : K → K → bool) (l : list (K * A)) :
  StronglySorted (keys_le ltb) l → sort_keyed ltb l = l.
Proof.
  induction 1 as [|x l Hl IH Hx]; [done|].
  rewrite sort_keyed_cons, IH. destruct l as [|y l']; [done|].
  cbn [insert_keyed]. apply Forall_cons in Hx as [Hxy _].
  unfold keys_le in Hxy. by rewrite Hxy.
Qed.

Lemma list_sort_of_sorted {K A} (ltb : K → K → bool) (key : A → K) (l : list A) :
  StronglySorted (λ x y, ltb (key y) (key x) = false) l → list_sort ltb key l = l.
Proof.
  intros Hl. unfold list_sort. rewrite sort_keyed_of_sorted.
  - rewrite <- list_fmap_compose. by rewrite list_fmap_id.
  - eapply StronglySorted_fmap; [|exact Hl]. done.
Qed.

Lemma sort_children_idempotent other t :
  sort_children key_ltb (sort_key other) (sort_children key_ltb (sort_key other) t)
  = sort_children key_ltb (sort_key other) t.
Proof.
  induction t as [l cs IH] using ShapeNode_ind.
  rewrite !sort_children_unfold. f_equal.
  rewrite list_sort_of_sorted.
  - rewrite <- list_fmap_compose. apply list_fmap_ext. intros i c Hc. simpl.
    rewrite Forall_forall in IH. apply IH.
    rewrite <- (list_sort_perm key_ltb (sort_key other) cs).
    by eapply list_elem_of_lookup_2.
  - eapply StronglySorted_fmap;
      [|apply (list_sort_sorted key_ltb key_ltb_asym key_ltb_trans)].
    intros x y Hxy. simpl in *. unfold sort_key in *.
    by rewrite !label_sort_children.
Qed.

(** X14. The two sorts of [compute_tree_edit_distance] leave a pair of
    trees that they do not change again, so the distance of the sorted
    trees is the distance already computed. *)
Theorem sorted_pair_idempotent (tree_1 tree_2 : ShapeNode) :
  sorted_pair (sorted_pair tree_1 tree_2).1 (sorted_pair tree_1 tree_2).2
  = sorted_pair tree_1 tree_2
  ∧ compute_tree_edit_distance (sorted_pair tree_1 tree_2).1 (sorted_pair tree_1 tree_2).2
    = compute_tree_edit_distance tree_1 tree_2.
Proof.
  assert (sorted_pair (sorted_pair tree_1 tree_2).1 (sorted_pair tree_1 tree_2).2
          = sorted_pair tree_1 tree_2) as Hpair.
  { rewrite !sorted_pair_eq. cbn [fst snd]. f_equal.
    - rewrite (sort_children_ext _ _ (sort_key tree_2)) by apply sort_key_sorted.
      apply sort_children_idempotent.
    - rewrite (sort_children_ext _ _ (sort_key tree_1)) by apply sort_key_sorted.
      apply sort_children_idempotent. }
  split; [done|]. unfold compute_tree_edit_distance. by rewrite Hpair.
Qed.

Lemma NoDup_fmap_eq {A B} (f : A → B) (l : list A) x y :
  NoDup (f <$> l) → x ∈ l → y ∈ l → f x = f y → x = y.
Proof.
  induction l as [|z l IH]; [by intros _ ?%not_elem_of_nil|].
  rewrite fmap_cons, NoDup_cons.
  intros [Hz Hl] [->|Hx]%elem_of_cons [->|Hy]%elem_of_cons Hf; [done| | |by apply IH].
  - destruct Hz. rewrite Hf. by apply list_elem_of_fmap_2.
  - destruct Hz. rewrite <- Hf. by apply list_elem_of_fmap_2.
Qed.

Lemma list_sort_order_free other (cs cs' : list ShapeNode) :
  cs ≡ₚ cs' → NoDup (label <$> cs) →
  list_sort key_ltb (sort_key other) cs = list_sort key_ltb (sort_key other) cs'.
Proof.
  intros Hperm Hdup.
  eapply (StronglySorted_unique_strong
            (λ x y, key_ltb (sort_key other y) (sort_key other x) = false)).
  - intros x y Hx Hy Hxy Hyx.
    rewrite list_sort_perm in Hx. rewrite list_sort_perm, <- Hperm in Hy.
    apply (NoDup_fmap_eq label cs); [done..|].
    apply sort_key_before in Hxy, Hyx. unfold before in *.
    destruct Hxy as [[? ?]|[? Hle]], Hyx as [[? ?]|[? Hge]]; try tauto.
    by apply (anti_symm String.le).
  - apply (list_sort_sorted key_ltb key_ltb_asym key_ltb_trans).
  - apply (list_sort_sorted key_ltb key_ltb_asym key_ltb_trans).
  - by rewrite !list_sort_perm.
Qed.

Lemma sort_key_perm l cs cs' x :
  cs ≡ₚ cs' → sort_key (ShapeNode_ l cs) x = sort_key (ShapeNode_ l cs') x.
Proof.
  intros Hperm. unfold sort_key, labels_of. cbn [children].
  by rewrite (bool_decide_ext (label x ∈ label <$> cs) (label x ∈ label <$> cs'))
    by (by rewrite Hperm).
Qed.

(** X15. For trees as the builder makes them, chains under the root, with
    pairwise different predicate labels, the sorted pair and so the
    distance do not depend on the order in which the constraints were
    listed in either tree. *)
Theorem sorted_pair_order_free (l m : string) (cs1 cs1' cs2 cs2' : list ShapeNode) :
  Forall is_chain cs1 → Forall is_chain cs2 →
  NoDup (label <$> cs1) → NoDup (label <$> cs2) →
  cs1 ≡ₚ cs1' → cs2 ≡ₚ cs2' →
  sorted_pair (ShapeNode_ l cs1) (ShapeNode_ m cs2)
  = sorted_pair (ShapeNode_ l cs1') (ShapeNode_ m cs2')
  ∧ compute_tree_edit_distance (ShapeNode_ l cs1) (ShapeNode_ m cs2)
    = compute_tree_edit_distance (ShapeNode_ l cs1') (ShapeNode_ m cs2').
Proof.
  intros Hc1 Hc2 Hd1 Hd2 Hp1 Hp2.
  assert (sorted_pair (ShapeNode_ l cs1) (ShapeNode_ m cs2)
          = sorted_pair (ShapeNode_ l cs1') (ShapeNode_ m cs2')) as Hpair.
  { rewrite !sorted_pair_eq.
    assert (Forall is_chain cs1') as Hc1' by (by rewrite <- Hp1).
    assert (Forall is_chain cs2') as Hc2' by (by rewrite <- Hp2).
    rewrite !sort_children_chains by done. f_equal; f_equal.
    - rewrite <- (list_sort_order_free _ cs1 cs1') by done.
      apply list_sort_ext. intros x _. by apply sort_key_perm.
    - rewrite <- (list_sort_order_free _ cs2 cs2') by done.
      apply list_sort_ext. intros x _. by apply sort_key_perm. }
  split; [done|]. unfold compute_tree_edit_distance. by rewrite Hpair.
Qed.

Definition knows_chain : ShapeNode := ShapeNode_ "knows" [ShapeNode_ "IRI" [leaf "*"]].
Definition name_chain : ShapeNode :=
  ShapeNode_ "name" [ShapeNode_ "LITERAL" [leaf "{1,1}"]].

Lemma sorted_pair_order_free_witness :
  sorted_pair (ShapeNode_ "Person" [knows_chain; name_chain])
    (ShapeNode_ "Person" [name_chain])
  = sorted_pair (ShapeNode_ "Person" [name_chain; knows_chain])
      (ShapeNode_ "Person" [name_chain])
  ∧ compute_tree_edit_distance (ShapeNode_ "Person" [knows_chain; name_chain])
      (ShapeNode_ "Person" [name_chain])
    = compute_tree_edit_distance (ShapeNode_ "Person" [name_chain; knows_chain])
        (ShapeNode_ "Person" [name_chain]).
Proof.
  apply sorted_pair_order_free.
  - repeat constructor; by eexists _, _, _.
  - repeat constructor; by eexists _, _, _.
  - apply (bool_decide_unpack _). by vm_compute.
  - apply (bool_decide_unpack _). by vm_compute.
  - apply Permutation_swap.
  - reflexivity.
Defined.

(** ** The tree and the graph of a schema *)

(** Every node carries its own name as its label, and every edge carries
    the names of its end points, which are nodes. *)
Definition well_labelled (g : DiGraph) : Prop :=
  (∀ n a, nodes g !! n = Some a → a = Some n)
  ∧ (∀ u v l, edges g !! (u, v) = Some l →
       l = u +:+ " " +:+ v ∧ is_Some (nodes g !! u) ∧ is_Some (nodes g !! v)).

Definition number_of_edges (g : DiGraph) : nat := size (edges g).

Lemma size_insert_le `{Countable K} {A} (k : K) (a : A) (m : gmap K A) :
  size (<[k := a]> m) ≤ S (size m).
Proof. rewrite map_size_insert. destruct (m !! k); simpl; lia. Qed.

Lemma ensure_node_present n (ns : gmap string (option string)) :
  is_Some (ns !! n) → ensure_node n ns = ns.
Proof. intros [a Ha]. unfold ensure_node. by rewrite Ha. Qed.

Lemma add_node_present n m g :
  is_Some (nodes g !! m) → is_Some (nodes (add_node n n g) !! m).
Proof.
  intros Hm. simpl. destruct (decide (n = m)) as [->|Hne].
  - rewrite lookup_insert_eq. by eexists.
  - by rewrite lookup_insert_ne.
Qed.

Lemma add_node_self n g : is_Some (nodes (add_node n n g) !! n).
Proof. simpl. rewrite lookup_insert_eq. by eexists. Qed.

Lemma well_labelled_add_node n g :
  well_labelled g → well_labelled (add_node n n g).
Proof.
  intros [Hn He]. split.
  - intros m a. simpl. destruct (decide (n = m)) as [->|Hne].
    + rewrite lookup_insert_eq. by intros [= <-].
    + rewrite lookup_insert_ne by done. apply Hn.
  - intros u v l Hl. simpl in Hl. destruct (He u v l Hl) as (-> & Hu & Hv).
    split; [done|]. split; by apply add_node_present.
Qed.

Lemma add_edge_between_nodes u v g :
  is_Some (nodes g !! u) → is_Some (nodes g !! v) →
  add_edge u v (u +:+ " " +:+ v) g
  = {| nodes := nodes g; edges := <[(u, v) := u +:+ " " +:+ v]> (edges g) |}.
Proof.
  intros Hu Hv. unfold add_edge. f_equal.
  rewrite (ensure_node_present u) by done. by apply ensure_node_present.
Qed.

Lemma well_labelled_add_edge u v g :
  well_labelled g → is_Some (nodes g !! u) → is_Some (nodes g !! v) →
  well_labelled (add_edge u v (u +:+ " " +:+ v) g).
Proof.
  intros [Hn He] Hu Hv. rewrite add_edge_between_nodes by done. split; [done|].
  intros u' v' l. simpl. destruct (decide ((u, v) = (u', v'))) as [[= <- <-]|Hne].
  - rewrite lookup_insert_eq. by intros [= <-].
  - rewrite lookup_insert_ne by done. apply He.
Qed.

Section GraphInvariant.
Context {TC : Type} `{LabelHelpers TC}.

(** What one round of the loop keeps and adds. *)
Lemma graph_step_invariant shapes sid g tc g' :
  graph_step shapes sid g tc = Ok g' →
  is_Some (nodes g !! sid) → well_labelled g →
  is_Some (nodes g' !! sid) ∧ well_labelled g'
  ∧ number_of_nodes g' ≤ number_of_nodes g + 3
  ∧ number_of_edges g' ≤ number_of_edges g + 3.
Proof.
  unfold graph_step. destruct (get_predicate_node_label tc) as [p|]; [|done].
  set (n := get_node_constraint_node_label tc shapes sid).
  set (c := get_cardinality_node_label tc).
  intros [= <-] Hsid Hwl.
  set (g1 := add_node p p g).
  assert (is_Some (nodes g1 !! sid)) as Hs1 by (by apply add_node_present).
  assert (is_Some (nodes g1 !! p)) as Hp1 by apply add_node_self.
  assert (well_labelled g1) as Hw1 by (by apply well_labelled_add_node).
  rewrite (add_edge_between_nodes sid p g1) by done.
  set (g2 := {| nodes := nodes g1; edges := <[(sid, p) := sid +:+ " " +:+ p]> (edges g1) |}).
  assert (well_labelled g2) as Hw2.
  { unfold g2. rewrite <- add_edge_between_nodes by done.
    by apply well_labelled_add_edge. }
  set (g3 := add_node n n g2).
  assert (is_Some (nodes g3 !! sid)) as Hs3 by (by apply add_node_present).
  assert (is_Some (nodes g3 !! p)) as Hp3 by (by apply add_node_present).
  assert (is_Some (nodes g3 !! n)) as Hn3 by apply add_node_self.
  assert (well_labelled g3) as Hw3 by (by apply well_labelled_add_node).
  rewrite (add_edge_between_nodes p n g3) by done.
  set (g4 := {| nodes := nodes g3; edges := <[(p, n) := p +:+ " " +:+ n]> (edges g3) |}).
  assert (well_labelled g4) as Hw4.
  { unfold g4. rewrite <- add_edge_between_nodes by done.
    by apply well_labelled_add_edge. }
  set (g5 := add_node c c g4).
  assert (is_Some (nodes g5 !! sid)) as Hs5 by (by apply add_node_present).
  assert (is_Some (nodes g5 !! n)) as Hn5 by (by apply add_node_present).
  assert (is_Some (nodes g5 !! c)) as Hc5 by apply add_node_self.
  assert (well_labelled g5) as Hw5 by (by apply well_labelled_add_node).
  rewrite (add_edge_between_nodes n c g5) by done.
  split; [done|]. split.
  { rewrite <- add_edge_between_nodes by done. by apply well_labelled_add_edge. }
  unfold number_of_nodes, number_of_edges. cbn [nodes edges add_node g5 g4 g3 g2 g1].
  split.
  - pose proof (size_insert_le c (Some c) (<[n := Some n]> (<[p := Some p]> (nodes g)))).
    pose proof (size_insert_le n (Some n) (<[p := Some p]> (nodes g))).
    pose proof (size_insert_le p (Some p) (nodes g)). lia.
  - pose proof (size_insert_le (n, c) (n +:+ " " +:+ c)
                  (<[(p, n) := p +:+ " " +:+ n]> (<[(sid, p) := sid +:+ " " +:+ p]> (edges g)))).
    pose proof (size_insert_le (p, n) (p +:+ " " +:+ n)
                  (<[(sid, p) := sid +:+ " " +:+ p]> (edges g))).
    pose proof (size_insert_le (sid, p) (sid +:+ " " +:+ p) (edges g)). lia.
Qed.

Lemma graph_loop_invariant shapes sid tcs g g' :
  graph_loop shapes sid g tcs = Ok g' →
  is_Some (nodes g !! sid) → well_labelled g →
  is_Some (nodes g' !! sid) ∧ well_labelled g'
  ∧ number_of_nodes g' ≤ number_of_nodes g + 3 * length tcs
  ∧ number_of_edges g' ≤ number_of_edges g + 3 * length tcs.
Proof.
  revert g. induction tcs as [|tc tcs IH]; intros g.
  - intros [= <-] ??. split; [done|]. split; [done|]. simpl. lia.
  - cbn [graph_loop]. destruct (graph_step shapes sid g tc) as [g1|e] eqn:Hstep; [|done].
    cbn [bind]. intros Hloop Hsid Hwl.
    destruct (graph_step_invariant _ _ _ _ _ Hstep Hsid Hwl) as (Hs1 & Hw1 & Hn1 & He1).
    destruct (IH _ Hloop Hs1 Hw1) as (Hs' & Hw' & Hn' & He').
    split; [done|]. split; [done|]. cbn [length]. lia.
Qed.

Lemma graph_loop_succeeds shapes sid tcs g :
  (∃ g', graph_loop shapes sid g tcs = Ok g')
  ↔ Forall (λ tc, is_Some (get_predicate_node_label tc)) tcs.
Proof.
  revert g. induction tcs as [|tc tcs IH]; intros g.
  - split; [constructor|by eexists].
  - cbn [graph_loop]. rewrite Forall_cons. unfold graph_step at 1.
    destruct (get_predicate_node_label tc) as [p|]; cbn [bind].
    + rewrite IH. split; [by split|by intros [_ ?]].
    + split; [by intros [? ?]|by intros [[? [=]] _]].
Qed.

Lemma graph_loop_error shapes sid tcs g e :
  graph_loop shapes sid g tcs = Raise e → e = ValueError.
Proof.
  revert g. induction tcs as [|tc tcs IH]; intros g; [done|].
  cbn [graph_loop]. unfold graph_step at 1.
  destruct (get_predicate_node_label tc) as [p|]; cbn [bind]; [apply IH|by intros [= <-]].
Qed.

(** X16. In every graph [transform_schema_to_graph] returns, the root is
    the start entry of the schema and is a node, every node carries its
    own name as its label, every edge joins two nodes and is labelled with
    their names, and there are at most one node more than three per entry
    of the start shape and at most three edges per entry. *)
Theorem transform_schema_to_graph_well_labelled (schema : SchemaJ TC)
    (root : string) (g : DiGraph) :
  transform_schema_to_graph schema = Ok (root, g) →
  start schema = Some root
  ∧ is_Some (nodes g !! root)
  ∧ well_labelled g
  ∧ ∃ start_shape,
      get_shapes_dict schema !! root = Some start_shape
      ∧ number_of_nodes g ≤ 1 + 3 * length (default [] (constraints_of start_shape))
      ∧ number_of_edges g ≤ 3 * length (default [] (constraints_of start_shape)).
Proof.
  unfold transform_schema_to_graph.
  destruct (start schema) as [s|]; [|done]. cbn [bind]. unfold getitem.
  destruct (get_shapes_dict schema !! s) as [start_shape|] eqn:Hshape; [|done].
  cbn [bind].
  assert (is_Some (nodes (add_node s s empty_graph) !! s)) as Hs by apply add_node_self.
  assert (well_labelled (add_node s s empty_graph)) as Hw.
  { apply well_labelled_add_node. split; intros *; simpl; by rewrite lookup_empty. }
  destruct (constraints_of start_shape) as [tcs|] eqn:Hc.
  - destruct (graph_loop _ s _ tcs) as [g'|e] eqn:Hloop; [|done].
    cbn [bind]. intros [= <- <-].
    destruct (graph_loop_invariant _ _ _ _ _ Hloop Hs Hw) as (Hs' & Hw' & Hn & He).
    split; [done|]. split; [done|]. split; [done|].
    exists start_shape. split; [done|]. rewrite Hc. cbn [default from_option].
    unfold number_of_nodes, number_of_edges in *. simpl in Hn, He.
    rewrite map_size_insert_None, map_size_empty in Hn by apply lookup_empty.
    rewrite map_size_empty in He. unfold Datatypes.id. split; lia.
  - intros [= <- <-]. split; [done|]. split; [done|]. split; [done|].
    exists start_shape. split; [done|]. rewrite Hc.
    unfold number_of_nodes, number_of_edges. simpl.
    rewrite map_size_insert_None, !map_size_empty by apply lookup_empty.
    simpl. split; lia.
Qed.

(** X17. [transform_schema_to_graph] returns a graph exactly when the
    schema has a start entry that names a declared shape and no entry of
    that shape lacks a predicate label; it has no fallback to the first
    shape and skips no entry: every failure is a [KeyError] or a
    [ValueError], while [transform_schema_to_tree] returns a tree for
    every schema that declares a shape. *)
Theorem transform_schema_to_graph_succeeds (schema : SchemaJ TC) :
  (∀ root, (∃ g, transform_schema_to_graph schema = Ok (root, g))
           ↔ start schema = Some root
             ∧ ∃ start_shape,
                 get_shapes_dict schema !! root = Some start_shape
                 ∧ Forall (λ tc, is_Some (get_predicate_node_label tc))
                     (default [] (constraints_of start_shape)))
  ∧ (∀ e, transform_schema_to_graph schema = Raise e → e = KeyError ∨ e = ValueError)
  ∧ (∀ shape_id, shapes schema ≠ [] →
       ∃ t, transform_schema_to_tree schema shape_id = Ok t).
Proof.
  split; [|split].
  - intros root. split.
    + intros [g Hg]. unfold transform_schema_to_graph in Hg.
      destruct (start schema) as [s|]; [|done]. cbn [bind] in Hg. unfold getitem in Hg.
      destruct (get_shapes_dict schema !! s) as [start_shape|] eqn:Hshape; [|done].
      cbn [bind] in Hg.
      assert (s = root
              ∧ Forall (λ tc, is_Some (get_predicate_node_label tc))
                  (default [] (constraints_of start_shape))) as [<- Hall].
      { destruct (constraints_of start_shape) as [tcs|].
        - destruct (graph_loop _ s _ tcs) as [g'|e] eqn:Hloop; [|done].
          injection Hg as <- _. split; [done|].
          apply (graph_loop_succeeds (get_shapes_dict schema) s tcs
                   (add_node s s empty_graph)). by eexists.
        - injection Hg as <- _. split; [done|constructor]. }
      split; [done|]. by exists start_shape.
    + intros [Hstart (start_shape & Hshape & Hall)]. unfold transform_schema_to_graph.
      rewrite Hstart. cbn [bind]. unfold getitem. rewrite Hshape. cbn [bind].
      destruct (constraints_of start_shape) as [tcs|]; cbn [default from_option] in Hall.
      * apply (graph_loop_succeeds (get_shapes_dict schema) root tcs
                 (add_node root root empty_graph)) in Hall as [g' ->]. by eexists.
      * by eexists.
  - intros e. unfold transform_schema_to_graph.
    destruct (start schema) as [s|]; cbn [bind]; [|intros [= <-]; by left].
    unfold getitem. destruct (get_shapes_dict schema !! s) as [start_shape|];
      cbn [bind]; [|intros [= <-]; by left].
    destruct (constraints_of start_shape) as [tcs|]; [|done].
    destruct (graph_loop _ s _ tcs) as [g'|e'] eqn:Hloop; [done|].
    cbn [bind]. intros [= <-]. right. by eapply graph_loop_error.
  - intros shape_id Hsome. by apply transform_schema_to_tree_total.
Qed.

(** X18. Every tree [transform_schema_to_tree] returns has three nodes per
    child of its root and the root: the divisor [3 * len(tree)] of the
    normalized distance is the number of nodes below the root. *)
Theorem transform_schema_to_tree_node_count (schema : SchemaJ TC) (shape_id : string)
    (t : ShapeNode) :
  transform_schema_to_tree schema shape_id = Ok t →
  node_count t = 1 + 3 * len t.
Proof.
  intros Ht.
  destruct (resolve_start schema shape_id) as [[resolved_id start_shape]|e] eqn:Hres.
  - rewrite (transform_schema_to_tree_resolved _ _ _ _ Hres) in Ht. injection Ht as <-.
    pose proof (omap_chain_shape (get_shapes_dict schema) resolved_id
                  (default [] (constraints_of start_shape))) as Hchains.
    unfold len. cbn [node_count children]. f_equal.
    induction Hchains as [|c cs (p & n & k & ->) _ IH]; [done|].
    rewrite fmap_cons. cbn [sum_list_with length]. rewrite IH. simpl. lia.
  - unfold transform_schema_to_tree in Ht. by rewrite Hres in Ht.
Qed.
End GraphInvariant.

(** The graph of [Toy.person_true], call by call. *)
Definition person_graph : DiGraph :=
  add_edge "IRI" "*" "IRI *"
    (add_node "*" "*"
       (add_edge "knows" "IRI" "knows IRI"
          (add_node "IRI" "IRI"
             (add_edge "Person" "knows" "Person knows"
                (add_node "knows" "knows"
                   (add_node "Person" "Person" empty_graph)))))).

Lemma transform_schema_to_graph_well_labelled_witness :
  start Toy.person_true = Some "Person"
  ∧ is_Some (nodes person_graph !! "Person")
  ∧ well_labelled person_graph
  ∧ ∃ start_shape,
      get_shapes_dict Toy.person_true !! "Person" = Some start_shape
      ∧ number_of_nodes person_graph
        ≤ 1 + 3 * length (default [] (constraints_of start_shape))
      ∧ number_of_edges person_graph
        ≤ 3 * length (default [] (constraints_of start_shape)).
Proof.
  apply (transform_schema_to_graph_well_labelled (H := Toy.label_helpers)
           Toy.person_true).
  vm_compute. reflexivity.
Defined.

Lemma transform_schema_to_tree_node_count_witness :
  node_count (ShapeNode_ "Person" [ShapeNode_ "knows" [ShapeNode_ "IRI" [leaf "*"]]])
  = 1 + 3 * len (ShapeNode_ "Person" [ShapeNode_ "knows" [ShapeNode_ "IRI" [leaf "*"]]]).
Proof.
  apply (transform_schema_to_tree_node_count (H := Toy.label_helpers)
           Toy.person_true "Person").
  vm_compute. reflexivity.
Defined.

(** A schema without a start entry, with an entry that is no triple
    constraint: no graph, and a tree of the constraint that remains. *)
Example graph_raises_where_tree_returns :
  let schema : SchemaJ Toy.labelled :=
    {| start := None;
       shapes :=
         [ {| id := "Person";
              expression :=
                Some {| expressions :=
                          Some [ {| Toy.predicate := None; Toy.valueExpr := "IRI";
                                    Toy.cardinality := "*" |};
                                 {| Toy.predicate := Some "knows"; Toy.valueExpr := "IRI";
                                    Toy.cardinality := "*" |} ] |} |} ] |} in
  transform_schema_to_graph (H := Toy.label_helpers) schema = Raise KeyError
  ∧ transform_schema_to_graph (H := Toy.label_helpers)
      {| start := Some "Person"; shapes := shapes schema |} = Raise ValueError
  ∧ transform_schema_to_tree (H := Toy.label_helpers) schema "Human"
    = Ok (ShapeNode_ "Person" [ShapeNode_ "knows" [ShapeNode_ "IRI" [leaf "*"]]]).
Proof. vm_compute. done. Qed.

(** ** More on the evaluator *)

Section EvaluatorMore.
Context {TC : Type} `{LabelHelpers TC} `{Environment TC} `{Parser.Collaborators}.

(** The classes of a batch whose predicted file exists. *)
Definition with_prediction (predicted_dir : string) (classes : list (string * string))
    : list (string * string) :=
  filter (λ c, path_exists (shex_path predicted_dir c.1) = true) classes.

Lemma evaluate_loop_with_prediction dataset gd pd classes teds nteds :
  (∀ c, c ∈ classes → path_exists (shex_path pd c.1) = false →
        ∃ t, load_tree (shex_path gd c.1) (shape_id_of dataset c.2) = Ok t) →
  evaluate_loop dataset gd pd classes teds nteds
  = evaluate_loop dataset gd pd (with_prediction pd classes) teds nteds.
Proof.
  revert teds nteds. induction classes as [|[url lab] classes IH]; intros teds nteds Hload;
    [done|].
  unfold with_prediction. rewrite filter_cons. cbn [fst].
  destruct (path_exists (shex_path pd url)) eqn:Hex.
  - rewrite decide_True by done. cbn [evaluate_loop]. rewrite Hex. cbn [negb].
    destruct (load_tree (shex_path gd url) (shape_id_of dataset lab)); [|done].
    cbn [bind].
    destruct (load_tree (shex_path pd url) (shape_id_of dataset lab)); [|done].
    cbn [bind]. apply IH. intros c Hc. apply Hload. by right.
  - rewrite decide_False by done. cbn [evaluate_loop]. rewrite Hex. cbn [negb].
    destruct (Hload (url, lab)) as [t Ht]; [left|done|]. cbn [fst snd] in Ht.
    rewrite Ht. cbn [bind]. apply IH. intros c Hc. apply Hload. by right.
Qed.

(** X19. A class without a predicted file counts for nothing as long as
    its ground truth loads: the evaluation of a batch is the evaluation of
    its classes that have a predicted file. *)
Theorem evaluate_ted_counts_predictions (dataset : string)
    (class_urls class_labels : list string) (ground_truth_dir predicted_dir : string) :
  (∀ c, c ∈ zip class_urls class_labels →
        path_exists (shex_path predicted_dir c.1) = false →
        ∃ t, load_tree (shex_path ground_truth_dir c.1) (shape_id_of dataset c.2) = Ok t) →
  evaluate_ted dataset class_urls class_labels ground_truth_dir predicted_dir
  = evaluate_ted dataset
      (with_prediction predicted_dir (zip class_urls class_labels)).*1
      (with_prediction predicted_dir (zip class_urls class_labels)).*2
      ground_truth_dir predicted_dir.
Proof.
  intros Hload. unfold evaluate_ted. rewrite zip_fst_snd.
  by rewrite (evaluate_loop_with_prediction _ _ _ _ _ _ Hload).
Qed.



(** X21. Urls and labels are paired by position and the longer list is cut:
    the evaluation looks at as many classes as the shorter list has, and
    raises nothing for the surplus. *)
Theorem evaluate_ted_pairs_by_position (dataset : string)
    (class_urls class_labels : list string) (ground_truth_dir predicted_dir : string) :
  let n := length class_urls `min` length class_labels in
  evaluate_ted dataset class_urls class_labels ground_truth_dir predicted_dir
  = evaluate_ted dataset (take n class_urls) (take n class_labels)
      ground_truth_dir predicted_dir.
Proof.
  cbv zeta. unfold evaluate_ted. f_equal. f_equal.
  revert class_labels. induction class_urls as [|u us IH]; intros [|l ls]; try done.
  cbn [length Nat.min take zip zip_with]. f_equal. apply IH.
Qed.
End EvaluatorMore.

(** Ground truths for two classes and a prediction for the first. *)
Definition one_prediction : Environment Toy.labelled :=
  {| read_text := λ path,
       if bool_decide (path ∈ ["gt/Q5.shex"; "gt/Q6.shex"; "pred/Q5.shex"])
       then Some "<Person> { knows IRI * }"
       else None;
     path_exists := λ path, bool_decide (path = "pred/Q5.shex");
     json_loads := λ text, if truthy text then Some Toy.person_true else None |}.

Lemma evaluate_ted_counts_predictions_witness :
  evaluate_ted (H := Toy.label_helpers) (H0 := one_prediction)
    (H1 := Toy.collaborators Toy.lenient_evaluator)
    "wes" ["http://www.wikidata.org/entity/Q5"; "http://www.wikidata.org/entity/Q6"]
    ["person"; "person"] "gt" "pred"
  = evaluate_ted (H := Toy.label_helpers) (H0 := one_prediction)
      (H1 := Toy.collaborators Toy.lenient_evaluator)
      "wes"
      (with_prediction (H0 := one_prediction) "pred"
         (zip ["http://www.wikidata.org/entity/Q5"; "http://www.wikidata.org/entity/Q6"]
            ["person"; "person"])).*1
      (with_prediction (H0 := one_prediction) "pred"
         (zip ["http://www.wikidata.org/entity/Q5"; "http://www.wikidata.org/entity/Q6"]
            ["person"; "person"])).*2
      "gt" "pred".
Proof.
  apply (evaluate_ted_counts_predictions (H := Toy.label_helpers) (H0 := one_prediction)
           (H1 := Toy.collaborators Toy.lenient_evaluator)).
  intros c Hc Hex. apply list_elem_of_In in Hc. simpl in Hc.
  destruct Hc as [<-|[<-|[]]].
  - vm_compute in Hex. discriminate Hex.
  - eexists. vm_compute. reflexivity.
Defined.


(** ** The file of a class *)

Lemma split_without_sep sep s : contains_char sep s = false → split sep s = [s].
Proof.
  induction s as [|a s IH]; [done|]. cbn [contains_char split].
  destruct (decide (a = sep)); [done|]. intros Hs. by rewrite IH.
Qed.

Lemma split_app_sep sep p s :
  split sep (p +:+ String sep s) = split sep p ++ split sep s.
Proof.
  induction p as [|a p IH].
  - change (EmptyString +:+ String sep s) with (String sep s). cbn [split].
    by rewrite decide_True.
  - rewrite append_cons. cbn [split]. destruct (decide (a = sep)); rewrite IH; [done|].
    pose proof (split_nonempty sep p). by destruct (split sep p).
Qed.

Lemma last_split_local_name sep namespace name :
  contains_char sep name = false →
  List.last (split sep (namespace +:+ String sep name)) EmptyString = name.
Proof.
  intros Hname. rewrite split_app_sep, (split_without_sep _ _ Hname).
  apply List.last_last.
Qed.

Lemma split_parts_without_sep sep s :
  Forall (λ part, contains_char sep part = false) (split sep s).
Proof.
  induction s as [|a s IH]; [by repeat constructor|]. cbn [split].
  destruct (decide (a = sep)) as [->|Hne]; [by constructor|].
  pose proof (split_nonempty sep s). destruct (split sep s) as [|h t]; [done|].
  apply Forall_cons in IH as [Hh Ht]. constructor; [|done].
  cbn [contains_char]. by rewrite decide_False.
Qed.

(** X22. The evaluator names the schema file of a class after the text
    behind the last slash of the class url, so urls of different
    namespaces with one local name read the same file of a directory; the
    name holds no slash, so the file lies in the directory given. *)
Theorem shex_path_local_name (directory namespace name : string) :
  contains_char "/" name = false →
  shex_path directory (namespace +:+ "/" +:+ name)
  = os_path_join directory (name +:+ ".shex")
  ∧ shex_path directory name = os_path_join directory (name +:+ ".shex")
  ∧ startswith "/" (name +:+ ".shex") = false.
Proof.
  intros Hname. unfold shex_path. split; [|split].
  - change (namespace +:+ "/" +:+ name) with (namespace +:+ String "/" name).
    by rewrite last_split_local_name.
  - by rewrite split_without_sep.
  - destruct name as [|a name]; [done|]. rewrite append_cons. cbn [startswith].
    cbn [contains_char] in Hname. by destruct (decide (a = "/"%char)) as [->|]; [|rewrite decide_False].
Qed.

Lemma shex_path_local_name_witness :
  shex_path "gt" ("http://www.wikidata.org/entity" +:+ "/" +:+ "Q5")
  = os_path_join "gt" ("Q5" +:+ ".shex")
  ∧ shex_path "gt" "Q5" = os_path_join "gt" ("Q5" +:+ ".shex")
  ∧ startswith "/" ("Q5" +:+ ".shex") = false.
Proof. apply shex_path_local_name. vm_compute. reflexivity. Defined.

(** ** The sheXer baseline *)

(** X23. For the dataset [wes] a bare entity id and the entity url of the
    same id lead to the same call and the same output file, named after
    the id; for every other dataset the bare id is handed on as it is. A
    target that starts with [http] is never rewritten. *)
Theorem shexer_baseline_entity_id (qid : string) :
  startswith "Q" qid = true → contains_char "/" qid = false →
  Shexer.shexer_baseline [qid] "wes"
  = Shexer.shexer_baseline ["http://www.wikidata.org/entity/" +:+ qid] "wes"
  ∧ Shexer.output_file_name <$> Shexer.shexer_baseline [qid] "wes" = [qid +:+ ".shex"]
  ∧ (∀ dataset, dataset ≠ "wes" →
       Shexer.target_classes <$> Shexer.shexer_baseline [qid] dataset = [[qid]])
  ∧ (∀ dataset target, startswith "http" target = true →
       Shexer.resolve_target_class dataset target = target).
Proof.
  intros HQ Hslash.
  assert (startswith "http" qid = false) as Hhttp.
  { destruct qid as [|a qid]; [done|]. cbn [startswith] in *.
    destruct (decide ("Q"%char = a)) as [<-|]; done. }
  assert (Shexer.resolve_target_class "wes" qid = "http://www.wikidata.org/entity/" +:+ qid)
    as Hres.
  { unfold Shexer.resolve_target_class. rewrite Hhttp, HQ. done. }
  assert (Shexer.class_name_of ("http://www.wikidata.org/entity/" +:+ qid) = qid) as Hname.
  { unfold Shexer.class_name_of.
    change ("http://www.wikidata.org/entity/" +:+ qid)
      with ("http://www.wikidata.org/entity" +:+ String "/" qid).
    by apply last_split_local_name. }
  split; [|split; [|split]].
  - unfold Shexer.shexer_baseline. cbn [fmap list_fmap]. by rewrite Hres.
  - unfold Shexer.shexer_baseline. cbn [fmap list_fmap Shexer.output_file_name].
    by rewrite Hres, Hname.
  - intros dataset Hne. unfold Shexer.shexer_baseline.
    cbn [fmap list_fmap Shexer.target_classes]. unfold Shexer.resolve_target_class.
    rewrite Hhttp, bool_decide_false by done. done.
  - intros dataset target Hstart. unfold Shexer.resolve_target_class. by rewrite Hstart.
Qed.

Lemma shexer_baseline_entity_id_witness :
  Shexer.shexer_baseline ["Q5"] "wes"
  = Shexer.shexer_baseline ["http://www.wikidata.org/entity/" +:+ "Q5"] "wes"
  ∧ Shexer.output_file_name <$> Shexer.shexer_baseline ["Q5"] "wes" = ["Q5" +:+ ".shex"]
  ∧ (∀ dataset, dataset ≠ "wes" →
       Shexer.target_classes <$> Shexer.shexer_baseline ["Q5"] dataset = [["Q5"]])
  ∧ (∀ dataset target, startswith "http" target = true →
       Shexer.resolve_target_class dataset target = target).
Proof. apply shexer_baseline_entity_id; vm_compute; reflexivity. Defined.

(** ** The ground-truth cardinalities *)

Section PreprocessProps.
Context {TC Features : Type} `{Preprocess.CardinalityFields TC} `{Environment TC}
  `{Parser.Collaborators} `{Preprocess.Sources Features}.

(** The cardinality an entry states, with the defaults. *)
Definition stated (expression : TC) : Preprocess.Cardinality :=
  {| Preprocess.min := default 1%Z (Preprocess.min_of expression);
     Preprocess.max := default 1%Z (Preprocess.max_of expression) |}.

Lemma cardinalities_loop_snoc d exprs e :
  Preprocess.cardinalities_loop d (exprs ++ [e])
  = (d' ←! Preprocess.cardinalities_loop d exprs; Preprocess.cardinalities_step d' e).
Proof.
  revert d. induction exprs as [|x exprs IH]; intros d;
    cbn [app Preprocess.cardinalities_loop bind].
  - by destruct (Preprocess.cardinalities_step d e).
  - destruct (Preprocess.cardinalities_step d x); cbn [bind]; [apply IH|done].
Qed.

Lemma cardinalities_loop_lookup d exprs d' p :
  Preprocess.cardinalities_loop d exprs = Ok d' →
  Forall (λ e, is_Some (Preprocess.predicate_of e)) exprs
  ∧ d' !! p
    = match last (filter (λ e, Preprocess.predicate_of e = Some p) exprs) with
      | Some e => Some (stated e)
      | None => d !! p
      end.
Proof.
  revert d'. induction exprs as [|e exprs IH] using rev_ind; intros d'.
  - intros [= <-]. split; [constructor|done].
  - rewrite cardinalities_loop_snoc.
    destruct (Preprocess.cardinalities_loop d exprs) as [d1|] eqn:Hloop; [|done].
    cbn [bind]. unfold Preprocess.cardinalities_step.
    destruct (Preprocess.predicate_of e) as [q|] eqn:Hq; [|done].
    intros [= <-]. destruct (IH d1 eq_refl) as [Hall Hlook].
    split; [apply Forall_app; split; [done|]; by repeat constructor|].
    rewrite filter_app, filter_cons, filter_nil, Hq.
    destruct (decide (q = p)) as [->|Hne].
    + rewrite decide_True by done. rewrite last_snoc. by rewrite lookup_insert_eq.
    + rewrite decide_False by congruence. rewrite app_nil_r.
      by rewrite lookup_insert_ne.
Qed.

Lemma cardinalities_loop_total d exprs :
  Forall (λ e, is_Some (Preprocess.predicate_of e)) exprs →
  ∃ d', Preprocess.cardinalities_loop d exprs = Ok d'.
Proof.
  intros Hall. revert d. induction Hall as [|e exprs [p Hp] _ IH]; intros d; [by eexists|].
  cbn [Preprocess.cardinalities_loop]. unfold Preprocess.cardinalities_step.
  rewrite Hp. cbn [bind]. apply IH.
Qed.

(** X24. [load_cardinalities] reads the first shape of the schema whatever
    the start shape is; when it returns, every entry of that shape names a
    predicate, the keys are those predicates, and a predicate stated more
    than once keeps the cardinality of its last entry, with 1 for a
    minimum or maximum that is not given. *)
Theorem load_cardinalities_last_entry (shex_path shexc_text : string)
    (shex_json : SchemaJ TC) (cardinalities : gmap string Preprocess.Cardinality) :
  read_text shex_path = Some shexc_text →
  json_loads (Parser.shexc_to_shexj shexc_text).1.1.1.1 = Some shex_json →
  Preprocess.load_cardinalities shex_path = Ok cardinalities →
  ∃ first rest e exprs,
    shapes shex_json = first :: rest
    ∧ expression first = Some e ∧ expressions e = Some exprs
    ∧ Forall (λ x, is_Some (Preprocess.predicate_of x)) exprs
    ∧ ∀ p, cardinalities !! p
           = stated <$> last (filter (λ x, Preprocess.predicate_of x = Some p) exprs).
Proof.
  intros Hread Hjson. unfold Preprocess.load_cardinalities. rewrite Hread. cbn [bind].
  rewrite Hjson. cbn [bind]. unfold Preprocess.start_shape_expressions_of.
  destruct (shapes shex_json) as [|first rest] eqn:Hshapes; [done|].
  destruct (expression first) as [e|] eqn:He; [|done].
  destruct (expressions e) as [exprs|] eqn:Hexprs; [|done]. cbn [bind]. intros Hloop.
  exists first, rest, e, exprs. split; [done|]. split; [done|]. split; [done|].
  split; [by eapply (cardinalities_loop_lookup ∅ exprs cardinalities EmptyString)|].
  intros p. destruct (cardinalities_loop_lookup ∅ exprs cardinalities p Hloop) as [_ ->].
  by destruct (last _).
Qed.
End PreprocessProps.

(** ** The cardinality data *)

Section PreprocessData.
Context {TC Features : Type} `{Preprocess.CardinalityFields TC} `{Environment TC}
  `{Parser.Collaborators} `{Preprocess.Sources Features}.

Lemma counts_of_length items ns :
  Preprocess.counts_of items = Ok ns → length ns = length items.
Proof.
  revert ns. induction items as [|item items IH]; intros ns; cbn [Preprocess.counts_of].
  - by intros [= <-].
  - destruct (Preprocess.count_of item); [|done]. cbn [bind].
    destruct (Preprocess.counts_of items) as [ms|]; [|done]. cbn [bind].
    intros [= <-]. cbn [length]. f_equal. by apply IH.
Qed.

(** X25. The list [extract_raw_cardinality] returns holds one zero for
    each instance without the property, then one count for each row of the
    first query, in the order of the endpoint, so it is in ascending order
    when the counts are, as the query asks. The function never returns a
    list when the second query comes back without a row, which is what
    [endpoint_sparql_query] hands over after a failed request. *)
Theorem extract_raw_cardinality_zeros_first (class_uri property_uri instance_of_uri : string)
    (raw_cardinalities : list Z) :
  Preprocess.extract_raw_cardinality class_uri property_uri instance_of_uri
  = Ok raw_cardinalities →
  ∃ first rest zero counts,
    Preprocess.zero_rows class_uri property_uri instance_of_uri = first :: rest
    ∧ Preprocess.count_of first = Ok zero
    ∧ Preprocess.counts_of (Preprocess.non_zero_rows class_uri property_uri instance_of_uri)
      = Ok counts
    ∧ raw_cardinalities = replicate (Z.to_nat zero) 0%Z ++ counts
    ∧ length raw_cardinalities
      = Z.to_nat zero
        + length (Preprocess.non_zero_rows class_uri property_uri instance_of_uri)
    ∧ (Sorted Z.le counts → Forall (Z.le 0) counts → Sorted Z.le raw_cardinalities).
Proof.
  unfold Preprocess.extract_raw_cardinality.
  destruct (Preprocess.counts_of _) as [counts|] eqn:Hcounts; [|done]. cbn [bind].
  destruct (Preprocess.zero_rows _ _ _) as [|first rest]; [done|]. cbn [bind].
  destruct (Preprocess.count_of first) as [zero|] eqn:Hzero; [|done]. cbn [bind].
  intros [= <-]. exists first, rest, zero, counts.
  split; [done|]. split; [done|]. split; [done|]. split; [done|]. split.
  - rewrite length_app, length_replicate. f_equal. by apply counts_of_length.
  - intros Hsorted Hpos. induction (Z.to_nat zero) as [|n IH]; [done|].
    cbn [replicate app]. constructor; [done|].
    destruct n; cbn [replicate app]; [|by constructor].
    destruct Hpos; by constructor.
Qed.

(** The file from which the ground truth of a class is loaded. *)
Definition true_shex_path (dataset class_uri : string) : string :=
  "../../dataset/" +:+ dataset +:+ "/"
  +:+ List.last (split "/" class_uri) EmptyString +:+ ".shex".

(** A row that belongs to one of the classes given and carries the
    cardinality the ground truth of that class has for the property, or
    0 and 0 when the ground truth does not mention the property. *)
Definition row_of_ground_truth (dataset : string) (class_uris : list string)
    (m : Preprocess.MetadataRow) : Prop :=
  Preprocess.row_class m ∈ class_uris
  ∧ ∃ gt, Preprocess.load_cardinalities (true_shex_path dataset (Preprocess.row_class m))
          = Ok gt
          ∧ (Preprocess.row_min m, Preprocess.row_max m)
            = match gt !! Preprocess.row_property m with
              | Some c => (Preprocess.min c, Preprocess.max c)
              | None => (0%Z, 0%Z)
              end.

(** A row of a property listed for its class with a count of at least 5. *)
Definition row_of_frequent_property (property_lists : gmap string (list Preprocess.PropertyInfo))
    (m : Preprocess.MetadataRow) : Prop :=
  ∃ properties property_info,
    property_lists !! Preprocess.row_class m = Some properties
    ∧ property_info ∈ properties
    ∧ Preprocess.predicate property_info = Preprocess.row_property m
    ∧ (5 ≤ Preprocess.count property_info)%Z.

Definition aligned (Q : Preprocess.MetadataRow → Prop)
    (acc : Preprocess.Collected Features) : Prop :=
  length (Preprocess.inputs acc) = length (Preprocess.metadata acc)
  ∧ Preprocess.outputs acc
    = (λ m, (Preprocess.row_min m, Preprocess.row_max m)) <$> Preprocess.metadata acc
  ∧ Forall Q (Preprocess.metadata acc).

Lemma property_step_aligned Q dataset instance_of_uri class_uri gt acc info acc' :
  Preprocess.property_step dataset instance_of_uri class_uri gt acc info = Ok acc' →
  aligned Q acc →
  ((dataset = "wes" → (5 ≤ Preprocess.count info)%Z) →
   ∀ m, Preprocess.row_class m = class_uri →
        Preprocess.row_property m = Preprocess.predicate info →
        (Preprocess.row_min m, Preprocess.row_max m)
        = match gt !! Preprocess.predicate info with
          | Some c => (Preprocess.min c, Preprocess.max c)
          | None => (0%Z, 0%Z)
          end →
        Q m) →
  aligned Q acc'.
Proof.
  unfold Preprocess.property_step. intros Hstep (Hlen & Hout & HQ) Hnew.
  destruct (bool_decide (dataset = "wes") && bool_decide (Preprocess.count info < 5)%Z)
    eqn:Hskip.
  { by injection Hstep as <-. }
  destruct (Preprocess.extract_raw_cardinality _ _ _) as [raw|]; [|done].
  cbn [bind] in Hstep. injection Hstep as <-.
  assert (dataset = "wes" → (5 ≤ Preprocess.count info)%Z) as Hfrequent.
  { intros ->. rewrite bool_decide_true in Hskip by done. cbn [andb] in Hskip.
    apply bool_decide_eq_false in Hskip. lia. }
  unfold aligned. cbn [Preprocess.inputs Preprocess.outputs Preprocess.metadata].
  rewrite !length_app, fmap_app, Hlen, Hout. split; [done|]. split.
  - f_equal. by destruct (gt !! Preprocess.predicate info).
  - apply Forall_app. split; [done|]. constructor; [|constructor].
    apply (Hnew Hfrequent); by destruct (gt !! Preprocess.predicate info).
Qed.

Lemma property_loop_aligned Q dataset instance_of_uri class_uri gt properties acc acc' :
  Preprocess.property_loop dataset instance_of_uri class_uri gt acc properties = Ok acc' →
  aligned Q acc →
  (∀ info, info ∈ properties →
     (dataset = "wes" → (5 ≤ Preprocess.count info)%Z) →
     ∀ m, Preprocess.row_class m = class_uri →
          Preprocess.row_property m = Preprocess.predicate info →
          (Preprocess.row_min m, Preprocess.row_max m)
          = match gt !! Preprocess.predicate info with
            | Some c => (Preprocess.min c, Preprocess.max c)
            | None => (0%Z, 0%Z)
            end →
          Q m) →
  aligned Q acc'.
Proof.
  revert acc. induction properties as [|info properties IH]; intros acc.
  - by intros [= <-].
  - cbn [Preprocess.property_loop].
    destruct (Preprocess.property_step _ _ _ _ acc info) as [acc1|] eqn:Hstep; [|done].
    cbn [bind]. intros Hloop Hacc Hnew. apply (IH acc1 Hloop).
    + apply (property_step_aligned _ _ _ _ _ _ _ _ Hstep Hacc). apply Hnew. left.
    + intros info' Hin. apply Hnew. by right.
Qed.

Lemma class_loop_aligned dataset instance_of_uri property_lists all_uris class_uris acc acc' :
  let Q := λ m, row_of_ground_truth dataset all_uris m
                ∧ (dataset = "wes" → row_of_frequent_property property_lists m) in
  Preprocess.class_loop dataset instance_of_uri property_lists acc class_uris = Ok acc' →
  class_uris ⊆ all_uris →
  aligned Q acc → aligned Q acc'.
Proof.
  intros Q. revert acc. induction class_uris as [|class_uri class_uris IH]; intros acc.
  - by intros [= <-].
  - cbn [Preprocess.class_loop].
    destruct (Preprocess.class_step _ _ _ acc class_uri) as [acc1|] eqn:Hstep; [|done].
    cbn [bind]. intros Hloop Hsub Hacc. apply (IH acc1 Hloop).
    { intros x Hx. apply Hsub. by right. }
    unfold Preprocess.class_step in Hstep.
    fold (true_shex_path dataset class_uri) in Hstep.
    destruct (Preprocess.load_cardinalities (true_shex_path dataset class_uri))
      as [gt|] eqn:Hgt; [|done].
    cbn [bind] in Hstep.
    destruct (if bool_decide (dataset = "wes")
              then getitem property_lists class_uri
              else Ok (Preprocess.query_property_list class_uri dataset))
      as [properties|] eqn:Hprops; [|done].
    cbn [bind] in Hstep.
    apply (property_loop_aligned Q _ _ _ _ _ _ _ Hstep Hacc).
    intros info Hin Hfrequent m Hclass Hprop Hrow. split.
    + split; [rewrite Hclass; apply Hsub; left|].
      exists gt. rewrite Hclass, Hprop. done.
    + intros Hwes. rewrite bool_decide_true in Hprops by done. unfold getitem in Hprops.
      destruct (property_lists !! class_uri) as [ps|] eqn:Hps; [|done].
      injection Hprops as ->.
      exists properties, info. rewrite Hclass. auto.
Qed.

(** X26. The three lists [preprocess_data] returns are aligned: one
    feature vector and one output per row of the metadata, the output being
    the last two columns of the row. Every row belongs to a class of the
    call and carries the ground-truth cardinality of its property, or 0
    and 0 for a property the ground truth does not mention; for [wes]
    every row comes from a property listed with a count of at least 5. *)
Theorem preprocess_data_aligned (class_uris : list string)
    (dataset instance_of_uri : string) (collected : Preprocess.Collected Features) :
  Preprocess.preprocess_data class_uris dataset instance_of_uri = Ok collected →
  length (Preprocess.inputs collected) = length (Preprocess.metadata collected)
  ∧ Preprocess.outputs collected
    = (λ m, (Preprocess.row_min m, Preprocess.row_max m))
      <$> Preprocess.metadata collected
  ∧ Forall (row_of_ground_truth dataset class_uris) (Preprocess.metadata collected)
  ∧ (dataset = "wes" →
     ∃ property_lists,
       Preprocess.wes_property_list = Some property_lists
       ∧ Forall (row_of_frequent_property property_lists)
           (Preprocess.metadata collected)).
Proof.
  unfold Preprocess.preprocess_data.
  destruct (if bool_decide (dataset = "wes")
            then match Preprocess.wes_property_list with
                 | Some d => Ok d
                 | None => Raise FileNotFoundError
                 end
            else Ok ∅) as [property_lists|] eqn:Hlists; [|done].
  cbn [bind]. intros Hloop.
  destruct (class_loop_aligned dataset instance_of_uri property_lists class_uris
              class_uris _ _ Hloop) as (Hlen & Hout & HQ); [done| |].
  { split; [done|]. split; [done|constructor]. }
  split; [done|]. split; [done|]. split.
  - eapply Forall_impl; [exact HQ|]. by intros m [? _].
  - intros Hwes. rewrite bool_decide_true in Hlists by done.
    destruct Preprocess.wes_property_list as [d|]; [|done]. injection Hlists as ->.
    exists property_lists. split; [done|].
    eapply Forall_impl; [exact HQ|]. intros m [_ Hm]. by apply Hm.
Qed.
End PreprocessData.

(** Entries that carry their predicate and their bounds, one ground-truth
    file, one property list and an endpoint that answers every query with
    the same rows. *)
Record bounded := {
  b_predicate : option string;
  b_min : option Z;
  b_max : option Z
}.

Definition bounded_fields : Preprocess.CardinalityFields bounded :=
  {| Preprocess.predicate_of := b_predicate;
     Preprocess.min_of := b_min;
     Preprocess.max_of := b_max |}.

Definition human_schema : SchemaJ bounded :=
  {| start := Some "Human";
     shapes :=
       [ {| id := "Human";
            expression :=
              Some {| expressions :=
                        Some [ {| b_predicate := Some "knows"; b_min := Some 0%Z;
                                  b_max := Some (-1)%Z |};
                               {| b_predicate := Some "name"; b_min := None;
                                  b_max := None |};
                               {| b_predicate := Some "knows"; b_min := None;
                                  b_max := Some 5%Z |} ] |} |} ] |}.

Definition human_files : Environment bounded :=
  {| read_text := λ path,
       if bool_decide (path = "../../dataset/wes/Q5.shex")
       then Some "<Human> { knows IRI {1,5} }"
       else None;
     path_exists := λ path, bool_decide (path = "../../dataset/wes/Q5.shex");
     json_loads := λ text, if truthy text then Some human_schema else None |}.

Definition human_sources : Preprocess.Sources nat :=
  {| Preprocess.wes_property_list :=
       Some {[ "http://www.wikidata.org/entity/Q5" :=
                 [ {| Preprocess.predicate := "knows"; Preprocess.count := 9 |};
                   {| Preprocess.predicate := "alias"; Preprocess.count := 2 |};
                   {| Preprocess.predicate := "age"; Preprocess.count := 7 |} ] ]};
     Preprocess.query_property_list := λ _ _, [];
     Preprocess.non_zero_rows := λ _ _ _,
       [ {[ "count" := "2" ]}; {[ "count" := "3" ]} ];
     Preprocess.zero_rows := λ _ _ _, [ {[ "count" := "1" ]} ];
     Preprocess.int_of_str := λ text,
       if bool_decide (text = "1") then Some 1%Z
       else if bool_decide (text = "2") then Some 2%Z
       else if bool_decide (text = "3") then Some 3%Z
       else None;
     Preprocess.feature_engineering := λ raw_cardinalities, length raw_cardinalities |}.

Definition human_cardinalities : gmap string Preprocess.Cardinality :=
  <["knows" := {| Preprocess.min := 1; Preprocess.max := 5 |}]>
    (<["name" := {| Preprocess.min := 1; Preprocess.max := 1 |}]> ∅).

Definition human_collected : Preprocess.Collected nat :=
  {| Preprocess.inputs := [3; 3];
     Preprocess.outputs := [(1%Z, 5%Z); (0%Z, 0%Z)];
     Preprocess.metadata :=
       [ {| Preprocess.row_class := "http://www.wikidata.org/entity/Q5";
            Preprocess.row_property := "knows";
            Preprocess.row_min := 1; Preprocess.row_max := 5 |};
         {| Preprocess.row_class := "http://www.wikidata.org/entity/Q5";
            Preprocess.row_property := "age";
            Preprocess.row_min := 0; Preprocess.row_max := 0 |} ] |}.

Lemma load_cardinalities_last_entry_witness :
  ∃ first rest e exprs,
    shapes human_schema = first :: rest
    ∧ expression first = Some e ∧ expressions e = Some exprs
    ∧ Forall (λ x, is_Some (Preprocess.predicate_of (CardinalityFields := bounded_fields) x))
        exprs
    ∧ ∀ p, human_cardinalities !! p
           = stated (H := bounded_fields)
             <$> last (filter (λ x, Preprocess.predicate_of (CardinalityFields := bounded_fields) x
                                    = Some p) exprs).
Proof.
  apply (load_cardinalities_last_entry (H := bounded_fields) (H0 := human_files)
           (H1 := Toy.collaborators Toy.lenient_evaluator)
           "../../dataset/wes/Q5.shex" "<Human> { knows IRI {1,5} }").
  - vm_compute. reflexivity.
  - vm_compute. reflexivity.
  - vm_compute. reflexivity.
Defined.

Lemma extract_raw_cardinality_zeros_first_witness :
  ∃ first rest zero counts,
    Preprocess.zero_rows (Sources := human_sources) "Q5" "knows" "P31" = first :: rest
    ∧ Preprocess.count_of (H2 := human_sources) first = Ok zero
    ∧ Preprocess.counts_of (H2 := human_sources)
        (Preprocess.non_zero_rows (Sources := human_sources) "Q5" "knows" "P31")
      = Ok counts
    ∧ [0; 2; 3]%Z = replicate (Z.to_nat zero) 0%Z ++ counts
    ∧ length [0; 2; 3]%Z
      = Z.to_nat zero
        + length (Preprocess.non_zero_rows (Sources := human_sources) "Q5" "knows" "P31")
    ∧ (Sorted Z.le counts → Forall (Z.le 0) counts → Sorted Z.le [0; 2; 3]%Z).
Proof.
  apply (extract_raw_cardinality_zeros_first (H2 := human_sources)).
  vm_compute. reflexivity.
Defined.

Lemma preprocess_data_aligned_witness :
  length (Preprocess.inputs human_collected) = length (Preprocess.metadata human_collected)
  ∧ Preprocess.outputs human_collected
    = (λ m, (Preprocess.row_min m, Preprocess.row_max m))
      <$> Preprocess.metadata human_collected
  ∧ Forall (row_of_ground_truth (H := bounded_fields) (H0 := human_files)
              (H1 := Toy.collaborators Toy.lenient_evaluator)
              "wes" ["http://www.wikidata.org/entity/Q5"])
      (Preprocess.metadata human_collected)
  ∧ ("wes" = "wes" →
     ∃ property_lists,
       Preprocess.wes_property_list (Sources := human_sources) = Some property_lists
       ∧ Forall (row_of_frequent_property property_lists)
           (Preprocess.metadata human_collected)).
Proof.
  apply (preprocess_data_aligned (H := bounded_fields) (H0 := human_files)
           (H1 := Toy.collaborators Toy.lenient_evaluator) (H2 := human_sources)
           ["http://www.wikidata.org/entity/Q5"] "wes" "P31").
  vm_compute. reflexivity.
Defined.

(** ** Extracting comments and putting them back *)

Lemma split_join sep lines :
  lines ≠ [] → Forall (λ l, contains_char sep l = false) lines →
  split sep (join sep lines) = lines.
Proof.
  intros Hne Hall. induction Hall as [|l lines Hl Hall IH]; [done|].
  destruct lines as [|l2 lines].
  - by apply split_without_sep.
  - change (join sep (l :: l2 :: lines)) with (l +:+ String sep (join sep (l2 :: lines))).
    rewrite split_app_sep, (split_without_sep _ _ Hl), IH by done. done.
Qed.

Lemma append_empty_r s : s +:+ EmptyString = s.
Proof. induction s as [|a s IH]; [done|]. by rewrite append_cons, IH. Qed.

Lemma before_char_app c s t :
  contains_char c s = false → before_char c (s +:+ t) = s +:+ before_char c t.
Proof.
  induction s as [|a s IH]; [done|]. rewrite !append_cons.
  cbn [contains_char before_char]. destruct (decide (a = c)); [done|].
  intros Hs. by rewrite IH.
Qed.

Lemma from_char_app c s t :
  contains_char c s = false → from_char c (s +:+ t) = from_char c t.
Proof.
  induction s as [|a s IH]; [done|]. rewrite append_cons.
  cbn [contains_char from_char]. destruct (decide (a = c)); [done|]. apply IH.
Qed.

Lemma rstrip_by_app_blank p s t :
  rstrip_by p t = EmptyString → rstrip_by p (s +:+ t) = rstrip_by p s.
Proof.
  intros Ht. induction s as [|a s IH]; [done|]. rewrite append_cons.
  cbn [rstrip_by]. by rewrite IH.
Qed.

Lemma lstrip_by_app p s t :
  lstrip_by p s ≠ EmptyString → lstrip_by p (s +:+ t) = lstrip_by p s +:+ t.
Proof.
  induction s as [|a s IH]; [done|]. rewrite append_cons. cbn [lstrip_by].
  destruct (p a); [apply IH|]. intros _. by rewrite append_cons.
Qed.

Lemma lstrip_by_head p s a r : lstrip_by p s = String a r → p a = false.
Proof.
  induction s as [|b s IH]; [done|]. cbn [lstrip_by].
  destruct (p b) eqn:E; [apply IH|]. by intros [= <- _].
Qed.

Lemma strip_truthy_lstrip s : truthy (strip s) = true → lstrip s ≠ EmptyString.
Proof. unfold strip. intros Ht Hl. by rewrite Hl in Ht. Qed.

Lemma isspace_blanks_without_hash s :
  rstrip s = EmptyString → contains_char HASH s = false.
Proof.
  unfold rstrip. induction s as [|a s IH]; [done|]. cbn [rstrip_by contains_char].
  destruct (rstrip_by isspace s) eqn:E; [|done].
  destruct (isspace a) eqn:Ha; [|done]. intros _.
  destruct (decide (a = HASH)) as [->|]; [done|]. by apply IH.
Qed.

Lemma lstrip_comment c : startswith "#" c = true → lstrip c = c.
Proof. intros [r ->]%startswith_hash_cons. reflexivity. Qed.

(** A line without a hash sign yields no record. *)
Lemma comment_at_without_hash start_line_num idx line following :
  contains_char HASH line = false →
  comment_at start_line_num idx line following = [].
Proof.
  intros Hno.
  assert (startswith "#" (strip line) = false) as Hstart.
  { destruct (startswith "#" (strip line)) eqn:E; [|done].
    apply startswith_strip_lstrip, startswith_hash_cons in E as [r Hr].
    destruct (lstrip_by_suffix isspace line) as [blanks Hb]. unfold lstrip in Hr.
    rewrite Hb, Hr, contains_char_app in Hno. cbn [contains_char] in Hno.
    rewrite decide_True, orb_true_r in Hno by done. done. }
  unfold comment_at. rewrite Hstart, Hno. by destruct (idx <? start_line_num).
Qed.

Lemma comment_scan_without_hash start_line_num idx ahead rest :
  Forall (λ l, contains_char HASH l = false) ahead →
  comment_scan start_line_num idx (ahead ++ rest)
  = comment_scan start_line_num (idx + length ahead) rest.
Proof.
  intros Hall. revert idx. induction Hall as [|l ahead Hl _ IH]; intros idx.
  - by rewrite Nat.add_0_r.
  - cbn [app comment_scan length]. rewrite comment_at_without_hash by done.
    rewrite IH. cbn [app]. f_equal. lia.
Qed.

Lemma comment_scan_one start_line_num idx ahead line following :
  Forall (λ l, contains_char HASH l = false) (ahead ++ following) →
  comment_scan start_line_num idx (ahead ++ line :: following)
  = comment_at start_line_num (idx + length ahead) line following.
Proof.
  intros [Hahead Hfollowing]%Forall_app.
  rewrite comment_scan_without_hash by done. cbn [comment_scan].
  rewrite <- (app_nil_r following) at 2.
  rewrite (comment_scan_without_hash _ _ following []) by done. cbn [comment_scan].
  by rewrite app_nil_r.
Qed.

(** The line of an inline comment: code, blanks, comment. *)
Lemma inline_line_parts code blanks comment :
  contains_char HASH code = false → rstrip blanks = EmptyString →
  startswith "#" comment = true → truthy (strip code) = true →
  startswith "#" (strip (code +:+ blanks +:+ comment)) = false
  ∧ contains_char HASH (code +:+ blanks +:+ comment) = true
  ∧ from_char HASH (code +:+ blanks +:+ comment) = comment
  ∧ truthy (strip (before_char HASH (code +:+ blanks +:+ comment))) = true
  ∧ rstrip (before_char HASH (code +:+ blanks +:+ comment)) = rstrip code.
Proof.
  intros Hcode Hblanks Hcomment Hstrip.
  pose proof (isspace_blanks_without_hash _ Hblanks) as Hb.
  pose proof (strip_truthy_lstrip _ Hstrip) as Hl.
  destruct (startswith_hash_cons _ Hcomment) as [r ->].
  assert (before_char HASH (code +:+ blanks +:+ String HASH r) = code +:+ blanks) as Hbefore.
  { rewrite before_char_app by done. rewrite before_char_app by done.
    cbn [before_char]. rewrite decide_True by done.
    by rewrite append_empty_r. }
  split; [|split; [|split; [|split]]].
  - destruct (startswith "#" (strip (code +:+ blanks +:+ String HASH r))) eqn:E; [|done].
    apply startswith_strip_lstrip in E. unfold lstrip in *.
    rewrite lstrip_by_app in E by done.
    destruct (lstrip_by isspace code) as [|a rest] eqn:Hhead; [done|].
    rewrite append_cons in E. cbn [startswith] in E.
    destruct (decide ("#"%char = a)) as [<-|]; [|done].
    destruct (lstrip_by_suffix isspace code) as [lead Hlead].
    rewrite Hhead in Hlead. rewrite Hlead, contains_char_app in Hcode.
    cbn [contains_char] in Hcode. rewrite decide_True, orb_true_r in Hcode by done. done.
  - rewrite !contains_char_app. cbn [contains_char]. rewrite decide_True by done.
    by rewrite !orb_true_r.
  - rewrite !from_char_app by done. cbn [from_char]. by rewrite decide_True.
  - rewrite Hbefore. unfold strip, lstrip, rstrip in *.
    rewrite lstrip_by_app by done. by rewrite rstrip_by_app_blank.
  - rewrite Hbefore. unfold rstrip in *. by apply rstrip_by_app_blank.
Qed.

(** X27. An inline comment behind a constraint comes back on its line: the
    extractor records the comment with the code of the line as its anchor,
    and the reinserter, given the text without the comment, appends the
    comment to the first line that equals the anchor, after exactly two
    spaces. The text is restored when its code and its comment were two
    spaces apart, and is normalized to that otherwise. *)
Theorem inline_comment_reinserted (pre post : list string) (code blanks comment : string) :
  Forall (λ l, contains_char LF l = false ∧ contains_char HASH l = false)
    (pre ++ code :: post) →
  contains_char LF (blanks +:+ comment) = false →
  rstrip blanks = EmptyString →
  startswith "#" comment = true →
  truthy (strip code) = true → rstrip code = code →
  Forall (λ l, l ≠ code ∧ rstrip_by space_or_semicolon l ≠ code) pre →
  position_start_line_from 0 (pre ++ (code +:+ blanks +:+ comment) :: post) ≤ length pre →
  comment_parser_helper (join LF (pre ++ (code +:+ blanks +:+ comment) :: post))
  = [ {| c_comment := comment; c_type := constraint; c_location := LocStr code |} ]
  ∧ insert_comments (join LF (pre ++ code :: post))
      (Some (comment_parser_helper
               (join LF (pre ++ (code +:+ blanks +:+ comment) :: post))))
    = join LF (pre ++ (code +:+ "  " +:+ comment) :: post).
Proof.
  intros Hlines Hlf Hblanks Hcomment Hstrip Hrstrip Hanchor Hstart.
  assert (Forall (λ l, contains_char LF l = false) (pre ++ code :: post)) as Hnolf
    by (eapply Forall_impl; [exact Hlines|]; by intros l [? _]).
  assert (Forall (λ l, contains_char HASH l = false) (pre ++ code :: post)) as Hnohash
    by (eapply Forall_impl; [exact Hlines|]; by intros l [_ ?]).
  apply Forall_app in Hnolf as [Hlf_pre Hlf_rest].
  apply Forall_cons in Hlf_rest as [Hlf_code Hlf_post].
  apply Forall_app in Hnohash as [Hh_pre Hh_rest].
  apply Forall_cons in Hh_rest as [Hh_code Hh_post].
  destruct (inline_line_parts code blanks comment Hh_code Hblanks Hcomment Hstrip)
    as (Hown & Hhas & Hfrom & Htruthy & Hbefore).
  assert (split LF (join LF (pre ++ (code +:+ blanks +:+ comment) :: post))
          = pre ++ (code +:+ blanks +:+ comment) :: post) as Hsplit.
  { apply split_join; [by destruct pre|]. apply Forall_app. split; [done|].
    constructor; [|done]. rewrite contains_char_app, Hlf_code. done. }
  assert (comment_parser_helper (join LF (pre ++ (code +:+ blanks +:+ comment) :: post))
          = [ {| c_comment := comment; c_type := constraint;
                 c_location := LocStr code |} ]) as Hrecords.
  { unfold comment_parser_helper, position_start_line. rewrite Hsplit.
    rewrite comment_scan_one by (apply Forall_app; by split).
    unfold comment_at. cbn [Nat.add].
    rewrite (proj2 (Nat.ltb_ge _ _)) by done.
    rewrite Hown, Hhas, Hfrom. unfold locate_comment. by rewrite Htruthy, Hbefore, Hrstrip. }
  split; [done|]. rewrite Hrecords. unfold insert_comments, insert_comment_lines.
  cbn [reverse rev_append foldl]. unfold insert_comment.
  rewrite decide_False by done. f_equal.
  rewrite split_join;
    [|by destruct pre|apply Forall_app; split; [done|]; by constructor].
  rewrite insert_at_anchor_hit.
  - cbn [c_type c_comment]. by rewrite Hrstrip, lstrip_comment.
  - intros x Hx. apply anchor_matches_str_false. rewrite Forall_forall in Hanchor.
    by apply Hanchor.
  - apply anchor_matches_str. by left.
Qed.

Lemma inline_comment_reinserted_witness :
  comment_parser_helper
    (join LF (["<S> {"] ++ ("  ex:knows IRI * ;" +:+ " " +:+ "# any number") :: ["}"]))
  = [ {| c_comment := "# any number"; c_type := constraint;
         c_location := LocStr "  ex:knows IRI * ;" |} ]
  ∧ insert_comments (join LF (["<S> {"] ++ "  ex:knows IRI * ;" :: ["}"]))
      (Some (comment_parser_helper
               (join LF (["<S> {"]
                         ++ ("  ex:knows IRI * ;" +:+ " " +:+ "# any number") :: ["}"]))))
    = join LF (["<S> {"] ++ ("  ex:knows IRI * ;" +:+ "  " +:+ "# any number") :: ["}"]).
Proof.
  apply inline_comment_reinserted.
  - repeat constructor.
  - vm_compute. reflexivity.
  - vm_compute. reflexivity.
  - vm_compute. reflexivity.
  - vm_compute. reflexivity.
  - vm_compute. reflexivity.
  - constructor; [|constructor]. split; vm_compute; discriminate.
  - vm_compute. lia.
Defined.

(** The blanks in front of a comment that stands on its own line. *)
Lemma own_line_before_hash line :
  startswith "#" (lstrip line) = true →
  contains_char HASH line = true ∧ strip (before_char HASH line) = EmptyString.
Proof.
  unfold strip, lstrip, rstrip.
  induction line as [|a line IH]; [done|]. cbn [lstrip_by contains_char before_char].
  destruct (isspace a) eqn:Ha.
  - intros Hline. destruct (decide (a = HASH)) as [->|]; [done|].
    cbn [lstrip_by]. rewrite Ha. by apply IH.
  - intros [r [= -> _]]%startswith_hash_cons. by rewrite decide_True.
Qed.

(** X28. A comment on a line of its own comes back on a line of its own
    only in the header: before the start line the record is general and
    the reinserter puts the comment line back in front of the line that
    followed it. From the start line on the record is a constraint record
    anchored at the following line, and the reinserter appends the comment
    to that line, so the text comes back one line shorter. *)
Theorem own_line_comment_reinserted (pre post : list string) (comment next : string) :
  Forall (λ l, contains_char LF l = false ∧ contains_char HASH l = false)
    (pre ++ next :: post) →
  contains_char LF comment = false →
  startswith "#" (strip comment) = true →
  truthy next = true →
  Forall (λ l, l ≠ next ∧ rstrip_by space_or_semicolon l ≠ next) pre →
  let commented := join LF (pre ++ comment :: next :: post) in
  let in_header := (length pre <? position_start_line commented)%nat in
  comment_parser_helper commented
  = [ {| c_comment := comment;
         c_type := if in_header then general else constraint;
         c_location := LocStr next |} ]
  ∧ insert_comments (join LF (pre ++ next :: post))
      (Some (comment_parser_helper commented))
    = if in_header then commented
      else join LF (pre ++ (rstrip next +:+ "  " +:+ lstrip comment) :: post).
Proof.
  intros Hlines Hlf Hcomment Hnext Hanchor. cbv zeta.
  assert (Forall (λ l, contains_char LF l = false) (pre ++ next :: post)) as Hnolf
    by (eapply Forall_impl; [exact Hlines|]; by intros l [? _]).
  assert (Forall (λ l, contains_char HASH l = false) (pre ++ next :: post)) as Hnohash
    by (eapply Forall_impl; [exact Hlines|]; by intros l [_ ?]).
  apply Forall_app in Hnolf as [Hlf_pre Hlf_rest].
  apply Forall_app in Hnohash as [Hh_pre Hh_rest].
  destruct (own_line_before_hash comment (startswith_strip_lstrip _ Hcomment))
    as [Hhas Hblank].
  assert (split LF (join LF (pre ++ comment :: next :: post))
          = pre ++ comment :: next :: post) as Hsplit.
  { apply split_join; [by destruct pre|]. apply Forall_app. split; [done|].
    by constructor. }
  assert (first_nonempty (next :: post) = LocStr next) as Hfirst.
  { unfold first_nonempty. cbn [List.find]. by rewrite Hnext. }
  set (start_line_num := position_start_line (join LF (pre ++ comment :: next :: post))).
  assert (comment_parser_helper (join LF (pre ++ comment :: next :: post))
          = [ {| c_comment := comment;
                 c_type := if (length pre <? start_line_num)%nat
                           then general else constraint;
                 c_location := LocStr next |} ]) as Hrecords.
  { unfold comment_parser_helper. fold start_line_num. rewrite Hsplit.
    rewrite comment_scan_one by (apply Forall_app; by split).
    unfold comment_at. cbn [Nat.add]. rewrite Hcomment.
    destruct (length pre <? start_line_num)%nat; unfold locate_comment;
      by rewrite ?Hblank, Hfirst. }
  split; [done|]. rewrite Hrecords. unfold insert_comments, insert_comment_lines.
  cbn [reverse rev_append foldl]. unfold insert_comment.
  rewrite decide_False by done.
  rewrite split_join; [|by destruct pre|by apply Forall_app].
  rewrite insert_at_anchor_hit.
  - cbn [c_type c_comment]. by destruct (length pre <? start_line_num)%nat.
  - intros x Hx. apply anchor_matches_str_false. rewrite Forall_forall in Hanchor.
    by apply Hanchor.
  - apply anchor_matches_str. by left.
Qed.

Lemma own_line_comment_reinserted_witness :
  comment_parser_helper (join LF (["<S> {"] ++ "  # who they know" :: "  ex:knows IRI *" :: ["}"]))
  = [ {| c_comment := "  # who they know";
         c_type := if (length ["<S> {"]
                       <? position_start_line
                            (join LF (["<S> {"] ++ "  # who they know"
                                      :: "  ex:knows IRI *" :: ["}"])))%nat
                   then general else constraint;
         c_location := LocStr "  ex:knows IRI *" |} ]
  ∧ insert_comments (join LF (["<S> {"] ++ "  ex:knows IRI *" :: ["}"]))
      (Some (comment_parser_helper
               (join LF (["<S> {"] ++ "  # who they know" :: "  ex:knows IRI *" :: ["}"]))))
    = if (length ["<S> {"]
          <? position_start_line
               (join LF (["<S> {"] ++ "  # who they know" :: "  ex:knows IRI *" :: ["}"])))%nat
      then join LF (["<S> {"] ++ "  # who they know" :: "  ex:knows IRI *" :: ["}"])
      else join LF (["<S> {"]
                    ++ (rstrip "  ex:knows IRI *" +:+ "  " +:+ lstrip "  # who they know")
                    :: ["}"]).
Proof.
  apply own_line_comment_reinserted.
  - repeat constructor.
  - vm_compute. reflexivity.
  - vm_compute. reflexivity.
  - vm_compute. reflexivity.
  - constructor; [|constructor]. split; vm_compute; discriminate.
Defined.

(** The comment of the shape of [own_line_comment_reinserted_witness] ends
    up behind the constraint. *)
Example own_line_comment_merged :
  insert_comments "<S> {
  ex:knows IRI *
}" (Some (comment_parser_helper "<S> {
  # who they know
  ex:knows IRI *
}"))
  = "<S> {
  ex:knows IRI *  # who they know
}".
Proof. vm_compute. reflexivity. Qed.

(** ** The shape id of a class *)

















(** Capitals and small letters of Latin-1: 201 and 233 are the capital and
    the small e with acute accent. *)
Example capitalize_latin1 :
  capitalize (String (ascii_of_nat 233) "COLE") = String (ascii_of_nat 201) "cole"
  ∧ shape_id_of "wes" (String (ascii_of_nat 201) "COLE normale")
    = String (ascii_of_nat 201) "coleNormale"
  ∧ map_chars lower (String (ascii_of_nat 215) (String (ascii_of_nat 222) EmptyString))
    = String (ascii_of_nat 215) (String (ascii_of_nat 254) EmptyString)
  ∧ upper (ascii_of_nat 247) = ascii_of_nat 247.
Proof. by vm_compute. Qed.

Example shape_id_of_not_idempotent :
  shape_id_of "wes" "film  AWARD" = "FilmAward"
  ∧ shape_id_of "wes" (shape_id_of "wes" "film award") = "Filmaward".
Proof. by vm_compute. Qed.

(** ** The number of lines after reinsertion *)

Lemma contains_char_rstrip_by c p s :
  contains_char c s = false → contains_char c (rstrip_by p s) = false.
Proof.
  induction s as [|a s IH]; [done|]. cbn [contains_char rstrip_by].
  destruct (decide (a = c)) as [->|Hne]; [done|]. intros Hs%IH.
  destruct (rstrip_by p s) as [|b r] eqn:E.
  - destruct (p a); [done|]. cbn [contains_char]. by rewrite decide_False.
  - cbn [contains_char] in *. by rewrite decide_False.
Qed.

Lemma contains_char_lstrip_by c p s :
  contains_char c s = false → contains_char c (lstrip_by p s) = false.
Proof.
  induction s as [|a s IH]; [done|]. cbn [lstrip_by]. destruct (p a); [|done].
  cbn [contains_char]. destruct (decide (a = c)); [done|]. apply IH.
Qed.

(** Reinsertion breaks no line when the comment holds no line feed. *)
Lemma insert_comment_without_lf lines c :
  Forall (λ l, contains_char LF l = false) lines →
  contains_char LF (c_comment c) = false →
  Forall (λ l, contains_char LF l = false) (insert_comment lines c).
Proof.
  intros Hlines Hc. unfold insert_comment.
  destruct (decide (c_location c = LocInt 0)); [by constructor|].
  induction Hlines as [|l lines Hl Hlines IH]; [constructor|].
  cbn [insert_at_anchor]. destruct (anchor_matches (c_location c) l).
  - destruct (c_type c).
    + constructor; [done|]. by constructor.
    + constructor; [|done]. rewrite !contains_char_app.
      unfold rstrip, lstrip. rewrite contains_char_rstrip_by, contains_char_lstrip_by by done.
      done.
  - by constructor.
Qed.

Lemma insert_comment_located_at_0 lines c :
  c_location c = LocInt 0 → length (insert_comment lines c) = S (length lines).
Proof. intros Hloc. unfold insert_comment. by rewrite decide_True. Qed.

Lemma insert_comment_lines_count lines cs :
  Forall (λ l, contains_char LF l = false) lines →
  Forall (λ c, contains_char LF (c_comment c) = false) cs →
  Forall (λ l, contains_char LF l = false) (insert_comment_lines lines cs)
  ∧ length lines + length (filter (λ c, c_location c = LocInt 0) cs)
    ≤ length (insert_comment_lines lines cs)
  ∧ length (insert_comment_lines lines cs)
    ≤ length lines + length (filter (λ c, own_line c) cs).
Proof.
  unfold insert_comment_lines. intros Hlines Hcs.
  assert (length (filter (λ c, own_line c) cs)
          = length (filter (λ c, own_line c) (reverse cs))) as ->
    by (by rewrite reverse_Permutation).
  assert (length (filter (λ c, c_location c = LocInt 0) cs)
          = length (filter (λ c, c_location c = LocInt 0) (reverse cs))) as ->
    by (by rewrite reverse_Permutation).
  assert (Forall (λ c, contains_char LF (c_comment c) = false) (reverse cs)) as Hrev
    by (by rewrite reverse_Permutation).
  clear Hcs. revert lines Hlines.
  induction Hrev as [|c l Hc _ IH]; intros lines Hlines.
  { cbn [foldl]. split; [done|]. simpl. lia. }
  cbn [foldl].
  destruct (IH (insert_comment lines c) (insert_comment_without_lf _ _ Hlines Hc))
    as (Hlf & Hlow & Hup).
  split; [done|].
  destruct (insert_comment_length lines c) as [H1 H2].
  rewrite !filter_cons. unfold own_line in *.
  destruct (decide (c_location c = LocInt 0)) as [Hloc|Hloc].
  - rewrite (insert_comment_located_at_0 _ _ Hloc) in *.
    rewrite bool_decide_true by done. cbn [orb length] in *. rewrite decide_True by done.
    cbn [length]. lia.
  - rewrite bool_decide_false in * by done. cbn [orb] in *.
    destruct (bool_decide (c_type c = general)); simpl in *; lia.
Qed.

(** X9. For comments that hold no line feed, as the extractor returns
    them, the text that comes back from the reinserter has at least the
    lines of the text it was given and one more for every record located
    at 0, and at most one more for each record that is located at 0 or is
    general. Constraint records with a string location add no line: they
    extend a line or are dropped. *)
Theorem insert_comments_line_count (shexc_text : string) (cs : list CommentRecord) :
  Forall (λ c, contains_char LF (c_comment c) = false) cs →
  let given := length (split LF shexc_text) in
  let returned := length (split LF (insert_comments shexc_text (Some cs))) in
  given + length (filter (λ c, c_location c = LocInt 0) cs) ≤ returned
  ∧ returned ≤ given + length (filter (λ c, own_line c) cs).
Proof.
  intros Hcs. cbv zeta. destruct cs as [|c0 cs0] eqn:E.
  { cbn [insert_comments filter list_filter length]. lia. }
  rewrite <- E in *.
  assert (insert_comments shexc_text (Some cs)
          = join LF (insert_comment_lines (split LF shexc_text) cs)) as ->
    by (by rewrite E).
  destruct (insert_comment_lines_count (split LF shexc_text) cs
              (split_parts_without_sep LF shexc_text) Hcs) as (Hlf & Hlow & Hup).
  rewrite split_join; [done| |done].
  pose proof (split_nonempty LF shexc_text).
  destruct (split LF shexc_text); [done|].
  destruct (insert_comment_lines _ cs); [|done]. cbn [length] in Hlow. lia.
Qed.

Lemma insert_comments_line_count_witness :
  length (split LF "<S> {
  ex:knows IRI *
}")
  + length (filter (λ c, c_location c = LocInt 0)
              [ {| c_comment := "# people"; c_type := general;
                   c_location := LocStr "<S> {" |};
                {| c_comment := "# any number"; c_type := constraint;
                   c_location := LocStr "  ex:knows IRI *" |};
                {| c_comment := "# end"; c_type := constraint;
                   c_location := LocInt 0 |} ])
  ≤ length (split LF
              (insert_comments "<S> {
  ex:knows IRI *
}" (Some [ {| c_comment := "# people"; c_type := general;
              c_location := LocStr "<S> {" |};
           {| c_comment := "# any number"; c_type := constraint;
              c_location := LocStr "  ex:knows IRI *" |};
           {| c_comment := "# end"; c_type := constraint;
              c_location := LocInt 0 |} ])))
  ∧ length (split LF
              (insert_comments "<S> {
  ex:knows IRI *
}" (Some [ {| c_comment := "# people"; c_type := general;
              c_location := LocStr "<S> {" |};
           {| c_comment := "# any number"; c_type := constraint;
              c_location := LocStr "  ex:knows IRI *" |};
           {| c_comment := "# end"; c_type := constraint;
              c_location := LocInt 0 |} ])))
    ≤ length (split LF "<S> {
  ex:knows IRI *
}")
      + length (filter (λ c, own_line c)
                  [ {| c_comment := "# people"; c_type := general;
                       c_location := LocStr "<S> {" |};
                    {| c_comment := "# any number"; c_type := constraint;
                       c_location := LocStr "  ex:knows IRI *" |};
                    {| c_comment := "# end"; c_type := constraint;
                       c_location := LocInt 0 |} ]).
Proof.
  apply (insert_comments_line_count "<S> {
  ex:knows IRI *
}"). repeat constructor.
Defined.
